(** * Translation of Kubernetes routing resources into Kong services and routes

    A shallow embedding of [internal/dataplane/parser/translate.go]: the five
    resource normalizers ([fromIngressV1beta1], [fromIngressV1],
    [fromTCPIngressV1beta1], [fromUDPIngressV1beta1], [fromKnativeIngress]),
    the path translator [pathsFromK8s] with [priorityForPath], and the
    traffic-split selector [knativeSelectSplit].

    Conventions of the embedding.
    - Go [string] is [string]; Go [int]/[int32] values are [Z], with the
      conversion [int32] written out where the code converts; loop indices
      are [nat]; a nil-able pointer is an [option]; a slice is a [list] (a nil
      slice and an empty slice are both [[]]); [%d] and [strconv.Itoa] are
      [pretty].
    - A Go [map] used as a dictionary is a [gmap]; a [map[string]struct{}]
      used as a set is a [gset string]. The order of [range] over a map is a
      parameter of the run ([MapOrder]).
    - A slice argument that the callee sorts in place is returned next to
      the result: every normalizer yields the IR fragment together with the
      caller's slice as it is left when the call returns.
    - Every loop body ends with the same lines, which look up the service,
      create it when absent, append the route and store the service
      ([appendRoute]). A body is written as the function that yields the
      name, the service to create and the route ([Emission]), or nothing when
      it leaves by [continue], together with [usedRouteNames]; [commit] runs
      the common tail.
    - [log.Errorf] only writes to the log sink; the log is not part of the
      model.
    - The API types come from libraries outside the repository; the records
      below carry the fields that [translate.go] reads.
    - A nil pointer dereference panics. [fromIngressV1] dereferences the
      [Service] pointer of a v1 backend, which is nil in a backend that names
      a resource, without a check: its result is an [option], [None] for the
      call that panics, next to the slice, which is sorted before any
      backend is read.
    - What [translate.go] takes from the rest of the repository is not among
      the sources: it is the class [Externals] and the class [RouteConfig] of
      [getUniqIDForRouteConfig]. The definitions and theorems are stated for
      every instance; the instance of [Sample] serves to run examples.
    - The nine [Reconcile] methods of the generated controllers of package
      [configuration] are instances of one template; they are the one
      function [configuration.Reconcile] of the kind, a program over the calls
      it makes to the API server, the clock, the cache stores and the Kong
      admin API.

    The file has two parts: the program with the vocabulary of the
    statements, then the properties. *)

From Stdlib Require Import ZArith Ascii String List Permutation Sorted Lia.
From stdpp Require Import base tactics option list strings gmap pretty sorting.

Local Open Scope string_scope.
Local Open Scope Z_scope.
Local Open Scope list_scope.

(** ** Go's [strings] package *)

Module Strings.

(** [strings.Contains s substr]. *)
Fixpoint Contains (s substr : string) : bool :=
  if String.prefix substr s then true
  else match s with
       | EmptyString => false
       | String _ s' => Contains s' substr
       end.

Fixpoint inCutset (c : ascii) (cutset : string) : bool :=
  match cutset with
  | EmptyString => false
  | String d cutset' => if Ascii.eqb c d then true else inCutset c cutset'
  end.

(** [strings.TrimLeft s cutset]: drop the leading characters of [cutset]. *)
Fixpoint TrimLeft (s cutset : string) : string :=
  match s with
  | EmptyString => EmptyString
  | String c s' => if inCutset c cutset then TrimLeft s' cutset else s
  end.

(** [strings.TrimRight s cutset]: drop the trailing characters of [cutset]. *)
Fixpoint TrimRight (s cutset : string) : string :=
  match s with
  | EmptyString => EmptyString
  | String c s' =>
      match TrimRight s' cutset with
      | EmptyString => if inCutset c cutset then EmptyString else String c EmptyString
      | t => String c t
      end
  end.

(** [strings.Trim s cutset]. *)
Definition Trim (s cutset : string) : string :=
  TrimRight (TrimLeft s cutset) cutset.

End Strings.

(** [s == ""] *)
Definition isEmpty (s : string) : bool :=
  match s with EmptyString => true | _ => false end.

(** ** Path and priority translation *)

(** [networkingv1.PathType] is a string type; the three declared values. *)
Definition PathType := string.
Definition PathTypeExact : PathType := "Exact".
Definition PathTypePrefix : PathType := "Prefix".
Definition PathTypeImplementationSpecific : PathType := "ImplementationSpecific".

(** [pathsFromK8s]: [None] is the error return for an unknown path type. *)
Definition pathsFromK8s (path : string) (pathType : PathType) : option (list string) :=
  if String.eqb pathType PathTypePrefix then
    let base := Strings.Trim path "/" in
    if isEmpty base then Some ["/"]
    else Some ["/" +:+ base +:+ "$"; "/" +:+ base +:+ "/"]
  else if String.eqb pathType PathTypeExact then
    let relative := Strings.TrimLeft path "/" in
    Some ["/" +:+ relative +:+ "$"]
  else if String.eqb pathType PathTypeImplementationSpecific then
    if isEmpty path then Some ["/"] else Some [path]
  else None.

(** [priorityForPath[pathType]]: a missing key reads as the zero value. *)
Definition priorityForPath (pathType : PathType) : Z :=
  if String.eqb pathType PathTypeExact then 300
  else if String.eqb pathType PathTypePrefix then 200
  else if String.eqb pathType PathTypeImplementationSpecific then 100
  else 0.

(** ** Object metadata, ports and time *)

Module metav1.
(** [metav1.ObjectMeta]; a creation timestamp is an instant on the time line. *)
Record ObjectMeta := {
  Namespace : string;
  Name : string;
  CreationTimestamp : Z;
}.
(** The [Before] method of [metav1.Time]. *)
Definition Before (t u : Z) : bool := (t <? u)%Z.
End metav1.

(** The [metav1.Object] interface: every resource kind exposes its metadata. *)
Class Object (A : Type) := GetObjectMeta : A → metav1.ObjectMeta.

Definition Namespace `{Object A} (obj : A) : string :=
  metav1.Namespace (GetObjectMeta obj).
Definition Name `{Object A} (obj : A) : string :=
  metav1.Name (GetObjectMeta obj).
Definition CreationTimestamp `{Object A} (obj : A) : Z :=
  metav1.CreationTimestamp (GetObjectMeta obj).

Module intstr.
(** [intstr.IntOrString]: the [Type] tag selects the member that is read. *)
Inductive IntOrString :=
| FromInt (IntVal : Z)
| FromString (StrVal : string).
(** The [String] method of [IntOrString]. *)
Definition ToString (ios : IntOrString) : string :=
  match ios with
  | FromString s => s
  | FromInt n => pretty n
  end.
End intstr.

(** ** The intermediate representation: Kong routes and services *)

Module kong.
Record CIDRPort := { IP : option string; Port : option Z }.

Module Route.
Record t := {
  Name : option string;
  Paths : list string;
  Hosts : list string;
  SNIs : list string;
  Protocols : list string;
  StripPath : option bool;
  PreserveHost : option bool;
  RegexPriority : option Z;
  RequestBuffering : option bool;
  ResponseBuffering : option bool;
  Destinations : list CIDRPort;
}.
End Route.

Module Service.
Record t := {
  Name : option string;
  Host : option string;
  Port : option Z;
  Protocol : option string;
  Path : option string;
  ConnectTimeout : option Z;
  ReadTimeout : option Z;
  WriteTimeout : option Z;
  Retries : option Z;
}.
End Service.

(** [kong.Configuration] is a JSON-like object; the only configuration built
    here has the shape [{"add": {"headers": [...]}}]. *)
Module Plugin.
Record t := {
  Name : option string;
  Config : list (string * list (string * list string));
}.
End Plugin.
End kong.

Module util.
(** Modelled from the spec: [util.K8sObjectInfo] is missing from the sources;
    it is the provenance back-reference of a route, the namespace and the
    name of the originating resource (the kind is fixed per normalizer). *)
Record K8sObjectInfo := { Name : string; Namespace : string }.
End util.

Module kongstate.
Inductive PortMode := PortModeImplicit | PortModeByNumber | PortModeByName.

(** A Go composite literal leaves the members it does not name at their zero
    value. *)
Record PortDef := { Mode : PortMode; Number : Z; PortName : string }.

Record ServiceBackend := { BackendName : string; BackendPort : PortDef }.

Module Route.
Record t := {
  Ingress : util.K8sObjectInfo;
  Route : kong.Route.t;
}.
End Route.

Module Service.
Record t := {
  Service : kong.Service.t;
  Namespace : string;
  Backend : ServiceBackend;
  Routes : list Route.t;
  Plugins : list kong.Plugin.t;
}.
End Service.
End kongstate.

(** [service.Routes = append(service.Routes, r)] *)
Definition appendToRoutes (service : kongstate.Service.t) (r : kongstate.Route.t)
  : kongstate.Service.t :=
  {| kongstate.Service.Service := service.(kongstate.Service.Service);
     kongstate.Service.Namespace := service.(kongstate.Service.Namespace);
     kongstate.Service.Backend := service.(kongstate.Service.Backend);
     kongstate.Service.Routes := service.(kongstate.Service.Routes) ++ [r];
     kongstate.Service.Plugins := service.(kongstate.Service.Plugins) |}.

(** [r.Hosts = hosts] *)
Definition setHosts (r : kongstate.Route.t) (hosts : list string) : kongstate.Route.t :=
  let kr := r.(kongstate.Route.Route) in
  {| kongstate.Route.Ingress := r.(kongstate.Route.Ingress);
     kongstate.Route.Route :=
       {| kong.Route.Name := kr.(kong.Route.Name);
          kong.Route.Paths := kr.(kong.Route.Paths);
          kong.Route.Hosts := hosts;
          kong.Route.SNIs := kr.(kong.Route.SNIs);
          kong.Route.Protocols := kr.(kong.Route.Protocols);
          kong.Route.StripPath := kr.(kong.Route.StripPath);
          kong.Route.PreserveHost := kr.(kong.Route.PreserveHost);
          kong.Route.RegexPriority := kr.(kong.Route.RegexPriority);
          kong.Route.RequestBuffering := kr.(kong.Route.RequestBuffering);
          kong.Route.ResponseBuffering := kr.(kong.Route.ResponseBuffering);
          kong.Route.Destinations := kr.(kong.Route.Destinations) |} |}.

(** [r.SNIs = snis] *)
Definition setSNIs (r : kongstate.Route.t) (snis : list string) : kongstate.Route.t :=
  let kr := r.(kongstate.Route.Route) in
  {| kongstate.Route.Ingress := r.(kongstate.Route.Ingress);
     kongstate.Route.Route :=
       {| kong.Route.Name := kr.(kong.Route.Name);
          kong.Route.Paths := kr.(kong.Route.Paths);
          kong.Route.Hosts := kr.(kong.Route.Hosts);
          kong.Route.SNIs := snis;
          kong.Route.Protocols := kr.(kong.Route.Protocols);
          kong.Route.StripPath := kr.(kong.Route.StripPath);
          kong.Route.PreserveHost := kr.(kong.Route.PreserveHost);
          kong.Route.RegexPriority := kr.(kong.Route.RegexPriority);
          kong.Route.RequestBuffering := kr.(kong.Route.RequestBuffering);
          kong.Route.ResponseBuffering := kr.(kong.Route.ResponseBuffering);
          kong.Route.Destinations := kr.(kong.Route.Destinations) |} |}.

(** [PortDefFromServiceBackendPort] is given with the v1 types below. *)

(** The conversion [int32(n)] of a Go [int]: the low 32 bits, signed. *)
Definition int32 (n : Z) : Z := (n + 2147483648) mod 4294967296 - 2147483648.

(** [PortDefFromIntStr] *)
Definition PortDefFromIntStr (ios : intstr.IntOrString) : kongstate.PortDef :=
  match ios with
  | intstr.FromString s =>
      {| kongstate.Mode := kongstate.PortModeByName; kongstate.Number := 0;
         kongstate.PortName := s |}
  | intstr.FromInt n =>
      {| kongstate.Mode := kongstate.PortModeByNumber; kongstate.Number := n;
         kongstate.PortName := "" |}
  end.

(** ** The resource kinds read by the normalizers *)

Module networkingv1beta1.
Module IngressTLS.
Record t := { Hosts : list string; SecretName : string }.
End IngressTLS.

Module IngressBackend.
Record t := { ServiceName : string; ServicePort : intstr.IntOrString }.
End IngressBackend.

Module HTTPIngressPath.
Record t := {
  Path : string;
  PathType : option PathType;
  Backend : IngressBackend.t;
}.
End HTTPIngressPath.

(** [HTTP] is the nil-able [*HTTPIngressRuleValue]; its only member is
    [Paths]. *)
Module IngressRule.
Record t := { Host : string; HTTP : option (list HTTPIngressPath.t) }.
End IngressRule.

Module IngressSpec.
Record t := {
  Backend : option IngressBackend.t;
  TLS : list IngressTLS.t;
  Rules : list IngressRule.t;
}.
End IngressSpec.

Module Ingress.
Record t := { ObjectMeta : metav1.ObjectMeta; Spec : IngressSpec.t }.
End Ingress.
End networkingv1beta1.

Module networkingv1.
Module IngressTLS.
Record t := { Hosts : list string; SecretName : string }.
End IngressTLS.

Module ServiceBackendPort.
Record t := { Name : string; Number : Z }.
End ServiceBackendPort.

Module IngressServiceBackend.
Record t := { Name : string; Port : ServiceBackendPort.t }.
End IngressServiceBackend.

(** [Service] is a pointer: it is nil in a backend that names a resource
    instead of a service. The normalizers read no other field. *)
Module IngressBackend.
Record t := { Service : option IngressServiceBackend.t }.
End IngressBackend.

Module HTTPIngressPath.
Record t := {
  Path : string;
  PathType : option PathType;
  Backend : IngressBackend.t;
}.
End HTTPIngressPath.

Module IngressRule.
Record t := { Host : string; HTTP : option (list HTTPIngressPath.t) }.
End IngressRule.

Module IngressSpec.
Record t := {
  DefaultBackend : option IngressBackend.t;
  TLS : list IngressTLS.t;
  Rules : list IngressRule.t;
}.
End IngressSpec.

Module Ingress.
Record t := { ObjectMeta : metav1.ObjectMeta; Spec : IngressSpec.t }.
End Ingress.
End networkingv1.

Module configurationv1beta1.
Module IngressTLS.
Record t := { Hosts : list string; SecretName : string }.
End IngressTLS.

Module IngressBackend.
Record t := { ServiceName : string; ServicePort : Z }.
End IngressBackend.

Module IngressRule.
Record t := { Host : string; Port : Z; Backend : IngressBackend.t }.
End IngressRule.

Module TCPIngressSpec.
Record t := { Rules : list IngressRule.t; TLS : list IngressTLS.t }.
End TCPIngressSpec.

Module TCPIngress.
Record t := { ObjectMeta : metav1.ObjectMeta; Spec : TCPIngressSpec.t }.
End TCPIngress.

Module UDPIngressRule.
Record t := { Port : Z; Backend : IngressBackend.t }.
End UDPIngressRule.

Module UDPIngressSpec.
Record t := { Rules : list UDPIngressRule.t }.
End UDPIngressSpec.

Module UDPIngress.
Record t := { ObjectMeta : metav1.ObjectMeta; Spec : UDPIngressSpec.t }.
End UDPIngress.
End configurationv1beta1.

Module knative.
Module IngressTLS.
Record t := {
  Hosts : list string;
  SecretName : string;
  SecretNamespace : string;
}.
End IngressTLS.

(** [IngressBackendSplit] embeds [IngressBackend]; its members are promoted. *)
Module IngressBackendSplit.
Record t := {
  ServiceNamespace : string;
  ServiceName : string;
  ServicePort : intstr.IntOrString;
  Percent : Z;
  AppendHeaders : gmap string string;
}.
End IngressBackendSplit.

Module HTTPIngressPath.
Record t := {
  Path : string;
  Splits : list IngressBackendSplit.t;
  AppendHeaders : gmap string string;
}.
End HTTPIngressPath.

Module IngressRule.
Record t := { Hosts : list string; HTTP : option (list HTTPIngressPath.t) }.
End IngressRule.

Module IngressSpec.
Record t := { TLS : list IngressTLS.t; Rules : list IngressRule.t }.
End IngressSpec.

Module Ingress.
Record t := { ObjectMeta : metav1.ObjectMeta; Spec : IngressSpec.t }.
End Ingress.
End knative.

#[export] Instance networkingv1beta1_Object : Object networkingv1beta1.Ingress.t :=
  networkingv1beta1.Ingress.ObjectMeta.
#[export] Instance networkingv1_Object : Object networkingv1.Ingress.t :=
  networkingv1.Ingress.ObjectMeta.
#[export] Instance TCPIngress_Object : Object configurationv1beta1.TCPIngress.t :=
  configurationv1beta1.TCPIngress.ObjectMeta.
#[export] Instance UDPIngress_Object : Object configurationv1beta1.UDPIngress.t :=
  configurationv1beta1.UDPIngress.ObjectMeta.
#[export] Instance knative_Object : Object knative.Ingress.t :=
  knative.Ingress.ObjectMeta.

(** [serviceBackendPortToStr] *)
Definition serviceBackendPortToStr (port : networkingv1.ServiceBackendPort.t) : string :=
  if isEmpty port.(networkingv1.ServiceBackendPort.Name)
  then "pnum-" +:+ pretty port.(networkingv1.ServiceBackendPort.Number)
  else "pname-" +:+ port.(networkingv1.ServiceBackendPort.Name).

(** [PortDefFromServiceBackendPort] *)
Definition PortDefFromServiceBackendPort (sbp : networkingv1.ServiceBackendPort.t)
  : kongstate.PortDef :=
  if negb (isEmpty sbp.(networkingv1.ServiceBackendPort.Name)) then
    {| kongstate.Mode := kongstate.PortModeByName; kongstate.Number := 0;
       kongstate.PortName := sbp.(networkingv1.ServiceBackendPort.Name) |}
  else if negb (sbp.(networkingv1.ServiceBackendPort.Number) =? 0)%Z then
    {| kongstate.Mode := kongstate.PortModeByNumber;
       kongstate.Number := sbp.(networkingv1.ServiceBackendPort.Number);
       kongstate.PortName := "" |}
  else
    {| kongstate.Mode := kongstate.PortModeImplicit; kongstate.Number := 0;
       kongstate.PortName := "" |}.

(** ** The traffic-split selector *)

(** The loop [for i := 1; i < len(splits); i++] of [knativeSelectSplit],
    carrying [res]; [maxPercentage] is always [res.Percent]. *)
Fixpoint knativeSelectSplit_scan (res : knative.IngressBackendSplit.t)
    (rest : list knative.IngressBackendSplit.t) : knative.IngressBackendSplit.t :=
  match rest with
  | [] => res
  | s :: rest' =>
      if (s.(knative.IngressBackendSplit.Percent) >?
            res.(knative.IngressBackendSplit.Percent))%Z
      then knativeSelectSplit_scan s rest'
      else knativeSelectSplit_scan res rest'
  end.

(** The zero value [knative.IngressBackendSplit{}]. *)
Definition emptySplit : knative.IngressBackendSplit.t :=
  {| knative.IngressBackendSplit.ServiceNamespace := "";
     knative.IngressBackendSplit.ServiceName := "";
     knative.IngressBackendSplit.ServicePort := intstr.FromInt 0;
     knative.IngressBackendSplit.Percent := 0;
     knative.IngressBackendSplit.AppendHeaders := ∅ |}.

(** [knativeSelectSplit] *)
Definition knativeSelectSplit (splits : list knative.IngressBackendSplit.t)
  : knative.IngressBackendSplit.t :=
  match splits with
  | [] => emptySplit
  | res :: rest => knativeSelectSplit_scan res rest
  end.

(** ** Sorting, shared helpers and the code outside the sources *)

(** One insertion step of a stable sort: [x], which comes after every
    element of [sorted] in the input, is placed behind the elements that are
    not greater than it. *)
Fixpoint insertSorted {A} (less : A → A → bool) (x : A) (sorted : list A) : list A :=
  match sorted with
  | [] => [x]
  | y :: sorted' =>
      if less x y then x :: y :: sorted' else y :: insertSorted less x sorted'
  end.

(** [sort.SliceStable]: whatever the algorithm, a stable sort by a strict
    weak order has one result, the one computed by insertion from the left. *)
Definition SliceStable {A} (less : A → A → bool) (x : list A) : list A :=
  foldl (λ sorted a, insertSorted less a sorted) [] x.

(** The [less] function of every [sort.SliceStable] call of the file. *)
Definition createdBefore `{Object A} (a b : A) : bool :=
  metav1.Before (CreationTimestamp a) (CreationTimestamp b).

(** [for i, x := range l] *)
Definition enumerate {A} (l : list A) : list (nat * A) := imap pair l.


(** Modelled from the spec: [util.FromK8sObject] is missing from the
    sources; it builds the back-reference from the metadata of a resource. *)
Definition FromK8sObject `{Object A} (obj : A) : util.K8sObjectInfo :=
  {| util.Name := Name obj; util.Namespace := Namespace obj |}.

(** What [translate.go] uses from the rest of the repository: constants,
    the port validity test, the canonical port string, and the collector of
    TLS secret bindings. The development holds for every choice of them. *)
Class Externals := {
  DefaultHTTPPort : Z;
  DefaultServiceTimeout : Z;
  DefaultRetries : Z;
  IngressV1RoutePrefix : string;
  IngressV1Beta1RoutePrefix : string;
  TCPIngressV1Beta1RoutePrefix : string;
  UDPIngressV1Beta1RoutePrefix : string;
  KnativeIngressV1Alpha1RoutePrefix : string;
  IsValidPort : Z → bool;
  CanonicalString : kongstate.PortDef → string;
  SecretNameToSNIs : Type;
  newSecretNameToSNIs : SecretNameToSNIs;
  addFromIngressV1beta1TLS :
    list networkingv1beta1.IngressTLS.t → string → SecretNameToSNIs → SecretNameToSNIs;
  addFromIngressV1TLS :
    list networkingv1.IngressTLS.t → string → SecretNameToSNIs → SecretNameToSNIs;
  tcpIngressToNetworkingTLS :
    list configurationv1beta1.IngressTLS.t → list networkingv1beta1.IngressTLS.t;
  knativeIngressToNetworkingTLS :
    list knative.IngressTLS.t → list networkingv1beta1.IngressTLS.t;
}.

(** [getUniqIDForRouteConfig] takes any rule value; [None] is its error
    return. *)
Class RouteConfig (A : Type) := getUniqIDForRouteConfig : A → option string.

(** [range] over a Go map visits the entries in an order that the language
    leaves unspecified and that differs from one execution of the loop to
    the next. A run of a normalizer is therefore taken under a [MapOrder]:
    the order met by each execution of a [range] loop, identified by the
    position (resource, rule, path) of the iteration it belongs to and by
    which of the two loops it is. *)
Definition LoopSite : Type := nat * nat * nat * bool.
Definition MapOrder : Type := LoopSite → gmap string string → list (string * string).

(** The orders that a run can really meet: each entry exactly once. *)
Definition validMapOrder (order : MapOrder) : Prop :=
  ∀ site m, order site m ≡ₚ map_to_list m.

(** The result type [ingressRules]. *)
Record ingressRules `{Externals} := {
  ServiceNameToServices : gmap string kongstate.Service.t;
  SecretNameToSNIs_ : SecretNameToSNIs;
}.

Definition newIngressRules `{Externals} : ingressRules :=
  {| ServiceNameToServices := ∅; SecretNameToSNIs_ := newSecretNameToSNIs |}.

(** What one loop iteration adds: a route, the name of the service it is
    bound to and the service to create when that name is still free. *)
Definition Emission : Type := string * kongstate.Service.t * kongstate.Route.t.

(** The tail of every loop body:
[[
    service, ok := services[serviceName]
    if !ok { service = kongstate.Service{...} }
    service.Routes = append(service.Routes, r)
    services[serviceName] = service
]] *)
Definition appendRoute (serviceName : string) (fresh : kongstate.Service.t)
    (r : kongstate.Route.t) (services : gmap string kongstate.Service.t)
  : gmap string kongstate.Service.t :=
  let service := default fresh (services !! serviceName) in
  <[serviceName := appendToRoutes service r]> services.

(** The state of a rule loop: the services and [usedRouteNames]. An
    iteration either reaches the tail above or leaves by [continue]. *)
Definition commit (services : gmap string kongstate.Service.t)
    (res : option Emission * gset string)
  : gmap string kongstate.Service.t * gset string :=
  match res with
  | (Some (serviceName, fresh, r), usedRouteNames) =>
      (appendRoute serviceName fresh r services, usedRouteNames)
  | (None, usedRouteNames) => (services, usedRouteNames)
  end.

(** The naming block of every loop body: the sequential name, or with
    [hashedRouteNames] the prefixed unique id, suffixed when it is already in
    [usedRouteNames]. [None] is the [continue] after an error of
    [getUniqIDForRouteConfig]. *)
Definition routeNameFor (hashedRouteNames : bool) (sequential routePrefix : string)
    (uniqID : option string) (suffix : string) (usedRouteNames : gset string)
  : option (string * gset string) :=
  if hashedRouteNames then
    match uniqID with
    | None => None
    | Some id =>
        let routeName := routePrefix +:+ id in
        let routeName :=
          if decide (routeName ∈ usedRouteNames) then routeName +:+ suffix
          else routeName in
        Some (routeName, {[routeName]} ∪ usedRouteNames)
    end
  else Some (sequential, usedRouteNames).

(** ** The normalizers *)

Section Normalizers.
Context `{Externals}.
Context `{!RouteConfig networkingv1beta1.IngressRule.t}.
Context `{!RouteConfig networkingv1.IngressRule.t}.
Context `{!RouteConfig configurationv1beta1.IngressRule.t}.
Context `{!RouteConfig configurationv1beta1.UDPIngressRule.t}.
Context `{!RouteConfig knative.IngressRule.t}.

(** *** Legacy HTTP ingress: [fromIngressV1beta1] *)

(** [uniqueRule := rule.DeepCopy(); uniqueRule.HTTP.Paths = {rulePath}] *)
Definition uniqueRuleV1beta1 (rule : networkingv1beta1.IngressRule.t)
    (rulePath : networkingv1beta1.HTTPIngressPath.t) : networkingv1beta1.IngressRule.t :=
  {| networkingv1beta1.IngressRule.Host := rule.(networkingv1beta1.IngressRule.Host);
     networkingv1beta1.IngressRule.HTTP := Some [rulePath] |}.

(** The body of [for j, rulePath := range rule.HTTP.Paths]. *)
Definition pathV1beta1 (hashedRouteNames : bool) (ingress : networkingv1beta1.Ingress.t)
    (routePrefix : string) (i : nat) (rule : networkingv1beta1.IngressRule.t)
    (j : nat) (rulePath : networkingv1beta1.HTTPIngressPath.t)
    (usedRouteNames : gset string) : option Emission * gset string :=
  let host := rule.(networkingv1beta1.IngressRule.Host) in
  let path := rulePath.(networkingv1beta1.HTTPIngressPath.Path) in
  if Strings.Contains path "//" then (None, usedRouteNames) else
  let path := if isEmpty path then "/" else path in
  match routeNameFor hashedRouteNames
          (Namespace ingress +:+ "." +:+ Name ingress +:+ "." +:+ pretty i +:+ pretty j)
          routePrefix (getUniqIDForRouteConfig (uniqueRuleV1beta1 rule rulePath))
          ("-" +:+ pretty i +:+ "-" +:+ pretty j) usedRouteNames with
  | None => (None, usedRouteNames)
  | Some (routeName, usedRouteNames) =>
      let r :=
        {| kongstate.Route.Ingress := FromK8sObject ingress;
           kongstate.Route.Route :=
             {| kong.Route.Name := Some routeName;
                kong.Route.Paths := [path];
                kong.Route.Hosts := [];
                kong.Route.SNIs := [];
                kong.Route.Protocols := ["http"; "https"];
                kong.Route.StripPath := Some false;
                kong.Route.PreserveHost := Some true;
                kong.Route.RegexPriority := Some 0;
                kong.Route.RequestBuffering := Some true;
                kong.Route.ResponseBuffering := Some true;
                kong.Route.Destinations := [] |} |} in
      let r := if isEmpty host then r else setHosts r [host] in
      let backend := rulePath.(networkingv1beta1.HTTPIngressPath.Backend) in
      let serviceName :=
        Namespace ingress +:+ "." +:+
        backend.(networkingv1beta1.IngressBackend.ServiceName) +:+ "." +:+
        intstr.ToString backend.(networkingv1beta1.IngressBackend.ServicePort) in
      let service :=
        {| kongstate.Service.Service :=
             {| kong.Service.Name := Some serviceName;
                kong.Service.Host :=
                  Some (backend.(networkingv1beta1.IngressBackend.ServiceName) +:+
                        "." +:+ Namespace ingress +:+ "." +:+
                        intstr.ToString backend.(networkingv1beta1.IngressBackend.ServicePort)
                        +:+ ".svc");
                kong.Service.Port := Some DefaultHTTPPort;
                kong.Service.Protocol := Some "http";
                kong.Service.Path := Some "/";
                kong.Service.ConnectTimeout := Some DefaultServiceTimeout;
                kong.Service.ReadTimeout := Some DefaultServiceTimeout;
                kong.Service.WriteTimeout := Some DefaultServiceTimeout;
                kong.Service.Retries := Some DefaultRetries |};
           kongstate.Service.Namespace := Namespace ingress;
           kongstate.Service.Backend :=
             {| kongstate.BackendName :=
                  backend.(networkingv1beta1.IngressBackend.ServiceName);
                kongstate.BackendPort :=
                  PortDefFromIntStr backend.(networkingv1beta1.IngressBackend.ServicePort) |};
           kongstate.Service.Routes := [];
           kongstate.Service.Plugins := [] |} in
      (Some (serviceName, service, r), usedRouteNames)
  end.

(** The body of [for i, rule := range ingressSpec.Rules]. *)
Definition ruleV1beta1 (hashedRouteNames : bool) (ingress : networkingv1beta1.Ingress.t)
    (routePrefix : string)
    (st : gmap string kongstate.Service.t * gset string)
    (i : nat) (rule : networkingv1beta1.IngressRule.t)
  : gmap string kongstate.Service.t * gset string :=
  match rule.(networkingv1beta1.IngressRule.HTTP) with
  | None => st
  | Some paths =>
      foldl (λ st '(j, rulePath),
               commit st.1
                 (pathV1beta1 hashedRouteNames ingress routePrefix i rule j rulePath st.2))
            st (enumerate paths)
  end.

(** The body of [for _, ingress := range ingressList]; the state is [result]
    and [allDefaultBackends]. *)
Definition ingressV1beta1 (hashedRouteNames : bool)
    (st : ingressRules * list networkingv1beta1.Ingress.t)
    (ingress : networkingv1beta1.Ingress.t)
  : ingressRules * list networkingv1beta1.Ingress.t :=
  let '(result, allDefaultBackends) := st in
  let ingressSpec := ingress.(networkingv1beta1.Ingress.Spec) in
  let allDefaultBackends :=
    match ingressSpec.(networkingv1beta1.IngressSpec.Backend) with
    | Some _ => allDefaultBackends ++ [ingress]
    | None => allDefaultBackends
    end in
  let snis :=
    addFromIngressV1beta1TLS ingressSpec.(networkingv1beta1.IngressSpec.TLS)
      (Namespace ingress) result.(SecretNameToSNIs_) in
  let routePrefix :=
    IngressV1Beta1RoutePrefix +:+ "." +:+ Namespace ingress +:+ "." +:+
    Name ingress +:+ "." in
  let usedRouteNames : gset string := ∅ in
  let services :=
    (foldl (λ st '(i, rule), ruleV1beta1 hashedRouteNames ingress routePrefix st i rule)
           (result.(ServiceNameToServices), usedRouteNames)
           (enumerate ingressSpec.(networkingv1beta1.IngressSpec.Rules))).1 in
  ({| ServiceNameToServices := services; SecretNameToSNIs_ := snis |},
   allDefaultBackends).

(** The block [// Process the default backend], for [ingress] the first
    element of the sorted [allDefaultBackends]. *)
Definition defaultBackendV1beta1 (ingress : networkingv1beta1.Ingress.t)
    (defaultBackend : networkingv1beta1.IngressBackend.t) : Emission :=
  let serviceName :=
    Namespace ingress +:+ "." +:+
    defaultBackend.(networkingv1beta1.IngressBackend.ServiceName) +:+ "." +:+
    intstr.ToString defaultBackend.(networkingv1beta1.IngressBackend.ServicePort) in
  let service :=
    {| kongstate.Service.Service :=
         {| kong.Service.Name := Some serviceName;
            kong.Service.Host :=
              Some (defaultBackend.(networkingv1beta1.IngressBackend.ServiceName) +:+
                    "." +:+ Namespace ingress +:+ "." +:+
                    intstr.ToString
                      defaultBackend.(networkingv1beta1.IngressBackend.ServicePort)
                    +:+ ".svc");
            kong.Service.Port := Some DefaultHTTPPort;
            kong.Service.Protocol := Some "http";
            kong.Service.Path := None;
            kong.Service.ConnectTimeout := Some DefaultServiceTimeout;
            kong.Service.ReadTimeout := Some DefaultServiceTimeout;
            kong.Service.WriteTimeout := Some DefaultServiceTimeout;
            kong.Service.Retries := Some DefaultRetries |};
       kongstate.Service.Namespace := Namespace ingress;
       kongstate.Service.Backend :=
         {| kongstate.BackendName :=
              defaultBackend.(networkingv1beta1.IngressBackend.ServiceName);
            kongstate.BackendPort :=
              PortDefFromIntStr
                defaultBackend.(networkingv1beta1.IngressBackend.ServicePort) |};
       kongstate.Service.Routes := [];
       kongstate.Service.Plugins := [] |} in
  let r :=
    {| kongstate.Route.Ingress := FromK8sObject ingress;
       kongstate.Route.Route :=
         {| kong.Route.Name := Some (Namespace ingress +:+ "." +:+ Name ingress);
            kong.Route.Paths := ["/"];
            kong.Route.Hosts := [];
            kong.Route.SNIs := [];
            kong.Route.Protocols := ["http"; "https"];
            kong.Route.StripPath := Some false;
            kong.Route.PreserveHost := Some true;
            kong.Route.RegexPriority := Some 0;
            kong.Route.RequestBuffering := Some true;
            kong.Route.ResponseBuffering := Some true;
            kong.Route.Destinations := [] |} |} in
  (serviceName, service, r).

(** [fromIngressV1beta1]: the IR fragment, and [ingressList] as the call
    leaves it. The [None] branch of the last match is not reachable:
    [allDefaultBackends] only holds resources with a default backend. *)
Definition fromIngressV1beta1 (ingressList : list networkingv1beta1.Ingress.t)
    (hashedRouteNames : bool) : ingressRules * list networkingv1beta1.Ingress.t :=
  let ingressList := SliceStable createdBefore ingressList in
  let '(result, allDefaultBackends) :=
    foldl (ingressV1beta1 hashedRouteNames) (newIngressRules, []) ingressList in
  let allDefaultBackends := SliceStable createdBefore allDefaultBackends in
  let result :=
    match allDefaultBackends with
    | [] => result
    | ingress :: _ =>
        match ingress.(networkingv1beta1.Ingress.Spec).(networkingv1beta1.IngressSpec.Backend) with
        | None => result
        | Some defaultBackend =>
            let '(serviceName, service, r) := defaultBackendV1beta1 ingress defaultBackend in
            {| ServiceNameToServices :=
                 appendRoute serviceName service r result.(ServiceNameToServices);
               SecretNameToSNIs_ := result.(SecretNameToSNIs_) |}
        end
    end in
  (result, ingressList).

(** *** HTTP ingress: [fromIngressV1] *)

(** [uniqueRule := rule.DeepCopy(); uniqueRule.HTTP.Paths = {rulePath}] *)
Definition uniqueRuleV1 (rule : networkingv1.IngressRule.t)
    (rulePath : networkingv1.HTTPIngressPath.t) : networkingv1.IngressRule.t :=
  {| networkingv1.IngressRule.Host := rule.(networkingv1.IngressRule.Host);
     networkingv1.IngressRule.HTTP := Some [rulePath] |}.

(** The body of [for j, rulePath := range rule.HTTP.Paths]. The outer
    [None] is the panic of [rulePath.Backend.Service.Port] on a nil
    [Service]: the first read through that pointer, after the checks and the
    naming block. *)
Definition pathV1 (hashedRouteNames : bool) (ingress : networkingv1.Ingress.t)
    (routePrefix : string) (i : nat) (rule : networkingv1.IngressRule.t)
    (j : nat) (rulePath : networkingv1.HTTPIngressPath.t)
    (usedRouteNames : gset string) : option (option Emission * gset string) :=
  if Strings.Contains rulePath.(networkingv1.HTTPIngressPath.Path) "//"
  then Some (None, usedRouteNames) else
  let pathType :=
    match rulePath.(networkingv1.HTTPIngressPath.PathType) with
    | Some pathType => pathType
    | None => PathTypeImplementationSpecific
    end in
  match pathsFromK8s rulePath.(networkingv1.HTTPIngressPath.Path) pathType with
  | None => Some (None, usedRouteNames)
  | Some paths =>
  match routeNameFor hashedRouteNames
          (Namespace ingress +:+ "." +:+ Name ingress +:+ "." +:+ pretty i +:+ pretty j)
          routePrefix (getUniqIDForRouteConfig (uniqueRuleV1 rule rulePath))
          ("-" +:+ pretty i +:+ "-" +:+ pretty j) usedRouteNames with
  | None => Some (None, usedRouteNames)
  | Some (routeName, usedRouteNames) =>
      let r :=
        {| kongstate.Route.Ingress := FromK8sObject ingress;
           kongstate.Route.Route :=
             {| kong.Route.Name := Some routeName;
                kong.Route.Paths := paths;
                kong.Route.Hosts := [];
                kong.Route.SNIs := [];
                kong.Route.Protocols := ["http"; "https"];
                kong.Route.StripPath := Some false;
                kong.Route.PreserveHost := Some true;
                kong.Route.RegexPriority := Some (priorityForPath pathType);
                kong.Route.RequestBuffering := Some true;
                kong.Route.ResponseBuffering := Some true;
                kong.Route.Destinations := [] |} |} in
      let r :=
        if isEmpty rule.(networkingv1.IngressRule.Host) then r
        else setHosts r [rule.(networkingv1.IngressRule.Host)] in
      match rulePath.(networkingv1.HTTPIngressPath.Backend).(networkingv1.IngressBackend.Service) with
      | None => None
      | Some backend =>
      let port :=
        PortDefFromServiceBackendPort backend.(networkingv1.IngressServiceBackend.Port) in
      let serviceName :=
        Namespace ingress +:+ "." +:+
        backend.(networkingv1.IngressServiceBackend.Name) +:+ "." +:+
        serviceBackendPortToStr backend.(networkingv1.IngressServiceBackend.Port) in
      let service :=
        {| kongstate.Service.Service :=
             {| kong.Service.Name := Some serviceName;
                kong.Service.Host :=
                  Some (backend.(networkingv1.IngressServiceBackend.Name) +:+ "." +:+
                        Namespace ingress +:+ "." +:+ CanonicalString port +:+ ".svc");
                kong.Service.Port := Some DefaultHTTPPort;
                kong.Service.Protocol := Some "http";
                kong.Service.Path := Some "/";
                kong.Service.ConnectTimeout := Some DefaultServiceTimeout;
                kong.Service.ReadTimeout := Some DefaultServiceTimeout;
                kong.Service.WriteTimeout := Some DefaultServiceTimeout;
                kong.Service.Retries := Some DefaultRetries |};
           kongstate.Service.Namespace := Namespace ingress;
           kongstate.Service.Backend :=
             {| kongstate.BackendName := backend.(networkingv1.IngressServiceBackend.Name);
                kongstate.BackendPort := port |};
           kongstate.Service.Routes := [];
           kongstate.Service.Plugins := [] |} in
      Some (Some (serviceName, service, r), usedRouteNames)
      end
  end
  end.

(** The body of [for i, rule := range ingressSpec.Rules]; [None] when an
    iteration of the inner loop panics. *)
Definition ruleV1 (hashedRouteNames : bool) (ingress : networkingv1.Ingress.t)
    (routePrefix : string)
    (st : gmap string kongstate.Service.t * gset string)
    (i : nat) (rule : networkingv1.IngressRule.t)
  : option (gmap string kongstate.Service.t * gset string) :=
  match rule.(networkingv1.IngressRule.HTTP) with
  | None => Some st
  | Some paths =>
      foldl (λ st '(j, rulePath),
               st ← st;
               res ← pathV1 hashedRouteNames ingress routePrefix i rule j rulePath st.2;
               Some (commit st.1 res))
            (Some st) (enumerate paths)
  end.

(** The body of [for _, ingress := range ingressList]; [None] when a rule
    path panics. *)
Definition ingressV1 (hashedRouteNames : bool)
    (st : ingressRules * list networkingv1.Ingress.t)
    (ingress : networkingv1.Ingress.t)
  : option (ingressRules * list networkingv1.Ingress.t) :=
  let '(result, allDefaultBackends) := st in
  let ingressSpec := ingress.(networkingv1.Ingress.Spec) in
  let allDefaultBackends :=
    match ingressSpec.(networkingv1.IngressSpec.DefaultBackend) with
    | Some _ => allDefaultBackends ++ [ingress]
    | None => allDefaultBackends
    end in
  let snis :=
    addFromIngressV1TLS ingressSpec.(networkingv1.IngressSpec.TLS)
      (Namespace ingress) result.(SecretNameToSNIs_) in
  let routePrefix :=
    IngressV1RoutePrefix +:+ "." +:+ Namespace ingress +:+ "." +:+
    Name ingress +:+ "." in
  let usedRouteNames : gset string := ∅ in
  st ← foldl (λ st '(i, rule),
                st ← st; ruleV1 hashedRouteNames ingress routePrefix st i rule)
             (Some (result.(ServiceNameToServices), usedRouteNames))
             (enumerate ingressSpec.(networkingv1.IngressSpec.Rules));
  Some ({| ServiceNameToServices := st.1; SecretNameToSNIs_ := snis |},
        allDefaultBackends).

(** The block [// Process the default backend]. [None] is the panic of
    [defaultBackend.Service.Port] on a nil [Service]. *)
Definition defaultBackendV1 (ingress : networkingv1.Ingress.t)
    (defaultBackend : networkingv1.IngressBackend.t) : option Emission :=
  match defaultBackend.(networkingv1.IngressBackend.Service) with
  | None => None
  | Some backend =>
  let port :=
    PortDefFromServiceBackendPort backend.(networkingv1.IngressServiceBackend.Port) in
  let serviceName :=
    Namespace ingress +:+ "." +:+
    backend.(networkingv1.IngressServiceBackend.Name) +:+ "." +:+
    CanonicalString port in
  let service :=
    {| kongstate.Service.Service :=
         {| kong.Service.Name := Some serviceName;
            kong.Service.Host :=
              Some (backend.(networkingv1.IngressServiceBackend.Name) +:+ "." +:+
                    Namespace ingress +:+ "." +:+
                    pretty backend.(networkingv1.IngressServiceBackend.Port).(networkingv1.ServiceBackendPort.Number)
                    +:+ ".svc");
            kong.Service.Port := Some DefaultHTTPPort;
            kong.Service.Protocol := Some "http";
            kong.Service.Path := None;
            kong.Service.ConnectTimeout := Some DefaultServiceTimeout;
            kong.Service.ReadTimeout := Some DefaultServiceTimeout;
            kong.Service.WriteTimeout := Some DefaultServiceTimeout;
            kong.Service.Retries := Some DefaultRetries |};
       kongstate.Service.Namespace := Namespace ingress;
       kongstate.Service.Backend :=
         {| kongstate.BackendName := backend.(networkingv1.IngressServiceBackend.Name);
            kongstate.BackendPort :=
              PortDefFromServiceBackendPort
                backend.(networkingv1.IngressServiceBackend.Port) |};
       kongstate.Service.Routes := [];
       kongstate.Service.Plugins := [] |} in
  let r :=
    {| kongstate.Route.Ingress := FromK8sObject ingress;
       kongstate.Route.Route :=
         {| kong.Route.Name := Some (Namespace ingress +:+ "." +:+ Name ingress);
            kong.Route.Paths := ["/"];
            kong.Route.Hosts := [];
            kong.Route.SNIs := [];
            kong.Route.Protocols := ["http"; "https"];
            kong.Route.StripPath := Some false;
            kong.Route.PreserveHost := Some true;
            kong.Route.RegexPriority := Some 0;
            kong.Route.RequestBuffering := Some true;
            kong.Route.ResponseBuffering := Some true;
            kong.Route.Destinations := [] |} |} in
  Some (serviceName, service, r)
  end.

(** [fromIngressV1]: the IR fragment, [None] when the call panics, and
    [ingressList] as the call leaves it: the slice is sorted before anything
    else is done. The [None] branch of the match on the default backend is
    not reachable. *)
Definition fromIngressV1 (ingressList : list networkingv1.Ingress.t)
    (hashedRouteNames : bool) : option ingressRules * list networkingv1.Ingress.t :=
  let ingressList := SliceStable createdBefore ingressList in
  let result :=
    '(result, allDefaultBackends) ←
      foldl (λ st ingress, st ← st; ingressV1 hashedRouteNames st ingress)
            (Some (newIngressRules, [])) ingressList;
    let allDefaultBackends := SliceStable createdBefore allDefaultBackends in
    match allDefaultBackends with
    | [] => Some result
    | ingress :: _ =>
        match ingress.(networkingv1.Ingress.Spec).(networkingv1.IngressSpec.DefaultBackend) with
        | None => Some result
        | Some defaultBackend =>
            '(serviceName, service, r) ← defaultBackendV1 ingress defaultBackend;
            Some {| ServiceNameToServices :=
                      appendRoute serviceName service r result.(ServiceNameToServices);
                    SecretNameToSNIs_ := result.(SecretNameToSNIs_) |}
        end
    end in
  (result, ingressList).

(** *** TCP ingress: [fromTCPIngressV1beta1] *)

(** The body of [for i, rule := range ingressSpec.Rules]. The two backend
    checks come after the naming block, so a rule they reject has already
    entered [usedRouteNames]. *)
Definition ruleTCP (hashedRouteNames : bool) (ingress : configurationv1beta1.TCPIngress.t)
    (routePrefix : string) (i : nat) (rule : configurationv1beta1.IngressRule.t)
    (usedRouteNames : gset string) : option Emission * gset string :=
  if negb (IsValidPort rule.(configurationv1beta1.IngressRule.Port))
  then (None, usedRouteNames) else
  match routeNameFor hashedRouteNames
          (Namespace ingress +:+ "." +:+ Name ingress +:+ "." +:+ pretty i)
          routePrefix (getUniqIDForRouteConfig rule)
          ("-" +:+ pretty i) usedRouteNames with
  | None => (None, usedRouteNames)
  | Some (routeName, usedRouteNames) =>
      let r :=
        {| kongstate.Route.Ingress := FromK8sObject ingress;
           kongstate.Route.Route :=
             {| kong.Route.Name := Some routeName;
                kong.Route.Paths := [];
                kong.Route.Hosts := [];
                kong.Route.SNIs := [];
                kong.Route.Protocols := ["tcp"; "tls"];
                kong.Route.StripPath := None;
                kong.Route.PreserveHost := None;
                kong.Route.RegexPriority := None;
                kong.Route.RequestBuffering := None;
                kong.Route.ResponseBuffering := None;
                kong.Route.Destinations :=
                  [{| kong.IP := None;
                      kong.Port := Some rule.(configurationv1beta1.IngressRule.Port) |}] |} |} in
      let host := rule.(configurationv1beta1.IngressRule.Host) in
      let r := if isEmpty host then r else setSNIs r [host] in
      let backend := rule.(configurationv1beta1.IngressRule.Backend) in
      if isEmpty backend.(configurationv1beta1.IngressBackend.ServiceName)
      then (None, usedRouteNames) else
      if negb (IsValidPort backend.(configurationv1beta1.IngressBackend.ServicePort))
      then (None, usedRouteNames) else
      let serviceName :=
        Namespace ingress +:+ "." +:+
        backend.(configurationv1beta1.IngressBackend.ServiceName) +:+ "." +:+
        pretty backend.(configurationv1beta1.IngressBackend.ServicePort) in
      let service :=
        {| kongstate.Service.Service :=
             {| kong.Service.Name := Some serviceName;
                kong.Service.Host :=
                  Some (backend.(configurationv1beta1.IngressBackend.ServiceName) +:+
                        "." +:+ Namespace ingress +:+ "." +:+
                        pretty backend.(configurationv1beta1.IngressBackend.ServicePort)
                        +:+ ".svc");
                kong.Service.Port := Some DefaultHTTPPort;
                kong.Service.Protocol := Some "tcp";
                kong.Service.Path := None;
                kong.Service.ConnectTimeout := Some DefaultServiceTimeout;
                kong.Service.ReadTimeout := Some DefaultServiceTimeout;
                kong.Service.WriteTimeout := Some DefaultServiceTimeout;
                kong.Service.Retries := Some DefaultRetries |};
           kongstate.Service.Namespace := Namespace ingress;
           kongstate.Service.Backend :=
             {| kongstate.BackendName :=
                  backend.(configurationv1beta1.IngressBackend.ServiceName);
                kongstate.BackendPort :=
                  {| kongstate.Mode := kongstate.PortModeByNumber;
                     kongstate.Number :=
                       int32 backend.(configurationv1beta1.IngressBackend.ServicePort);
                     kongstate.PortName := "" |} |};
           kongstate.Service.Routes := [];
           kongstate.Service.Plugins := [] |} in
      (Some (serviceName, service, r), usedRouteNames)
  end.

(** The body of [for _, ingress := range tcpIngressList]. *)
Definition ingressTCP (hashedRouteNames : bool) (result : ingressRules)
    (ingress : configurationv1beta1.TCPIngress.t) : ingressRules :=
  let ingressSpec := ingress.(configurationv1beta1.TCPIngress.Spec) in
  let snis :=
    addFromIngressV1beta1TLS
      (tcpIngressToNetworkingTLS ingressSpec.(configurationv1beta1.TCPIngressSpec.TLS))
      (Namespace ingress) result.(SecretNameToSNIs_) in
  let routePrefix :=
    TCPIngressV1Beta1RoutePrefix +:+ "." +:+ Namespace ingress +:+ "." +:+
    Name ingress +:+ "." in
  let usedRouteNames : gset string := ∅ in
  let services :=
    (foldl (λ st '(i, rule),
              commit st.1 (ruleTCP hashedRouteNames ingress routePrefix i rule st.2))
           (result.(ServiceNameToServices), usedRouteNames)
           (enumerate ingressSpec.(configurationv1beta1.TCPIngressSpec.Rules))).1 in
  {| ServiceNameToServices := services; SecretNameToSNIs_ := snis |}.

(** [fromTCPIngressV1beta1]: the IR fragment, and [tcpIngressList] as the
    call leaves it. *)
Definition fromTCPIngressV1beta1 (tcpIngressList : list configurationv1beta1.TCPIngress.t)
    (hashedRouteNames : bool) : ingressRules * list configurationv1beta1.TCPIngress.t :=
  let tcpIngressList := SliceStable createdBefore tcpIngressList in
  (foldl (ingressTCP hashedRouteNames) newIngressRules tcpIngressList, tcpIngressList).

(** *** UDP ingress: [fromUDPIngressV1beta1] *)

(** The body of [for i, rule := range ingressSpec.Rules]. *)
Definition ruleUDP (hashedRouteNames : bool) (ingress : configurationv1beta1.UDPIngress.t)
    (routePrefix : string) (i : nat) (rule : configurationv1beta1.UDPIngressRule.t)
    (usedRouteNames : gset string) : option Emission * gset string :=
  let backend := rule.(configurationv1beta1.UDPIngressRule.Backend) in
  if negb (IsValidPort rule.(configurationv1beta1.UDPIngressRule.Port))
  then (None, usedRouteNames) else
  if isEmpty backend.(configurationv1beta1.IngressBackend.ServiceName)
  then (None, usedRouteNames) else
  if negb (IsValidPort backend.(configurationv1beta1.IngressBackend.ServicePort))
  then (None, usedRouteNames) else
  match routeNameFor hashedRouteNames
          (Namespace ingress +:+ "." +:+ Name ingress +:+ "." +:+ pretty i +:+ ".udp")
          routePrefix (getUniqIDForRouteConfig rule)
          ("-" +:+ pretty i) usedRouteNames with
  | None => (None, usedRouteNames)
  | Some (routeName, usedRouteNames) =>
      let route :=
        {| kongstate.Route.Ingress := FromK8sObject ingress;
           kongstate.Route.Route :=
             {| kong.Route.Name := Some routeName;
                kong.Route.Paths := [];
                kong.Route.Hosts := [];
                kong.Route.SNIs := [];
                kong.Route.Protocols := ["udp"];
                kong.Route.StripPath := None;
                kong.Route.PreserveHost := None;
                kong.Route.RegexPriority := None;
                kong.Route.RequestBuffering := None;
                kong.Route.ResponseBuffering := None;
                kong.Route.Destinations :=
                  [{| kong.IP := None;
                      kong.Port := Some rule.(configurationv1beta1.UDPIngressRule.Port) |}] |} |} in
      let host :=
        backend.(configurationv1beta1.IngressBackend.ServiceName) +:+ "." +:+
        Namespace ingress +:+ "." +:+
        pretty backend.(configurationv1beta1.IngressBackend.ServicePort) +:+ ".svc" in
      let serviceName :=
        Namespace ingress +:+ "." +:+
        backend.(configurationv1beta1.IngressBackend.ServiceName) +:+ "." +:+
        pretty backend.(configurationv1beta1.IngressBackend.ServicePort) +:+ ".udp" in
      let service :=
        {| kongstate.Service.Service :=
             {| kong.Service.Name := Some serviceName;
                kong.Service.Host := Some host;
                kong.Service.Port :=
                  Some backend.(configurationv1beta1.IngressBackend.ServicePort);
                kong.Service.Protocol := Some "udp";
                kong.Service.Path := None;
                kong.Service.ConnectTimeout := None;
                kong.Service.ReadTimeout := None;
                kong.Service.WriteTimeout := None;
                kong.Service.Retries := None |};
           kongstate.Service.Namespace := Namespace ingress;
           kongstate.Service.Backend :=
             {| kongstate.BackendName :=
                  backend.(configurationv1beta1.IngressBackend.ServiceName);
                kongstate.BackendPort :=
                  {| kongstate.Mode := kongstate.PortModeByNumber;
                     kongstate.Number :=
                       int32 backend.(configurationv1beta1.IngressBackend.ServicePort);
                     kongstate.PortName := "" |} |};
           kongstate.Service.Routes := [];
           kongstate.Service.Plugins := [] |} in
      (Some (serviceName, service, route), usedRouteNames)
  end.

(** The body of [for _, ingress := range ingressList]. *)
Definition ingressUDP (hashedRouteNames : bool) (result : ingressRules)
    (ingress : configurationv1beta1.UDPIngress.t) : ingressRules :=
  let ingressSpec := ingress.(configurationv1beta1.UDPIngress.Spec) in
  let routePrefix :=
    UDPIngressV1Beta1RoutePrefix +:+ "." +:+ Namespace ingress +:+ "." +:+
    Name ingress +:+ "." in
  let usedRouteNames : gset string := ∅ in
  let services :=
    (foldl (λ st '(i, rule),
              commit st.1 (ruleUDP hashedRouteNames ingress routePrefix i rule st.2))
           (result.(ServiceNameToServices), usedRouteNames)
           (enumerate ingressSpec.(configurationv1beta1.UDPIngressSpec.Rules))).1 in
  {| ServiceNameToServices := services;
     SecretNameToSNIs_ := result.(SecretNameToSNIs_) |}.

(** [fromUDPIngressV1beta1]: the IR fragment, and [ingressList] as the call
    leaves it. *)
Definition fromUDPIngressV1beta1 (ingressList : list configurationv1beta1.UDPIngress.t)
    (hashedRouteNames : bool) : ingressRules * list configurationv1beta1.UDPIngress.t :=
  let ingressList := SliceStable createdBefore ingressList in
  (foldl (ingressUDP hashedRouteNames) newIngressRules ingressList, ingressList).

(** *** Weighted-split ingress: [fromKnativeIngress] *)

(** [uniqueRule := rule.DeepCopy(); uniqueRule.HTTP.Paths = {rulePath}] *)
Definition uniqueRuleKnative (rule : knative.IngressRule.t)
    (rulePath : knative.HTTPIngressPath.t) : knative.IngressRule.t :=
  {| knative.IngressRule.Hosts := rule.(knative.IngressRule.Hosts);
     knative.IngressRule.HTTP := Some [rulePath] |}.

(** [for key, value := range m { headers = append(headers, key+":"+value) }]
    under the order met by this execution of the loop. *)
Definition rangeHeaders (entries : list (string * string)) : list string :=
  (λ '(key, value), key +:+ ":" +:+ value) <$> entries.

(** The body of [for j, rulePath := range rule.HTTP.Paths]; [p] is the
    position of [ingress] in the sorted list and only names the loop site. *)
Definition pathKnative (order : MapOrder) (hashedRouteNames : bool)
    (p : nat) (ingress : knative.Ingress.t)
    (routePrefix : string) (i : nat) (rule : knative.IngressRule.t)
    (j : nat) (rulePath : knative.HTTPIngressPath.t)
    (usedRouteNames : gset string) : option Emission * gset string :=
  let hosts := rule.(knative.IngressRule.Hosts) in
  let path := rulePath.(knative.HTTPIngressPath.Path) in
  let path := if isEmpty path then "/" else path in
  match routeNameFor hashedRouteNames
          (Namespace ingress +:+ "." +:+ Name ingress +:+ "." +:+ pretty i +:+ pretty j)
          routePrefix (getUniqIDForRouteConfig (uniqueRuleKnative rule rulePath))
          ("-" +:+ pretty i +:+ "-" +:+ pretty j) usedRouteNames with
  | None => (None, usedRouteNames)
  | Some (routeName, usedRouteNames) =>
      let r :=
        {| kongstate.Route.Ingress := FromK8sObject ingress;
           kongstate.Route.Route :=
             {| kong.Route.Name := Some routeName;
                kong.Route.Paths := [path];
                kong.Route.Hosts := [];
                kong.Route.SNIs := [];
                kong.Route.Protocols := ["http"; "https"];
                kong.Route.StripPath := Some false;
                kong.Route.PreserveHost := Some true;
                kong.Route.RegexPriority := Some 0;
                kong.Route.RequestBuffering := Some true;
                kong.Route.ResponseBuffering := Some true;
                kong.Route.Destinations := [] |} |} in
      let r := setHosts r hosts in
      let knativeBackend := knativeSelectSplit rulePath.(knative.HTTPIngressPath.Splits) in
      let serviceName :=
        knativeBackend.(knative.IngressBackendSplit.ServiceNamespace) +:+ "." +:+
        knativeBackend.(knative.IngressBackendSplit.ServiceName) +:+ "." +:+
        intstr.ToString knativeBackend.(knative.IngressBackendSplit.ServicePort) in
      let serviceHost :=
        knativeBackend.(knative.IngressBackendSplit.ServiceName) +:+ "." +:+
        knativeBackend.(knative.IngressBackendSplit.ServiceNamespace) +:+ "." +:+
        intstr.ToString knativeBackend.(knative.IngressBackendSplit.ServicePort)
        +:+ ".svc" in
      let headers :=
        rangeHeaders (order (p, i, j, false)
                        knativeBackend.(knative.IngressBackendSplit.AppendHeaders)) ++
        rangeHeaders (order (p, i, j, true)
                        rulePath.(knative.HTTPIngressPath.AppendHeaders)) in
      let service :=
        {| kongstate.Service.Service :=
             {| kong.Service.Name := Some serviceName;
                kong.Service.Host := Some serviceHost;
                kong.Service.Port := Some DefaultHTTPPort;
                kong.Service.Protocol := Some "http";
                kong.Service.Path := Some "/";
                kong.Service.ConnectTimeout := Some DefaultServiceTimeout;
                kong.Service.ReadTimeout := Some DefaultServiceTimeout;
                kong.Service.WriteTimeout := Some DefaultServiceTimeout;
                kong.Service.Retries := Some DefaultRetries |};
           kongstate.Service.Namespace := Namespace ingress;
           kongstate.Service.Backend :=
             {| kongstate.BackendName :=
                  knativeBackend.(knative.IngressBackendSplit.ServiceName);
                kongstate.BackendPort :=
                  PortDefFromIntStr
                    knativeBackend.(knative.IngressBackendSplit.ServicePort) |};
           kongstate.Service.Routes := [];
           kongstate.Service.Plugins :=
             match headers with
             | [] => []
             | _ :: _ =>
                 [{| kong.Plugin.Name := Some "request-transformer";
                     kong.Plugin.Config := [("add", [("headers", headers)])] |}]
             end |} in
      (Some (serviceName, service, r), usedRouteNames)
  end.

(** The body of [for i, rule := range ingressSpec.Rules]. *)
Definition ruleKnative (order : MapOrder) (hashedRouteNames : bool)
    (p : nat) (ingress : knative.Ingress.t) (routePrefix : string)
    (st : gmap string kongstate.Service.t * gset string)
    (i : nat) (rule : knative.IngressRule.t)
  : gmap string kongstate.Service.t * gset string :=
  match rule.(knative.IngressRule.HTTP) with
  | None => st
  | Some paths =>
      foldl (λ st '(j, rulePath),
               commit st.1
                 (pathKnative order hashedRouteNames p ingress routePrefix
                    i rule j rulePath st.2))
            st (enumerate paths)
  end.

(** The body of [for _, ingress := range ingressList]; the state is
    [services] and [secretToSNIs]. *)
Definition ingressKnative (order : MapOrder) (hashedRouteNames : bool)
    (result : ingressRules) (p : nat) (ingress : knative.Ingress.t) : ingressRules :=
  let ingressSpec := ingress.(knative.Ingress.Spec) in
  let snis :=
    addFromIngressV1beta1TLS
      (knativeIngressToNetworkingTLS ingressSpec.(knative.IngressSpec.TLS))
      (Namespace ingress) result.(SecretNameToSNIs_) in
  let routePrefix :=
    KnativeIngressV1Alpha1RoutePrefix +:+ "." +:+ Namespace ingress +:+ "." +:+
    Name ingress +:+ "." in
  let usedRouteNames : gset string := ∅ in
  let services :=
    (foldl (λ st '(i, rule),
              ruleKnative order hashedRouteNames p ingress routePrefix st i rule)
           (result.(ServiceNameToServices), usedRouteNames)
           (enumerate ingressSpec.(knative.IngressSpec.Rules))).1 in
  {| ServiceNameToServices := services; SecretNameToSNIs_ := snis |}.

(** [fromKnativeIngress], run under the map orders [order]: the IR fragment,
    and [ingressList] as the call leaves it. *)
Definition fromKnativeIngress (order : MapOrder) (ingressList : list knative.Ingress.t)
    (hashedRouteNames : bool) : ingressRules * list knative.Ingress.t :=
  let ingressList := SliceStable createdBefore ingressList in
  (foldl (λ result '(p, ingress), ingressKnative order hashedRouteNames result p ingress)
         newIngressRules (enumerate ingressList),
   ingressList).

End Normalizers.

(** ** A concrete instance, to run the model on examples

    The values that the repository defines outside [translate.go] are fixed
    here to run the normalizers on concrete snapshots: the usual defaults,
    one route prefix per kind, the TCP/UDP port range, and a textual digest
    of the rule as its unique id. *)

Module Sample.

Definition canonicalString (p : kongstate.PortDef) : string :=
  match p.(kongstate.Mode) with
  | kongstate.PortModeByName => p.(kongstate.PortName)
  | kongstate.PortModeByNumber => pretty p.(kongstate.Number)
  | kongstate.PortModeImplicit => ""
  end.

(** Modelled from the spec: the TLS/SNI collector is missing from the
    sources; for every TLS declaration it adds each hostname to the set
    bound to the secret, here named by namespace and secret name. *)
Definition addTLS (namespace : string) (secretName : string) (hosts : list string)
    (m : gmap string (gset string)) : gmap string (gset string) :=
  let key := namespace +:+ "/" +:+ secretName in
  <[key := list_to_set hosts ∪ default ∅ (m !! key)]> m.

#[export] Instance externals : Externals := {|
  DefaultHTTPPort := 80;
  DefaultServiceTimeout := 60000;
  DefaultRetries := 5;
  IngressV1RoutePrefix := "ingress-v1";
  IngressV1Beta1RoutePrefix := "ingress-v1beta1";
  TCPIngressV1Beta1RoutePrefix := "tcpingress-v1beta1";
  UDPIngressV1Beta1RoutePrefix := "udpingress-v1beta1";
  KnativeIngressV1Alpha1RoutePrefix := "knativeingress-v1alpha1";
  IsValidPort := λ port, (0 <? port)%Z && (port <? 65536)%Z;
  CanonicalString := canonicalString;
  SecretNameToSNIs := gmap string (gset string);
  newSecretNameToSNIs := ∅;
  addFromIngressV1beta1TLS := λ tlsSections namespace m,
    foldl (λ m tls, addTLS namespace tls.(networkingv1beta1.IngressTLS.SecretName)
                      tls.(networkingv1beta1.IngressTLS.Hosts) m) m tlsSections;
  addFromIngressV1TLS := λ tlsSections namespace m,
    foldl (λ m tls, addTLS namespace tls.(networkingv1.IngressTLS.SecretName)
                      tls.(networkingv1.IngressTLS.Hosts) m) m tlsSections;
  tcpIngressToNetworkingTLS := fmap (λ tls,
    {| networkingv1beta1.IngressTLS.Hosts := tls.(configurationv1beta1.IngressTLS.Hosts);
       networkingv1beta1.IngressTLS.SecretName :=
         tls.(configurationv1beta1.IngressTLS.SecretName) |});
  knativeIngressToNetworkingTLS := fmap (λ tls,
    {| networkingv1beta1.IngressTLS.Hosts := tls.(knative.IngressTLS.Hosts);
       networkingv1beta1.IngressTLS.SecretName := tls.(knative.IngressTLS.SecretName) |});
|}.

Definition joinWith (sep : string) (parts : list string) : string :=
  foldr (λ part acc, part +:+ sep +:+ acc) "" parts.

Definition digestV1beta1 (rulePath : networkingv1beta1.HTTPIngressPath.t) : string :=
  let backend := rulePath.(networkingv1beta1.HTTPIngressPath.Backend) in
  rulePath.(networkingv1beta1.HTTPIngressPath.Path) +:+ ">" +:+
  backend.(networkingv1beta1.IngressBackend.ServiceName) +:+ ":" +:+
  intstr.ToString backend.(networkingv1beta1.IngressBackend.ServicePort).

#[export] Instance uniqID_v1beta1 : RouteConfig networkingv1beta1.IngressRule.t :=
  λ rule, Some (joinWith "|"
    (rule.(networkingv1beta1.IngressRule.Host) ::
     map digestV1beta1 (default [] rule.(networkingv1beta1.IngressRule.HTTP)))).

Definition digestV1 (rulePath : networkingv1.HTTPIngressPath.t) : string :=
  rulePath.(networkingv1.HTTPIngressPath.Path) +:+ ">" +:+
  match rulePath.(networkingv1.HTTPIngressPath.Backend).(networkingv1.IngressBackend.Service) with
  | Some backend =>
      backend.(networkingv1.IngressServiceBackend.Name) +:+ ":" +:+
      serviceBackendPortToStr backend.(networkingv1.IngressServiceBackend.Port)
  | None => ""
  end.

#[export] Instance uniqID_v1 : RouteConfig networkingv1.IngressRule.t :=
  λ rule, Some (joinWith "|"
    (rule.(networkingv1.IngressRule.Host) ::
     map digestV1 (default [] rule.(networkingv1.IngressRule.HTTP)))).

#[export] Instance uniqID_tcp : RouteConfig configurationv1beta1.IngressRule.t :=
  λ rule, Some (joinWith "|"
    [rule.(configurationv1beta1.IngressRule.Host);
     pretty rule.(configurationv1beta1.IngressRule.Port);
     rule.(configurationv1beta1.IngressRule.Backend).(configurationv1beta1.IngressBackend.ServiceName);
     pretty rule.(configurationv1beta1.IngressRule.Backend).(configurationv1beta1.IngressBackend.ServicePort)]).

#[export] Instance uniqID_udp : RouteConfig configurationv1beta1.UDPIngressRule.t :=
  λ rule, Some (joinWith "|"
    [pretty rule.(configurationv1beta1.UDPIngressRule.Port);
     rule.(configurationv1beta1.UDPIngressRule.Backend).(configurationv1beta1.IngressBackend.ServiceName);
     pretty rule.(configurationv1beta1.UDPIngressRule.Backend).(configurationv1beta1.IngressBackend.ServicePort)]).

#[export] Instance uniqID_knative : RouteConfig knative.IngressRule.t :=
  λ rule, Some (joinWith "|"
    (rule.(knative.IngressRule.Hosts) ++
     map knative.HTTPIngressPath.Path (default [] rule.(knative.IngressRule.HTTP)))).

(** Two orders in which a [range] loop can visit a map: by ascending and by
    descending key. *)
Definition ascending : MapOrder := λ _ m, map_to_list m.
Definition descending : MapOrder := λ _ m, reverse (map_to_list m).

End Sample.

(** ** Vocabulary of the statements *)

(** [a] is not created after [b]. *)
Definition notAfter `{Object A} (a b : A) : Prop :=
  CreationTimestamp a ≤ CreationTimestamp b.

(** The resources of [l] created at instant [t], in the order of [l]. *)
Definition createdAt `{Object A} (t : Z) (l : list A) : list A :=
  filter (λ a, CreationTimestamp a = t) l.

(** How a normalizer leaves the caller's slice: the same resources, oldest
    first, resources of equal age in their original order; hence untouched
    exactly when it was in that order already. *)
Definition sortedInPlace `{Object A} (before after : list A) : Prop :=
  after ≡ₚ before ∧
  StronglySorted notAfter after ∧
  (∀ t, createdAt t after = createdAt t before) ∧
  (StronglySorted notAfter before ↔ after = before).

(** The weight of a split candidate. *)
Definition weight (s : knative.IngressBackendSplit.t) : Z :=
  s.(knative.IngressBackendSplit.Percent).

(** ** Concrete snapshots *)

Module Examples.
Import Sample.

Definition meta (namespace name : string) (created : Z) : metav1.ObjectMeta :=
  {| metav1.Namespace := namespace; metav1.Name := name;
     metav1.CreationTimestamp := created |}.

(** A v1 path with a numbered service port. *)
Definition pathV1 (path : string) (pathType : option PathType)
    (service : string) (port : Z) : networkingv1.HTTPIngressPath.t :=
  {| networkingv1.HTTPIngressPath.Path := path;
     networkingv1.HTTPIngressPath.PathType := pathType;
     networkingv1.HTTPIngressPath.Backend :=
       {| networkingv1.IngressBackend.Service :=
            Some {| networkingv1.IngressServiceBackend.Name := service;
                    networkingv1.IngressServiceBackend.Port :=
                      {| networkingv1.ServiceBackendPort.Name := "";
                         networkingv1.ServiceBackendPort.Number := port |} |} |} |}.

Definition ingressV1 (namespace name : string) (created : Z)
    (defaultBackend : option networkingv1.IngressBackend.t)
    (rules : list networkingv1.IngressRule.t) : networkingv1.Ingress.t :=
  {| networkingv1.Ingress.ObjectMeta := meta namespace name created;
     networkingv1.Ingress.Spec :=
       {| networkingv1.IngressSpec.DefaultBackend := defaultBackend;
          networkingv1.IngressSpec.TLS := [];
          networkingv1.IngressSpec.Rules := rules |} |}.

(** A legacy path with a numbered service port. *)
Definition pathV1beta1 (path : string) (pathType : option PathType)
    (service : string) (port : Z) : networkingv1beta1.HTTPIngressPath.t :=
  {| networkingv1beta1.HTTPIngressPath.Path := path;
     networkingv1beta1.HTTPIngressPath.PathType := pathType;
     networkingv1beta1.HTTPIngressPath.Backend :=
       {| networkingv1beta1.IngressBackend.ServiceName := service;
          networkingv1beta1.IngressBackend.ServicePort := intstr.FromInt port |} |}.

Definition ingressV1beta1 (namespace name : string) (created : Z)
    (defaultBackend : option networkingv1beta1.IngressBackend.t)
    (rules : list networkingv1beta1.IngressRule.t) : networkingv1beta1.Ingress.t :=
  {| networkingv1beta1.Ingress.ObjectMeta := meta namespace name created;
     networkingv1beta1.Ingress.Spec :=
       {| networkingv1beta1.IngressSpec.Backend := defaultBackend;
          networkingv1beta1.IngressSpec.TLS := [];
          networkingv1beta1.IngressSpec.Rules := rules |} |}.

Definition split (name : string) (percent : Z) (headers : list (string * string))
  : knative.IngressBackendSplit.t :=
  {| knative.IngressBackendSplit.ServiceNamespace := "default";
     knative.IngressBackendSplit.ServiceName := name;
     knative.IngressBackendSplit.ServicePort := intstr.FromInt 80;
     knative.IngressBackendSplit.Percent := percent;
     knative.IngressBackendSplit.AppendHeaders := list_to_map headers |}.

Definition serviceBackend (service : string) (port : Z) : networkingv1.IngressBackend.t :=
  {| networkingv1.IngressBackend.Service :=
       Some {| networkingv1.IngressServiceBackend.Name := service;
               networkingv1.IngressServiceBackend.Port :=
                 {| networkingv1.ServiceBackendPort.Name := "";
                    networkingv1.ServiceBackendPort.Number := port |} |} |}.

(** A backend that names a resource instead of a service. *)
Definition resourceBackend : networkingv1.IngressBackend.t :=
  {| networkingv1.IngressBackend.Service := None |}.

Definition legacyBackend (service : string) (port : Z) : networkingv1beta1.IngressBackend.t :=
  {| networkingv1beta1.IngressBackend.ServiceName := service;
     networkingv1beta1.IngressBackend.ServicePort := intstr.FromInt port |}.

(** Three resources with default backends, created at 1 < 2 < 3 and listed
    in another order. *)
Definition threeDefaultsV1 : list networkingv1.Ingress.t :=
  [ingressV1 "default" "second" 2 (Some (serviceBackend "svc2" 80)) [];
   ingressV1 "default" "third" 3 (Some (serviceBackend "svc3" 80)) [];
   ingressV1 "default" "first" 1 (Some (serviceBackend "svc1" 80)) []].

Definition threeDefaultsV1beta1 : list networkingv1beta1.Ingress.t :=
  [ingressV1beta1 "default" "second" 2 (Some (legacyBackend "svc2" 80)) [];
   ingressV1beta1 "default" "third" 3 (Some (legacyBackend "svc3" 80)) [];
   ingressV1beta1 "default" "first" 1 (Some (legacyBackend "svc1" 80)) []].

Definition ingressKnative (namespace name : string) (created : Z)
    (rules : list knative.IngressRule.t) : knative.Ingress.t :=
  {| knative.Ingress.ObjectMeta := meta namespace name created;
     knative.Ingress.Spec :=
       {| knative.IngressSpec.TLS := []; knative.IngressSpec.Rules := rules |} |}.

Definition ruleKnative (host : string) (paths : list knative.HTTPIngressPath.t)
  : knative.IngressRule.t :=
  {| knative.IngressRule.Hosts := [host]; knative.IngressRule.HTTP := Some paths |}.

(** One weighted-split resource whose only backend appends two headers. *)
Definition twoHeaders : list knative.Ingress.t :=
  [ingressKnative "default" "split" 1
     [ruleKnative "example.com"
        [{| knative.HTTPIngressPath.Path := "/";
            knative.HTTPIngressPath.Splits :=
              [split "svc" 100 [("x-a", "1"); ("x-b", "2")]];
            knative.HTTPIngressPath.AppendHeaders := ∅ |}]]].

(** One weighted-split resource with a repeated separator in its path. *)
Definition repeatedSeparatorKnative : list knative.Ingress.t :=
  [ingressKnative "default" "split" 1
     [ruleKnative "example.com"
        [{| knative.HTTPIngressPath.Path := "/a//b";
            knative.HTTPIngressPath.Splits := [split "svc" 100 []];
            knative.HTTPIngressPath.AppendHeaders := ∅ |}]]].

Definition ruleV1 (host : string) (paths : list networkingv1.HTTPIngressPath.t)
  : networkingv1.IngressRule.t :=
  {| networkingv1.IngressRule.Host := host; networkingv1.IngressRule.HTTP := Some paths |}.

Definition ruleV1beta1 (host : string) (paths : list networkingv1beta1.HTTPIngressPath.t)
  : networkingv1beta1.IngressRule.t :=
  {| networkingv1beta1.IngressRule.Host := host;
     networkingv1beta1.IngressRule.HTTP := Some paths |}.

(** An exact path, in the legacy and in the current shape. *)
Definition exactFooV1beta1 : networkingv1beta1.Ingress.t :=
  ingressV1beta1 "default" "web" 1 None
    [ruleV1beta1 "example.com" [pathV1beta1 "/foo" (Some PathTypeExact) "svc" 80]].

Definition exactFooV1 : networkingv1.Ingress.t :=
  ingressV1 "default" "web" 1 None
    [ruleV1 "example.com" [pathV1 "/foo" (Some PathTypeExact) "svc" 80]].

(** A v1 rule path whose backend has no service name. *)
Definition emptyServiceNameV1 : list networkingv1.Ingress.t :=
  [ingressV1 "default" "web" 1 None
     [ruleV1 "example.com" [pathV1 "/" None "" 80]]].

(** One resource with the same rule path twice. *)
Definition samePathTwiceV1 : networkingv1.Ingress.t :=
  ingressV1 "default" "web" 1 None
    [ruleV1 "example.com" [pathV1 "/foo" None "svc" 80; pathV1 "/foo" None "svc" 80]].

(** Two resources with the same rule whose namespaces and names give the
    same route prefix. *)
Definition samePrefixV1 : list networkingv1.Ingress.t :=
  [ingressV1 "a" "b.c" 1 None [ruleV1 "example.com" [pathV1 "/foo" None "svc" 80]];
   ingressV1 "a.b" "c" 2 None [ruleV1 "example.com" [pathV1 "/foo" None "svc" 80]]].

(** One weighted-split resource with two paths to the same backend; only
    the second path appends a header. *)
Definition headerOnSecondPath : list knative.Ingress.t :=
  [ingressKnative "default" "split" 1
     [ruleKnative "example.com"
        [{| knative.HTTPIngressPath.Path := "/a";
            knative.HTTPIngressPath.Splits := [split "svc" 100 []];
            knative.HTTPIngressPath.AppendHeaders := ∅ |};
         {| knative.HTTPIngressPath.Path := "/b";
            knative.HTTPIngressPath.Splits := [split "svc" 100 []];
            knative.HTTPIngressPath.AppendHeaders := {["x-b" := "2"]} |}]]].

(** Two resources, the newer one first in the snapshot. *)
Definition newerFirst : list networkingv1.Ingress.t :=
  [ingressV1 "default" "newer" 2 None []; ingressV1 "default" "older" 1 None []].

(** One resource whose rule path and whose default backend name the same
    service and port, in the current and in the legacy shape. *)
Definition ruleAndDefaultV1 : networkingv1.Ingress.t :=
  ingressV1 "default" "web" 1 (Some (serviceBackend "svc" 80))
    [ruleV1 "example.com" [pathV1 "/foo" None "svc" 80]].

Definition ruleAndDefaultV1beta1 : networkingv1beta1.Ingress.t :=
  ingressV1beta1 "default" "web" 1 (Some (legacyBackend "svc" 80))
    [ruleV1beta1 "example.com" [pathV1beta1 "/foo" None "svc" 80]].

(** Two resources with a default backend; that of the older one names a
    resource, not a service. *)
Definition assetsV1 : networkingv1.Ingress.t :=
  ingressV1 "default" "assets" 1 (Some resourceBackend) [].

Definition resourceDefaultV1 : list networkingv1.Ingress.t :=
  [ingressV1 "default" "web" 2 (Some (serviceBackend "svc" 80)) []; assetsV1].

End Examples.

(** ** The loops as runs of iterations *)

(** A service with further routes appended and nothing else changed. *)
Definition appendRoutes (service : kongstate.Service.t) (extra : list kongstate.Route.t)
  : kongstate.Service.t :=
  {| kongstate.Service.Service := service.(kongstate.Service.Service);
     kongstate.Service.Namespace := service.(kongstate.Service.Namespace);
     kongstate.Service.Backend := service.(kongstate.Service.Backend);
     kongstate.Service.Routes := service.(kongstate.Service.Routes) ++ extra;
     kongstate.Service.Plugins := service.(kongstate.Service.Plugins) |}.

(** Every service of [services] is still there in [services'], with the
    fields it had and with routes appended at most. *)
Definition extends (services services' : gmap string kongstate.Service.t) : Prop :=
  ∀ serviceName service, services !! serviceName = Some service →
    ∃ extra, services' !! serviceName = Some (appendRoutes service extra).

(** Route [r] is bound to the service stored under [serviceName]. *)
Definition boundTo (services : gmap string kongstate.Service.t)
    (serviceName : string) (r : kongstate.Route.t) : Prop :=
  ∃ service, services !! serviceName = Some service ∧
             r ∈ service.(kongstate.Service.Routes).

(** Every service is stored under its own name. *)
Definition keyedByName (services : gmap string kongstate.Service.t) : Prop :=
  ∀ serviceName service, services !! serviceName = Some service →
    service.(kongstate.Service.Service).(kong.Service.Name) = Some serviceName.

(** A rule loop over [items] from the state [st]. *)
Definition runLoop {X} (body : X → gset string → option Emission * gset string)
    (st : gmap string kongstate.Service.t * gset string) (items : list X)
  : gmap string kongstate.Service.t * gset string :=
  foldl (λ st x, commit st.1 (body x st.2)) st items.

(** [usedRouteNames] after the iterations over [items]; it does not depend
    on the services. *)
Definition usedAfter {X} (body : X → gset string → option Emission * gset string)
    (usedRouteNames : gset string) (items : list X) : gset string :=
  foldl (λ used x, (body x used).2) usedRouteNames items.

(** The loop over the resources, each with a rule loop that starts from an
    empty [usedRouteNames]. *)
Definition runResources {I X} (items : I → list X)
    (body : I → X → gset string → option Emission * gset string)
    (services : gmap string kongstate.Service.t) (resources : list I)
  : gmap string kongstate.Service.t :=
  foldl (λ services i, (runLoop (body i) (services, ∅) (items i)).1) services resources.

(** The iteration over [x] of the rule loop of resource [i] is the one
    after the iterations over [pre], and it appends route [r] to the service
    named [serviceName]. *)
Definition iterationEmits {I X} (items : I → list X)
    (body : I → X → gset string → option Emission * gset string)
    (i : I) (pre : list X) (x : X) (serviceName : string) (r : kongstate.Route.t) : Prop :=
  ∃ post fresh used,
    items i = pre ++ x :: post ∧
    body i x (usedAfter (body i) ∅ pre) = (Some (serviceName, fresh, r), used).

(** The iterations of the nested loops [for i, rule] / [for j, rulePath],
    in the order in which they run. *)
Definition nestedItems {R P} (paths : R → option (list P)) (rules : list R)
  : list (nat * R * nat * P) :=
  '(i, rule) ← enumerate rules;
  match paths rule with
  | None => []
  | Some ps => (λ '(j, rulePath), (i, rule, j, rulePath)) <$> enumerate ps
  end.

Section Views.
Context `{Externals}.
Context `{!RouteConfig networkingv1beta1.IngressRule.t}.
Context `{!RouteConfig networkingv1.IngressRule.t}.
Context `{!RouteConfig configurationv1beta1.IngressRule.t}.
Context `{!RouteConfig configurationv1beta1.UDPIngressRule.t}.
Context `{!RouteConfig knative.IngressRule.t}.

Definition prefixV1beta1 (ingress : networkingv1beta1.Ingress.t) : string :=
  IngressV1Beta1RoutePrefix +:+ "." +:+ Namespace ingress +:+ "." +:+ Name ingress +:+ ".".

Definition itemsV1beta1 (ingress : networkingv1beta1.Ingress.t) :=
  nestedItems networkingv1beta1.IngressRule.HTTP
    ingress.(networkingv1beta1.Ingress.Spec).(networkingv1beta1.IngressSpec.Rules).

Definition bodyV1beta1 (hashed : bool) (ingress : networkingv1beta1.Ingress.t)
    (x : nat * networkingv1beta1.IngressRule.t * nat * networkingv1beta1.HTTPIngressPath.t) :=
  let '(i, rule, j, rulePath) := x in
  pathV1beta1 hashed ingress (prefixV1beta1 ingress) i rule j rulePath.

Definition prefixV1 (ingress : networkingv1.Ingress.t) : string :=
  IngressV1RoutePrefix +:+ "." +:+ Namespace ingress +:+ "." +:+ Name ingress +:+ ".".

Definition itemsV1 (ingress : networkingv1.Ingress.t) :=
  nestedItems networkingv1.IngressRule.HTTP
    ingress.(networkingv1.Ingress.Spec).(networkingv1.IngressSpec.Rules).

(** The iteration over a rule path as a step of the rule loop. Where
    [pathV1] panics the call is lost and the step counts for nothing, here
    as a skip: the statements on [fromIngressV1] are on the calls that
    return, in which no iteration panics. *)
Definition bodyV1 (hashed : bool) (ingress : networkingv1.Ingress.t)
    (x : nat * networkingv1.IngressRule.t * nat * networkingv1.HTTPIngressPath.t)
    (usedRouteNames : gset string) : option Emission * gset string :=
  let '(i, rule, j, rulePath) := x in
  default (None, usedRouteNames)
    (pathV1 hashed ingress (prefixV1 ingress) i rule j rulePath usedRouteNames).

Definition prefixTCP (ingress : configurationv1beta1.TCPIngress.t) : string :=
  TCPIngressV1Beta1RoutePrefix +:+ "." +:+ Namespace ingress +:+ "." +:+ Name ingress +:+ ".".

Definition itemsTCP (ingress : configurationv1beta1.TCPIngress.t) :=
  enumerate ingress.(configurationv1beta1.TCPIngress.Spec).(configurationv1beta1.TCPIngressSpec.Rules).

Definition bodyTCP (hashed : bool) (ingress : configurationv1beta1.TCPIngress.t)
    (x : nat * configurationv1beta1.IngressRule.t) :=
  let '(i, rule) := x in ruleTCP hashed ingress (prefixTCP ingress) i rule.

Definition prefixUDP (ingress : configurationv1beta1.UDPIngress.t) : string :=
  UDPIngressV1Beta1RoutePrefix +:+ "." +:+ Namespace ingress +:+ "." +:+ Name ingress +:+ ".".

Definition itemsUDP (ingress : configurationv1beta1.UDPIngress.t) :=
  enumerate ingress.(configurationv1beta1.UDPIngress.Spec).(configurationv1beta1.UDPIngressSpec.Rules).

Definition bodyUDP (hashed : bool) (ingress : configurationv1beta1.UDPIngress.t)
    (x : nat * configurationv1beta1.UDPIngressRule.t) :=
  let '(i, rule) := x in ruleUDP hashed ingress (prefixUDP ingress) i rule.

Definition prefixKnative (ingress : knative.Ingress.t) : string :=
  KnativeIngressV1Alpha1RoutePrefix +:+ "." +:+ Namespace ingress +:+ "." +:+
  Name ingress +:+ ".".

Definition itemsKnative (pi : nat * knative.Ingress.t) :=
  nestedItems knative.IngressRule.HTTP
    pi.2.(knative.Ingress.Spec).(knative.IngressSpec.Rules).

Definition bodyKnative (order : MapOrder) (hashed : bool) (pi : nat * knative.Ingress.t)
    (x : nat * knative.IngressRule.t * nat * knative.HTTPIngressPath.t) :=
  let '(i, rule, j, rulePath) := x in
  pathKnative order hashed pi.1 pi.2 (prefixKnative pi.2) i rule j rulePath.

End Views.

(** The resource declares a default backend. *)
Definition hasDefaultV1beta1 (ingress : networkingv1beta1.Ingress.t) : Prop :=
  is_Some ingress.(networkingv1beta1.Ingress.Spec).(networkingv1beta1.IngressSpec.Backend).

Definition hasDefaultV1 (ingress : networkingv1.Ingress.t) : Prop :=
  is_Some ingress.(networkingv1.Ingress.Spec).(networkingv1.IngressSpec.DefaultBackend).

(** The same resource without its default backend. *)
Definition withoutDefaultV1beta1 (ingress : networkingv1beta1.Ingress.t)
  : networkingv1beta1.Ingress.t :=
  let spec := ingress.(networkingv1beta1.Ingress.Spec) in
  {| networkingv1beta1.Ingress.ObjectMeta := ingress.(networkingv1beta1.Ingress.ObjectMeta);
     networkingv1beta1.Ingress.Spec :=
       {| networkingv1beta1.IngressSpec.Backend := None;
          networkingv1beta1.IngressSpec.TLS := spec.(networkingv1beta1.IngressSpec.TLS);
          networkingv1beta1.IngressSpec.Rules := spec.(networkingv1beta1.IngressSpec.Rules) |} |}.

Definition withoutDefaultV1 (ingress : networkingv1.Ingress.t) : networkingv1.Ingress.t :=
  let spec := ingress.(networkingv1.Ingress.Spec) in
  {| networkingv1.Ingress.ObjectMeta := ingress.(networkingv1.Ingress.ObjectMeta);
     networkingv1.Ingress.Spec :=
       {| networkingv1.IngressSpec.DefaultBackend := None;
          networkingv1.IngressSpec.TLS := spec.(networkingv1.IngressSpec.TLS);
          networkingv1.IngressSpec.Rules := spec.(networkingv1.IngressSpec.Rules) |} |}.

(** [a] is a resource of [l] with property [P], and no resource of [l] with
    [P] was created before it. *)
Definition earliestWith `{Object A} (P : A → Prop) (l : list A) (a : A) : Prop :=
  a ∈ l ∧ P a ∧ ∀ b, b ∈ l → P b → notAfter a b.

(** A created service has no route yet and carries the name it is stored
    under. *)
Definition freshService (e : Emission) : Prop :=
  e.1.2.(kongstate.Service.Routes) = [] ∧
  e.1.2.(kongstate.Service.Service).(kong.Service.Name) = Some e.1.1.

(** The tail of a loop body, for the emission [e]. *)
Definition appendEmission (e : Emission) (services : gmap string kongstate.Service.t)
  : gmap string kongstate.Service.t :=
  appendRoute e.1.1 e.1.2 e.2 services.

(** What the default-backend block adds to the services [rulesOnly] left by
    the rule loops, for the emission [e] of that block: one route, appended
    to the service stored under the name of the emission, which is created
    when the rule loops did not create it; nothing else changes. *)
Definition addsOneRoute (e : Emission)
    (rulesOnly out : gmap string kongstate.Service.t) : Prop :=
  out = appendEmission e rulesOnly ∧
  (∀ serviceName, serviceName ≠ e.1.1 → out !! serviceName = rulesOnly !! serviceName) ∧
  ∃ service,
    out !! e.1.1 = Some service ∧
    service.(kongstate.Service.Service).(kong.Service.Name) = Some e.1.1 ∧
    service.(kongstate.Service.Routes) =
      (default e.1.2 (rulesOnly !! e.1.1)).(kongstate.Service.Routes) ++ [e.2].

(** A route that matches every path of every host. *)
Definition wildcardRoute (r : kongstate.Route.t) : Prop :=
  r.(kongstate.Route.Route).(kong.Route.Paths) = ["/"] ∧
  r.(kongstate.Route.Route).(kong.Route.Hosts) = [].

(** ** The statements about the default backend *)

Section DefaultBackendStatements.
Context `{Externals}.
Context `{!RouteConfig networkingv1beta1.IngressRule.t}.
Context `{!RouteConfig networkingv1.IngressRule.t}.

(** Only the default backend of an earliest-created resource is
    materialized: the output is the output for the same resources without
    their default backends, all of whose routes come from rule paths, plus
    one wildcard route. *)
Definition materializesEarliestV1 (hashed : bool) (l : list networkingv1.Ingress.t)
    (result : ingressRules) : Prop :=
  ∃ ingress defaultBackend e withoutDefaults,
    earliestWith hasDefaultV1 l ingress ∧
    ingress.(networkingv1.Ingress.Spec).(networkingv1.IngressSpec.DefaultBackend)
      = Some defaultBackend ∧
    defaultBackendV1 ingress defaultBackend = Some e ∧
    (fromIngressV1 (withoutDefaultV1 <$> l) hashed).1 = Some withoutDefaults ∧
    let rulesOnly := ServiceNameToServices withoutDefaults in
    addsOneRoute e rulesOnly (ServiceNameToServices result) ∧
    wildcardRoute e.2 ∧
    ∀ serviceName r, boundTo rulesOnly serviceName r →
      ∃ i pre x, i ∈ l ∧ iterationEmits itemsV1 (bodyV1 hashed) i pre x serviceName r.

Definition materializesEarliestV1beta1 (hashed : bool)
    (l : list networkingv1beta1.Ingress.t) : Prop :=
  ∃ ingress defaultBackend,
    earliestWith hasDefaultV1beta1 l ingress ∧
    ingress.(networkingv1beta1.Ingress.Spec).(networkingv1beta1.IngressSpec.Backend)
      = Some defaultBackend ∧
    let e := defaultBackendV1beta1 ingress defaultBackend in
    let rulesOnly :=
      ServiceNameToServices
        (fromIngressV1beta1 (withoutDefaultV1beta1 <$> l) hashed).1 in
    addsOneRoute e rulesOnly (ServiceNameToServices (fromIngressV1beta1 l hashed).1) ∧
    wildcardRoute e.2 ∧
    ∀ serviceName r, boundTo rulesOnly serviceName r →
      ∃ i pre x, i ∈ l ∧
        iterationEmits itemsV1beta1 (bodyV1beta1 hashed) i pre x serviceName r.



End DefaultBackendStatements.

(** The header lists of the plugins of a service. *)
Definition pluginHeaders (service : kongstate.Service.t) : list (list string) :=
  plugin ← service.(kongstate.Service.Plugins);
  '(_, entries) ← plugin.(kong.Plugin.Config);
  snd <$> entries.

(** The names and the path patterns of the routes of a service. *)
Definition routeNames (service : kongstate.Service.t) : list (option string) :=
  (λ r, r.(kongstate.Route.Route).(kong.Route.Name))
  <$> service.(kongstate.Service.Routes).

Definition routePaths (service : kongstate.Service.t) : list (list string) :=
  (λ r, r.(kongstate.Route.Route).(kong.Route.Paths))
  <$> service.(kongstate.Service.Routes).

Definition routePriorities (service : kongstate.Service.t) : list (option Z) :=
  (λ r, r.(kongstate.Route.Route).(kong.Route.RegexPriority))
  <$> service.(kongstate.Service.Routes).

(** ** The statements about validation and path translation *)

(** The routes of [out] are the routes appended by the iterations over the
    items that pass, and the routes of [other]: a route of [out] that is
    not of [other] was appended by an iteration whose item passes, and the
    iteration over every item that passes, of every resource, appends a
    route that is in [out]. *)
Definition routesAre {I X} (resources : list I) (items : I → list X)
    (body : I → X → gset string → option Emission * gset string)
    (passes : X → Prop) (other : string → kongstate.Route.t → Prop)
    (out : gmap string kongstate.Service.t) : Prop :=
  (∀ serviceName r, boundTo out serviceName r →
     other serviceName r ∨
     ∃ i pre x, i ∈ resources ∧ iterationEmits items body i pre x serviceName r ∧
                passes x) ∧
  (∀ i x, i ∈ resources → x ∈ items i → passes x →
     ∃ pre serviceName r, iterationEmits items body i pre x serviceName r ∧
                          boundTo out serviceName r).

(** With [hashedRouteNames], a rule needs a unique id to get a name. *)
Definition nameable (hashed : bool) (uniqID : option string) : Prop :=
  hashed = true → is_Some uniqID.

Section ValidationStatements.
Context `{Externals}.
Context `{!RouteConfig networkingv1beta1.IngressRule.t}.
Context `{!RouteConfig networkingv1.IngressRule.t}.
Context `{!RouteConfig configurationv1beta1.IngressRule.t}.
Context `{!RouteConfig configurationv1beta1.UDPIngressRule.t}.
Context `{!RouteConfig knative.IngressRule.t}.

(** The path type of a v1 rule path, [ImplementationSpecific] when unset. *)
Definition pathTypeOf (rulePath : networkingv1.HTTPIngressPath.t) : PathType :=
  default PathTypeImplementationSpecific rulePath.(networkingv1.HTTPIngressPath.PathType).

(** The checks of the legacy HTTP loop body. *)
Definition passesV1beta1 (hashed : bool)
    (x : nat * networkingv1beta1.IngressRule.t * nat * networkingv1beta1.HTTPIngressPath.t)
  : Prop :=
  let '(i, rule, j, rulePath) := x in
  Strings.Contains rulePath.(networkingv1beta1.HTTPIngressPath.Path) "//" = false ∧
  nameable hashed (getUniqIDForRouteConfig (uniqueRuleV1beta1 rule rulePath)).

(** The checks of the v1 HTTP loop body. *)
Definition passesV1 (hashed : bool)
    (x : nat * networkingv1.IngressRule.t * nat * networkingv1.HTTPIngressPath.t) : Prop :=
  let '(i, rule, j, rulePath) := x in
  Strings.Contains rulePath.(networkingv1.HTTPIngressPath.Path) "//" = false ∧
  is_Some (pathsFromK8s rulePath.(networkingv1.HTTPIngressPath.Path) (pathTypeOf rulePath)) ∧
  nameable hashed (getUniqIDForRouteConfig (uniqueRuleV1 rule rulePath)).

(** The checks of the TCP loop body. *)
Definition passesTCP (hashed : bool) (x : nat * configurationv1beta1.IngressRule.t) : Prop :=
  let '(i, rule) := x in
  let backend := rule.(configurationv1beta1.IngressRule.Backend) in
  IsValidPort rule.(configurationv1beta1.IngressRule.Port) = true ∧
  backend.(configurationv1beta1.IngressBackend.ServiceName) ≠ "" ∧
  IsValidPort backend.(configurationv1beta1.IngressBackend.ServicePort) = true ∧
  nameable hashed (getUniqIDForRouteConfig rule).

(** The checks of the UDP loop body. *)
Definition passesUDP (hashed : bool) (x : nat * configurationv1beta1.UDPIngressRule.t) : Prop :=
  let '(i, rule) := x in
  let backend := rule.(configurationv1beta1.UDPIngressRule.Backend) in
  IsValidPort rule.(configurationv1beta1.UDPIngressRule.Port) = true ∧
  backend.(configurationv1beta1.IngressBackend.ServiceName) ≠ "" ∧
  IsValidPort backend.(configurationv1beta1.IngressBackend.ServicePort) = true ∧
  nameable hashed (getUniqIDForRouteConfig rule).

(** The weighted-split loop body has no check of its own: only a rule
    without a unique id is skipped, with [hashedRouteNames]. *)
Definition passesKnative (hashed : bool)
    (x : nat * knative.IngressRule.t * nat * knative.HTTPIngressPath.t) : Prop :=
  let '(i, rule, j, rulePath) := x in
  nameable hashed (getUniqIDForRouteConfig (uniqueRuleKnative rule rulePath)).

(** The route of the default-backend block of a resource of [l]. *)
Definition defaultRouteV1beta1 (l : list networkingv1beta1.Ingress.t)
    (serviceName : string) (r : kongstate.Route.t) : Prop :=
  ∃ ingress defaultBackend,
    ingress ∈ l ∧
    ingress.(networkingv1beta1.Ingress.Spec).(networkingv1beta1.IngressSpec.Backend)
      = Some defaultBackend ∧
    serviceName = (defaultBackendV1beta1 ingress defaultBackend).1.1 ∧
    r = (defaultBackendV1beta1 ingress defaultBackend).2.

Definition defaultRouteV1 (l : list networkingv1.Ingress.t)
    (serviceName : string) (r : kongstate.Route.t) : Prop :=
  ∃ ingress defaultBackend fresh,
    ingress ∈ l ∧
    ingress.(networkingv1.Ingress.Spec).(networkingv1.IngressSpec.DefaultBackend)
      = Some defaultBackend ∧
    defaultBackendV1 ingress defaultBackend = Some (serviceName, fresh, r).

(** The backend of every rule path of [ingress] that passes the checks
    names a service. *)
Definition servedV1 (hashed : bool) (ingress : networkingv1.Ingress.t) : Prop :=
  ∀ i rule j rulePath,
    (i, rule, j, rulePath) ∈ itemsV1 ingress → passesV1 hashed (i, rule, j, rulePath) →
    is_Some rulePath.(networkingv1.HTTPIngressPath.Backend).(networkingv1.IngressBackend.Service).

(** The resource whose default backend the last block reads: the first
    one with a default backend in the sorted list. *)
Definition firstDefaultV1 (l : list networkingv1.Ingress.t)
    (ingress : networkingv1.Ingress.t) : Prop :=
  ∃ rest, filter hasDefaultV1 (SliceStable createdBefore l) = ingress :: rest.

(** The default backend that the last block reads names a service. *)
Definition defaultServedV1 (l : list networkingv1.Ingress.t) : Prop :=
  ∀ ingress defaultBackend,
    firstDefaultV1 l ingress →
    ingress.(networkingv1.Ingress.Spec).(networkingv1.IngressSpec.DefaultBackend)
      = Some defaultBackend →
    is_Some defaultBackend.(networkingv1.IngressBackend.Service).

(** The inputs on which [fromIngressV1] reads no nil pointer. *)
Definition returnsV1 (hashed : bool) (l : list networkingv1.Ingress.t) : Prop :=
  Forall (servedV1 hashed) l ∧ defaultServedV1 l.

(** Every backend of the resources of [l], of a rule path or by default,
    names a service. *)
Definition namesService (backend : networkingv1.IngressBackend.t) : bool :=
  bool_decide (is_Some backend.(networkingv1.IngressBackend.Service)).

Definition serviceBackendsOnly (l : list networkingv1.Ingress.t) : bool :=
  forallb (λ ingress,
             forallb (λ x, namesService x.2.(networkingv1.HTTPIngressPath.Backend))
                     (itemsV1 ingress) &&
             from_option namesService true
               ingress.(networkingv1.Ingress.Spec).(networkingv1.IngressSpec.DefaultBackend))
          l.

(** No route besides those of the rule loops. *)
Definition noOtherRoute (serviceName : string) (r : kongstate.Route.t) : Prop := False.

End ValidationStatements.

(** ** The statement about the first writer of a service *)

(** [out] is the outcome of the run over [resources], possibly followed by
    one more emission; every service of [out] is stored under its own name;
    and the services present at any point of the run, after the resources
    [processed] and the iterations [pre] of the next one, are all in [out]
    with the fields they had then and with routes appended at most. *)
Definition firstWriterWins {I X} (items : I → list X)
    (body : I → X → gset string → option Emission * gset string)
    (resources : list I) (out : gmap string kongstate.Service.t) : Prop :=
  (out = runResources items body ∅ resources ∨
   ∃ e, out = appendEmission e (runResources items body ∅ resources)) ∧
  keyedByName out ∧
  ∀ processed i rest pre post,
    resources = processed ++ i :: rest → items i = pre ++ post →
    extends (runLoop (body i) (runResources items body ∅ processed, ∅) pre).1 out.

(** The composite key of a service: its namespace, and the name and the
    port of its backend. *)
Definition compositeKey (service : kongstate.Service.t) : string * kongstate.ServiceBackend :=
  (service.(kongstate.Service.Namespace), service.(kongstate.Service.Backend)).

(** ** The statements about route names *)

(** The name of the route of an emission. *)
Definition routeName (e : Emission) : option string :=
  e.2.(kongstate.Route.Route).(kong.Route.Name).

(** No ["-"] in the string. *)
Fixpoint dashFree (s : string) : Prop :=
  match s with
  | EmptyString => True
  | String c s' => c ≠ "-"%char ∧ dashFree s'
  end.

(** How a loop body names its routes with hashed names: an iteration that
    emits has a unique id, its route is named by the prefix and the id, with
    the suffix when that name is already used, and afterwards the name of
    prefix and id is used; no iteration removes a used name. *)
Definition namedBy {X} (body : X → gset string → option Emission * gset string)
    (routePrefix : string) (uniqID : X → option string) (suffix : X → string) : Prop :=
  ∀ x used,
    used ⊆ (body x used).2 ∧
    ∀ e used', body x used = (Some e, used') →
      ∃ id, uniqID x = Some id ∧
        routeName e =
          Some (if decide (routePrefix +:+ id ∈ used)
                then (routePrefix +:+ id) +:+ suffix x else routePrefix +:+ id) ∧
        routePrefix +:+ id ∈ used'.







(** ** Vocabulary of the further properties *)

(** The string has no repeated path separator. *)
Definition separatorsSingle (s : string) : Prop := Strings.Contains s "//" = false.

(** The first, and the last, character is the separator. *)
Definition startsWithSlash (s : string) : bool :=
  match s with
  | String c _ => Ascii.eqb c "/"
  | EmptyString => false
  end.

Fixpoint endsWithSlash (s : string) : bool :=
  match s with
  | EmptyString => false
  | String c EmptyString => Ascii.eqb c "/"
  | String _ s' => endsWithSlash s'
  end.

(** The three path types that [pathsFromK8s] knows. *)
Definition knownPathType (pathType : PathType) : Prop :=
  pathType = PathTypeExact ∨ pathType = PathTypePrefix ∨
  pathType = PathTypeImplementationSpecific.

(** No two resources of [l] were created at the same instant. *)
Definition distinctAges `{Object A} (l : list A) : Prop :=
  NoDup (CreationTimestamp <$> l).

(** More snapshots: stream resources, to run the TCP and UDP normalizers
    on, and a second weighted-split resource. *)
Module MoreExamples.
Import Sample.

Definition backend (service : string) (port : Z) : configurationv1beta1.IngressBackend.t :=
  {| configurationv1beta1.IngressBackend.ServiceName := service;
     configurationv1beta1.IngressBackend.ServicePort := port |}.

Definition ruleTCP (host : string) (port : Z) (service : string) (servicePort : Z)
  : configurationv1beta1.IngressRule.t :=
  {| configurationv1beta1.IngressRule.Host := host;
     configurationv1beta1.IngressRule.Port := port;
     configurationv1beta1.IngressRule.Backend := backend service servicePort |}.

Definition ingressTCP (namespace name : string) (created : Z)
    (rules : list configurationv1beta1.IngressRule.t) : configurationv1beta1.TCPIngress.t :=
  {| configurationv1beta1.TCPIngress.ObjectMeta := Examples.meta namespace name created;
     configurationv1beta1.TCPIngress.Spec :=
       {| configurationv1beta1.TCPIngressSpec.Rules := rules;
          configurationv1beta1.TCPIngressSpec.TLS := [] |} |}.

Definition ruleUDP (port : Z) (service : string) (servicePort : Z)
  : configurationv1beta1.UDPIngressRule.t :=
  {| configurationv1beta1.UDPIngressRule.Port := port;
     configurationv1beta1.UDPIngressRule.Backend := backend service servicePort |}.

Definition ingressUDP (namespace name : string) (created : Z)
    (rules : list configurationv1beta1.UDPIngressRule.t) : configurationv1beta1.UDPIngress.t :=
  {| configurationv1beta1.UDPIngress.ObjectMeta := Examples.meta namespace name created;
     configurationv1beta1.UDPIngress.Spec :=
       {| configurationv1beta1.UDPIngressSpec.Rules := rules |} |}.

(** Two resources of each stream kind, created at 1 and at 2. *)
Definition olderTCP : configurationv1beta1.TCPIngress.t :=
  ingressTCP "default" "older" 1 [ruleTCP "" 9000 "echo" 1025].
Definition newerTCP : configurationv1beta1.TCPIngress.t :=
  ingressTCP "default" "newer" 2 [ruleTCP "example.com" 9443 "echo" 1025].
Definition olderUDP : configurationv1beta1.UDPIngress.t :=
  ingressUDP "default" "older" 1 [ruleUDP 9999 "dns" 53].
Definition newerUDP : configurationv1beta1.UDPIngress.t :=
  ingressUDP "default" "newer" 2 [ruleUDP 9998 "dns" 53].

(** A weighted-split resource created after [Examples.twoHeaders]. *)
Definition laterIngressKnative : knative.Ingress.t :=
  Examples.ingressKnative "default" "later" 2
    [Examples.ruleKnative "example.org"
       [{| knative.HTTPIngressPath.Path := "/";
           knative.HTTPIngressPath.Splits := [Examples.split "svc" 100 []];
           knative.HTTPIngressPath.AppendHeaders := ∅ |}]].

Definition laterKnative : list knative.Ingress.t := [laterIngressKnative].

End MoreExamples.

(** [service] has the service-level fields of [fresh]: it is [fresh] with
    routes appended. *)
Definition createdAs (fresh service : kongstate.Service.t) : Prop :=
  ∃ routes, service = appendRoutes fresh routes.

(** A service of a stream normalizer, stored under [serviceName]: it is
    named after namespace, backend service and backend port, with [suffix];
    its backend has a name and a valid port, given by number; it has no
    plugin. *)
Definition streamService `{Externals} (protocol suffix : string)
    (serviceName : string) (service : kongstate.Service.t) : Prop :=
  ∃ name port,
    name ≠ "" ∧ IsValidPort port = true ∧
    serviceName =
      service.(kongstate.Service.Namespace) +:+ "." +:+ name +:+ "." +:+ pretty port
      +:+ suffix ∧
    service.(kongstate.Service.Service).(kong.Service.Name) = Some serviceName ∧
    service.(kongstate.Service.Service).(kong.Service.Host) =
      Some (name +:+ "." +:+ service.(kongstate.Service.Namespace) +:+ "." +:+ pretty port
            +:+ ".svc") ∧
    service.(kongstate.Service.Service).(kong.Service.Protocol) = Some protocol ∧
    service.(kongstate.Service.Backend) =
      {| kongstate.BackendName := name;
         kongstate.BackendPort :=
           {| kongstate.Mode := kongstate.PortModeByNumber;
              kongstate.Number := int32 port;
              kongstate.PortName := "" |} |} ∧
    service.(kongstate.Service.Plugins) = [].

(** A route of a stream normalizer: it is named, it listens on one valid
    port and it matches neither paths nor hosts. *)
Definition streamRoute `{Externals} (protocols : list string) (r : kongstate.Route.t) : Prop :=
  let kr := r.(kongstate.Route.Route) in
  ∃ port,
    IsValidPort port = true ∧
    kr.(kong.Route.Destinations) = [{| kong.IP := None; kong.Port := Some port |}] ∧
    kr.(kong.Route.Protocols) = protocols ∧
    kr.(kong.Route.Paths) = [] ∧
    kr.(kong.Route.Hosts) = [] ∧
    is_Some kr.(kong.Route.Name).

(** The route matches no server name, or one that is not empty. *)
Definition atMostOneSNI (r : kongstate.Route.t) : Prop :=
  r.(kongstate.Route.Route).(kong.Route.SNIs) = [] ∨
  ∃ host, host ≠ "" ∧ r.(kongstate.Route.Route).(kong.Route.SNIs) = [host].

(** The route matches no server name. *)
Definition noSNI (r : kongstate.Route.t) : Prop :=
  r.(kongstate.Route.Route).(kong.Route.SNIs) = [].

(** Property [P] holds of every route of [out], with the name of the
    service it is bound to. *)
Definition everyRoute (P : string → kongstate.Route.t → Prop)
    (out : gmap string kongstate.Service.t) : Prop :=
  ∀ serviceName r, boundTo out serviceName r → P serviceName r.

(** [out] is traced to the resources that produced it. A service is in the
    namespace of a resource one of whose iterations, or whose
    default-backend block ([other]), created it under that name. A route
    carries the back-reference (namespace and name) of the very resource
    whose iteration, or whose default-backend block, appended it to the
    service of that name. *)
Definition tracedTo {I X A} `{Object A} (resource : I → A) (resources : list I)
    (items : I → list X) (body : I → X → gset string → option Emission * gset string)
    (other : I → Emission → Prop) (out : gmap string kongstate.Service.t) : Prop :=
  (∀ serviceName service, out !! serviceName = Some service →
     ∃ i fresh r,
       i ∈ resources ∧
       service.(kongstate.Service.Namespace) = Namespace (resource i) ∧
       createdAs fresh service ∧
       ((∃ x used used', x ∈ items i ∧
                         body i x used = (Some (serviceName, fresh, r), used')) ∨
        other i (serviceName, fresh, r))) ∧
  (∀ serviceName r, boundTo out serviceName r →
     ∃ i,
       i ∈ resources ∧
       r.(kongstate.Route.Ingress) = FromK8sObject (resource i) ∧
       ((∃ pre x, iterationEmits items body i pre x serviceName r) ∨
        ∃ fresh, other i (serviceName, fresh, r))).

(** The emission of the default-backend block of a resource; the stream and
    the weighted-split normalizers have no such block. *)
Definition defaultOfV1beta1 `{Externals} (ingress : networkingv1beta1.Ingress.t)
    (e : Emission) : Prop :=
  ∃ defaultBackend,
    ingress.(networkingv1beta1.Ingress.Spec).(networkingv1beta1.IngressSpec.Backend)
      = Some defaultBackend ∧
    e = defaultBackendV1beta1 ingress defaultBackend.

Definition defaultOfV1 `{Externals} (ingress : networkingv1.Ingress.t)
    (e : Emission) : Prop :=
  ∃ defaultBackend,
    ingress.(networkingv1.Ingress.Spec).(networkingv1.IngressSpec.DefaultBackend)
      = Some defaultBackend ∧
    defaultBackendV1 ingress defaultBackend = Some e.

Definition noDefault {I} (i : I) (e : Emission) : Prop := False.

(** The patterns of the route have no repeated separator. *)
Definition cleanPatterns (r : kongstate.Route.t) : Prop :=
  Forall separatorsSingle r.(kongstate.Route.Route).(kong.Route.Paths).

(** The priority of the route. *)
Definition priorityOf (r : kongstate.Route.t) : option Z :=
  r.(kongstate.Route.Route).(kong.Route.RegexPriority).

(** No resource of [l] was created after [a]. *)
Definition newest `{Object A} (l : list A) (a : A) : Prop :=
  Forall (λ b, notAfter b a) l.

(** The route, and the service, with the route names left out. *)
Definition withoutName (r : kongstate.Route.t) : kongstate.Route.t :=
  let kr := r.(kongstate.Route.Route) in
  {| kongstate.Route.Ingress := r.(kongstate.Route.Ingress);
     kongstate.Route.Route :=
       {| kong.Route.Name := None;
          kong.Route.Paths := kr.(kong.Route.Paths);
          kong.Route.Hosts := kr.(kong.Route.Hosts);
          kong.Route.SNIs := kr.(kong.Route.SNIs);
          kong.Route.Protocols := kr.(kong.Route.Protocols);
          kong.Route.StripPath := kr.(kong.Route.StripPath);
          kong.Route.PreserveHost := kr.(kong.Route.PreserveHost);
          kong.Route.RegexPriority := kr.(kong.Route.RegexPriority);
          kong.Route.RequestBuffering := kr.(kong.Route.RequestBuffering);
          kong.Route.ResponseBuffering := kr.(kong.Route.ResponseBuffering);
          kong.Route.Destinations := kr.(kong.Route.Destinations) |} |}.

Definition withoutRouteNames (service : kongstate.Service.t) : kongstate.Service.t :=
  {| kongstate.Service.Service := service.(kongstate.Service.Service);
     kongstate.Service.Namespace := service.(kongstate.Service.Namespace);
     kongstate.Service.Backend := service.(kongstate.Service.Backend);
     kongstate.Service.Routes := withoutName <$> service.(kongstate.Service.Routes);
     kongstate.Service.Plugins := service.(kongstate.Service.Plugins) |}.

(** The IR fragment with the route names left out. *)
Definition unnamed `{Externals} (result : ingressRules) : ingressRules :=
  {| ServiceNameToServices := withoutRouteNames <$> result.(ServiceNameToServices);
     SecretNameToSNIs_ := result.(SecretNameToSNIs_) |}.

(** Two iterations do the same but for the name of the route: both skip, or
    both emit the same service under the same name with routes that differ
    in their names at most. *)
Definition sameButName (o1 o2 : option Emission) : Prop :=
  match o1, o2 with
  | None, None => True
  | Some (k1, fresh1, r1), Some (k2, fresh2, r2) =>
      k1 = k2 ∧ fresh1 = fresh2 ∧ withoutName r1 = withoutName r2
  | _, _ => False
  end.

(** [getUniqIDForRouteConfig] gives every rule a unique id. *)
Definition alwaysHashes (A : Type) `{RouteConfig A} : Prop :=
  ∀ rule : A, is_Some (getUniqIDForRouteConfig rule).

(** No header map of the resource, of a rule path or of a split, has more
    than one entry. *)
Definition fewHeaders (ingress : knative.Ingress.t) : Prop :=
  Forall (λ rule,
    Forall (λ rulePath,
      (size rulePath.(knative.HTTPIngressPath.AppendHeaders) ≤ 1)%nat ∧
      Forall (λ split, (size split.(knative.IngressBackendSplit.AppendHeaders) ≤ 1)%nat)
        rulePath.(knative.HTTPIngressPath.Splits))
      (default [] rule.(knative.IngressRule.HTTP)))
    ingress.(knative.Ingress.Spec).(knative.IngressSpec.Rules).

(** Two iterations of the rule loop over [items] never give their routes
    the same name. *)
Definition distinctNames {X} (items : list X)
    (body : X → gset string → option Emission * gset string) : Prop :=
  ∀ pre x1 mid x2 post e1 used1 e2 used2,
    items = pre ++ x1 :: mid ++ x2 :: post →
    body x1 (usedAfter body ∅ pre) = (Some e1, used1) →
    body x2 (usedAfter body ∅ (pre ++ x1 :: mid)) = (Some e2, used2) →
    routeName e1 ≠ routeName e2.

(** No rule has more than ten paths. *)
Definition atMostTenPaths {R P} (paths : R → option (list P)) (rules : list R) : Prop :=
  Forall (λ rule, (length (default [] (paths rule)) ≤ 10)%nat) rules.

(** Every unique id has [n] characters. *)
Definition fixedLengthIDs (A : Type) `{RouteConfig A} (n : nat) : Prop :=
  ∀ (rule : A) id, getUniqIDForRouteConfig rule = Some id → String.length id = n.

(** Unique ids of one character: the sum of the bytes of the textual digest
    of [Sample]. *)
Module Checksums.

Definition checksum (s : string) : string :=
  String (ascii_of_nat
            (foldr (λ c n, nat_of_ascii c + n)%nat 0%nat (list_ascii_of_string s) mod 256))
         "".

Definition uniqID_v1beta1 : RouteConfig networkingv1beta1.IngressRule.t :=
  λ rule, checksum <$> Sample.uniqID_v1beta1 rule.

Definition uniqID_v1 : RouteConfig networkingv1.IngressRule.t :=
  λ rule, checksum <$> Sample.uniqID_v1 rule.

End Checksums.

(** Unique ids without a dot: the decimal sum of the bytes of the textual
    digest of [Sample]. *)
Module Sums.

Definition sum (s : string) : string :=
  pretty (foldr (λ c n, nat_of_ascii c + n)%nat 0%nat (list_ascii_of_string s)).

Definition uniqID_v1beta1 : RouteConfig networkingv1beta1.IngressRule.t :=
  λ rule, sum <$> Sample.uniqID_v1beta1 rule.

Definition uniqID_v1 : RouteConfig networkingv1.IngressRule.t :=
  λ rule, sum <$> Sample.uniqID_v1 rule.

End Sums.

(** Property [P] holds of every service of [out], with the name it is
    stored under. *)
Definition everyService (P : string → kongstate.Service.t → Prop)
    (out : gmap string kongstate.Service.t) : Prop :=
  ∀ serviceName service, out !! serviceName = Some service → P serviceName service.

(** A service of an HTTP normalizer, stored under [serviceName]: it carries
    that name, a host, the protocol ["http"] and the defaults of the
    repository for port, timeouts and retries. *)
Definition httpService `{Externals} (serviceName : string) (service : kongstate.Service.t)
  : Prop :=
  let ks := service.(kongstate.Service.Service) in
  ks.(kong.Service.Name) = Some serviceName ∧
  is_Some ks.(kong.Service.Host) ∧
  ks.(kong.Service.Protocol) = Some "http" ∧
  ks.(kong.Service.Port) = Some DefaultHTTPPort ∧
  ks.(kong.Service.ConnectTimeout) = Some DefaultServiceTimeout ∧
  ks.(kong.Service.ReadTimeout) = Some DefaultServiceTimeout ∧
  ks.(kong.Service.WriteTimeout) = Some DefaultServiceTimeout ∧
  ks.(kong.Service.Retries) = Some DefaultRetries.

(** A route of an HTTP normalizer: it is named, it has a pattern and a
    priority, it serves HTTP and HTTPS, keeps the path and the host header,
    buffers both ways, and matches neither server names nor destinations. *)
Definition httpRoute (r : kongstate.Route.t) : Prop :=
  let kr := r.(kongstate.Route.Route) in
  is_Some kr.(kong.Route.Name) ∧
  kr.(kong.Route.Paths) ≠ [] ∧
  is_Some kr.(kong.Route.RegexPriority) ∧
  kr.(kong.Route.Protocols) = ["http"; "https"] ∧
  kr.(kong.Route.StripPath) = Some false ∧
  kr.(kong.Route.PreserveHost) = Some true ∧
  kr.(kong.Route.RequestBuffering) = Some true ∧
  kr.(kong.Route.ResponseBuffering) = Some true ∧
  kr.(kong.Route.SNIs) = [] ∧
  kr.(kong.Route.Destinations) = [].

(** The route matches any host, or one host that is not empty. *)
Definition atMostOneHost (r : kongstate.Route.t) : Prop :=
  r.(kongstate.Route.Route).(kong.Route.Hosts) = [] ∨
  ∃ host, host ≠ "" ∧ r.(kongstate.Route.Route).(kong.Route.Hosts) = [host].

(** The plugins of a weighted-split service created for [rulePath]: none
    when neither the selected split nor the path appends a header, and else
    the one request transformer that adds these headers, in some order. *)
Definition pluginsFor (rulePath : knative.HTTPIngressPath.t)
    (plugins : list kong.Plugin.t) : Prop :=
  let knativeBackend := knativeSelectSplit rulePath.(knative.HTTPIngressPath.Splits) in
  let wanted :=
    rangeHeaders (map_to_list knativeBackend.(knative.IngressBackendSplit.AppendHeaders)) ++
    rangeHeaders (map_to_list rulePath.(knative.HTTPIngressPath.AppendHeaders)) in
  (wanted = [] ∧ plugins = []) ∨
  ∃ headers,
    headers ≡ₚ wanted ∧ headers ≠ [] ∧
    plugins = [{| kong.Plugin.Name := Some "request-transformer";
                  kong.Plugin.Config := [("add", [("headers", headers)])] |}].

(** The name under which the weighted-split normalizer stores the service
    of [rulePath]. *)
Definition serviceNameKnative (rulePath : knative.HTTPIngressPath.t) : string :=
  let knativeBackend := knativeSelectSplit rulePath.(knative.HTTPIngressPath.Splits) in
  knativeBackend.(knative.IngressBackendSplit.ServiceNamespace) +:+ "." +:+
  knativeBackend.(knative.IngressBackendSplit.ServiceName) +:+ "." +:+
  intstr.ToString knativeBackend.(knative.IngressBackendSplit.ServicePort).

(** [rulePath] is a rule path of a resource of [l]. *)
Definition rulePathOf (l : list knative.Ingress.t) (rulePath : knative.HTTPIngressPath.t)
  : Prop :=
  ∃ ingress rule paths,
    ingress ∈ l ∧
    rule ∈ ingress.(knative.Ingress.Spec).(knative.IngressSpec.Rules) ∧
    rule.(knative.IngressRule.HTTP) = Some paths ∧
    rulePath ∈ paths.

(** Every port that [IsValidPort] accepts fits in 32 bits. *)
Definition validPortsFit `{Externals} : Prop :=
  ∀ port, IsValidPort port = true → -2147483648 ≤ port < 2147483648.

(** ** The generated reconcilers

    The nine [Reconcile] methods of package [configuration] are generated
    from one template; they differ in the kind of the watched object and in
    the cache store. What a reconciler does is to call the API server, the
    clock, the cache stores and the Kong admin API: [Reconcile] is written as
    a program over these calls ([Prog]), and [run] plays it in a world that
    answers them. *)

Module configuration.

(** [types.NamespacedName] *)
Record NamespacedName := { Namespace : string; Name : string }.

(** What [Reconcile] reads of a watched object: the deletion timestamp (a
    nil or zero time is [None]) and the finalizers. *)
Record Object := {
  DeletionTimestamp : option Z;
  Finalizers : list string;
}.

(** [obj.SetFinalizers(finalizers)] *)
Definition SetFinalizers (obj : Object) (finalizers : list string) : Object :=
  {| DeletionTimestamp := obj.(DeletionTimestamp); Finalizers := finalizers |}.

(** [ctrl.Result] *)
Record Result := { Requeue : bool; RequeueAfter : Z }.

(** The zero value [ctrl.Result{}]. *)
Definition emptyResult : Result := {| Requeue := false; RequeueAfter := 0 |}.

(** The reconcilers, and the members of [mgrutils.CacheStores] they use. *)
Inductive Kind :=
| NetV1Ingress | NetV1Beta1Ingress | ExtV1Beta1Ingress
| KongV1KongIngress | KongV1KongPlugin | KongV1KongClusterPlugin | KongV1KongConsumer
| KongV1Alpha1UDPIngress | KongV1Beta1TCPIngress.

Inductive Store :=
| IngressV1 | IngressV1beta1 | KongIngress | Plugin | ClusterPlugin | Consumer
| UDPIngress | TCPIngress.

(** The store that the reconciler of a kind deletes from and adds to. *)
Definition storeOf (kind : Kind) : Store :=
  match kind with
  | NetV1Ingress => IngressV1
  | NetV1Beta1Ingress => IngressV1beta1
  | ExtV1Beta1Ingress => IngressV1beta1
  | KongV1KongIngress => KongIngress
  | KongV1KongPlugin => Plugin
  | KongV1KongClusterPlugin => ClusterPlugin
  | KongV1KongConsumer => Consumer
  | KongV1Alpha1UDPIngress => UDPIngress
  | KongV1Beta1TCPIngress => TCPIngress
  end.

(** Go's [error] values with the test [apierrors.IsNotFound], and what the
    reconcilers take from [ctrlutils], which is not among the sources. *)
Class Ctrlutils := {
  Error : Type;
  IsNotFound : Error → bool;
  KongIngressFinalizer : string;
  HasFinalizer : Object → string → bool;
}.

Section Programs.
Context `{Ctrlutils}.

(** The calls of a reconciler, in the order of the template: [r.Get],
    [time.Now], [CacheStores.<store>.Delete], [CacheStores.<store>.Add],
    [ctrlutils.UpdateKongAdmin], [ctrlutils.CleanupFinalizer] and
    [r.Client.Update]. *)
Inductive Call :=
| Get (kind : Kind) (name : NamespacedName)
| Now
| CacheDelete (store : Store) (obj : Object)
| CacheAdd (store : Store) (obj : Object)
| UpdateKongAdmin
| CleanupFinalizer (name : NamespacedName) (obj : Object)
| ClientUpdate (obj : Object).

(** What a call returns: [Get] fills the object or fails, the clock gives
    the time, [CleanupFinalizer] gives a result and an error, and the others
    an error or nil. *)
Definition Answer (c : Call) : Type :=
  match c with
  | Get _ _ => (Error + Object)%type
  | Now => Z
  | CleanupFinalizer _ _ => (Result * option Error)%type
  | CacheDelete _ _ | CacheAdd _ _ | UpdateKongAdmin | ClientUpdate _ => option Error
  end.

(** A program: it returns, or makes a call and goes on with the answer. *)
Inductive Prog (A : Type) :=
| Ret (a : A)
| Do (c : Call) (k : Answer c → Prog A).
Arguments Ret {A} a.
Arguments Do {A} c k.

Fixpoint bind {A B} (f : A → Prog B) (p : Prog A) : Prog B :=
  match p with
  | Ret a => f a
  | Do c k => Do c (λ answer, bind f (k answer))
  end.

Definition call (c : Call) : Prog (Answer c) := Do c Ret.

#[export] Instance Prog_ret : MRet Prog := @Ret.
#[export] Instance Prog_bind : MBind Prog := @bind.

(** [client.IgnoreNotFound] *)
Definition IgnoreNotFound (err : Error) : option Error :=
  if IsNotFound err then None else Some err.

(** [!obj.DeletionTimestamp.IsZero() && time.Now().After(obj.DeletionTimestamp.Time)]:
    the clock is read only when the timestamp is set. *)
Definition beingDeleted (obj : Object) : Prog bool :=
  match obj.(DeletionTimestamp) with
  | None => mret false
  | Some t => now ← call Now; mret (t <? now)
  end.

(** The [Reconcile] method of the reconciler of [kind]. *)
Definition Reconcile (kind : Kind) (req : NamespacedName) : Prog (Result * option Error) :=
  got ← call (Get kind req);
  match got with
  | inl err => mret (emptyResult, IgnoreNotFound err)
  | inr obj =>
      deleting ← beingDeleted obj;
      if deleting : bool then
        deleted ← call (CacheDelete (storeOf kind) obj);
        match deleted with
        | Some err => mret (emptyResult, Some err)
        | None =>
            updated ← call UpdateKongAdmin;
            match updated with
            | Some err => mret (emptyResult, Some err)
            | None => call (CleanupFinalizer req obj)
            end
        end
      else if negb (HasFinalizer obj KongIngressFinalizer) then
        let finalizers := obj.(Finalizers) in
        let obj := SetFinalizers obj (finalizers ++ [KongIngressFinalizer]) in
        updated ← call (ClientUpdate obj);
        match updated with
        | Some err => mret (emptyResult, Some err)
        | None => mret ({| Requeue := true; RequeueAfter := 0 |}, None)
        end
      else
        added ← call (CacheAdd (storeOf kind) obj);
        match added with
        | Some err => mret (emptyResult, Some err)
        | None =>
            updated ← call UpdateKongAdmin;
            mret (emptyResult, updated)
        end
  end.

(** A world answers every call; [run] plays a program in a world and gives
    what it returns with the calls it made, in order. *)
Definition World : Type := ∀ c : Call, Answer c.

Fixpoint run {A} (w : World) (p : Prog A) : A * list Call :=
  match p with
  | Ret a => (a, [])
  | Do c k => let '(a, calls) := run w (k (w c)) in (a, c :: calls)
  end.

(** The error that the answer to a call carries, if any. *)
Definition failure (w : World) (c : Call) : option Error :=
  match c return Answer c → option Error with
  | Get _ _ => λ answer, match answer with inl err => Some err | inr _ => None end
  | Now => λ _, None
  | CleanupFinalizer _ _ => λ answer, answer.2
  | CacheDelete _ _ | CacheAdd _ _ | UpdateKongAdmin | ClientUpdate _ => λ answer, answer
  end (w c).

(** The deletion timestamp of [obj] is set and past in the world [w]. *)
Definition pastDeletion (w : World) (obj : Object) : Prop :=
  ∃ t, obj.(DeletionTimestamp) = Some t ∧ t < w Now.

End Programs.

Arguments Ret {_ A} a.
Arguments Do {_ A} c k.

(** A concrete [ctrlutils] and worlds, to run the reconcilers. *)
Module Worlds.

#[export] Instance ctrlutils : Ctrlutils := {|
  Error := string;
  IsNotFound := λ err, String.eqb err "not found";
  KongIngressFinalizer := "configuration.konghq.com/ingress";
  HasFinalizer := λ obj finalizer, bool_decide (finalizer ∈ obj.(Finalizers));
|}.

(** The world in which [Get] finds [obj], the clock shows [now] and every
    other call succeeds. *)
Definition calm (obj : Object) (now : Z) : World :=
  λ c,
    match c return Answer c with
    | Get _ _ => inr obj
    | Now => now
    | CleanupFinalizer _ _ => (emptyResult, None)
    | CacheDelete _ _ | CacheAdd _ _ | UpdateKongAdmin | ClientUpdate _ => None
    end.

(** The world in which [Get] finds nothing. *)
Definition lost : World :=
  λ c,
    match c return Answer c with
    | Get _ _ => inl "not found"
    | Now => 0
    | CleanupFinalizer _ _ => (emptyResult, None)
    | CacheDelete _ _ | CacheAdd _ _ | UpdateKongAdmin | ClientUpdate _ => None
    end.

(** An object that is new, one that is settled and one that is on its way
    out. *)
Definition fresh : Object := {| DeletionTimestamp := None; Finalizers := [] |}.
Definition settled : Object :=
  {| DeletionTimestamp := None;
     Finalizers := ["configuration.konghq.com/ingress"] |}.
Definition leaving : Object :=
  {| DeletionTimestamp := Some 10;
     Finalizers := ["configuration.konghq.com/ingress"] |}.

Definition request : NamespacedName := {| Namespace := "default"; Name := "web" |}.

End Worlds.

End configuration.

(** * Properties of the embedding *)

(** ** Strings *)

Lemma isEmpty_true s : isEmpty s = true ↔ s = "".
Proof. destruct s; simpl; split; congruence. Qed.

Lemma isEmpty_false s : isEmpty s = false ↔ s ≠ "".
Proof. destruct s; simpl; split; congruence. Qed.

(** C1. The path and priority table: ["/foo"] with [Exact] gives the single
    pattern ["/foo$"] and priority 300; ["/foo"] with [Prefix] gives
    ["/foo$"] and ["/foo/"] with priority 200; the empty path with [Prefix]
    gives ["/"] with priority 200; with [ImplementationSpecific] the empty
    path gives ["/"] and every other path is passed through unchanged, with
    priority 100; and the priorities are ordered Exact > Prefix >
    ImplementationSpecific. *)
Theorem path_priority_table :
  pathsFromK8s "/foo" PathTypeExact = Some ["/foo$"] ∧
  priorityForPath PathTypeExact = 300 ∧
  pathsFromK8s "/foo" PathTypePrefix = Some ["/foo$"; "/foo/"] ∧
  pathsFromK8s "" PathTypePrefix = Some ["/"] ∧
  priorityForPath PathTypePrefix = 200 ∧
  pathsFromK8s "" PathTypeImplementationSpecific = Some ["/"] ∧
  (∀ path : string, path ≠ "" →
     pathsFromK8s path PathTypeImplementationSpecific = Some [path]) ∧
  priorityForPath PathTypeImplementationSpecific = 100 ∧
  priorityForPath PathTypeExact > priorityForPath PathTypePrefix ∧
  priorityForPath PathTypePrefix > priorityForPath PathTypeImplementationSpecific.
Proof.
  repeat split; try reflexivity.
  intros path Hne. unfold pathsFromK8s. simpl.
  apply isEmpty_false in Hne. by rewrite Hne.
Qed.

Lemma path_priority_table_witness :
  "/a/b" ≠ "" ∧ pathsFromK8s "/a/b" PathTypeImplementationSpecific = Some ["/a/b"].
Proof.
  split; [discriminate |].
  apply (proj1 (proj2 (proj2 (proj2 (proj2 (proj2 (proj2 path_priority_table))))))).
  discriminate.
Defined.

(** ** The stable sort by creation timestamp *)

Section Sorting.
Context {A : Type} `{Object A}.

Lemma createdBefore_spec (a b : A) :
  createdBefore a b = true ↔ CreationTimestamp a < CreationTimestamp b.
Proof. unfold createdBefore, metav1.Before. apply Z.ltb_lt. Qed.

Lemma createdBefore_false (a b : A) :
  createdBefore a b = false ↔ notAfter b a.
Proof. unfold createdBefore, metav1.Before, notAfter. apply Z.ltb_ge. Qed.

Lemma insertSorted_perm (x : A) l : insertSorted createdBefore x l ≡ₚ x :: l.
Proof.
  induction l as [|y l IH]; simpl; [done |].
  destruct (createdBefore x y); [done |].
  rewrite IH. apply Permutation_swap.
Qed.

Lemma SliceStable_snoc (l : list A) x :
  SliceStable createdBefore (l ++ [x]) =
  insertSorted createdBefore x (SliceStable createdBefore l).
Proof. unfold SliceStable. by rewrite foldl_app. Qed.

Lemma SliceStable_perm (l : list A) : SliceStable createdBefore l ≡ₚ l.
Proof.
  induction l as [|x l IH] using rev_ind; [done |].
  rewrite SliceStable_snoc, insertSorted_perm, IH.
  by rewrite Permutation_app_comm.
Qed.

Lemma insertSorted_sorted (x : A) l :
  StronglySorted notAfter l →
  StronglySorted notAfter (insertSorted createdBefore x l).
Proof.
  induction 1 as [|y l Hl IH Hy]; simpl.
  - repeat constructor.
  - destruct (createdBefore x y) eqn:Hxy.
    + apply createdBefore_spec in Hxy.
      constructor; [by constructor |].
      constructor; [unfold notAfter; lia |].
      eapply Forall_impl; [exact Hy |]. unfold notAfter. intros; simpl in *; lia.
    + apply createdBefore_false in Hxy.
      constructor; [done |].
      rewrite insertSorted_perm. by constructor.
Qed.

Lemma SliceStable_sorted (l : list A) :
  StronglySorted notAfter (SliceStable createdBefore l).
Proof.
  induction l as [|x l IH] using rev_ind; [constructor |].
  rewrite SliceStable_snoc. by apply insertSorted_sorted.
Qed.

Lemma insertSorted_behind (x : A) l :
  Forall (λ y, notAfter y x) l → insertSorted createdBefore x l = l ++ [x].
Proof.
  induction 1 as [|y l Hy _ IH]; simpl; [done |].
  apply createdBefore_false in Hy. by rewrite Hy, IH.
Qed.

Lemma StronglySorted_snoc_inv (l : list A) x :
  StronglySorted notAfter (l ++ [x]) →
  StronglySorted notAfter l ∧ Forall (λ y, notAfter y x) l.
Proof.
  induction l as [|y l IH]; simpl; intros Hs.
  - split; constructor.
  - apply StronglySorted_inv in Hs as [Hs Hy].
    destruct (IH Hs) as [Hl Hx]. split.
    + constructor; [done |]. apply Forall_app in Hy. tauto.
    + constructor; [| done].
      apply Forall_app in Hy as [_ Hy]. by apply Forall_inv in Hy.
Qed.

Lemma SliceStable_sorted_id (l : list A) :
  StronglySorted notAfter l → SliceStable createdBefore l = l.
Proof.
  induction l as [|x l IH] using rev_ind; [done |].
  intros [Hl Hx]%StronglySorted_snoc_inv.
  rewrite SliceStable_snoc, IH by done. by apply insertSorted_behind.
Qed.

Lemma createdAt_none t (l : list A) :
  Forall (λ a, CreationTimestamp a ≠ t) l → createdAt t l = [].
Proof.
  unfold createdAt. induction 1 as [|a l Ha _ IH]; [done |].
  by rewrite filter_cons_False.
Qed.

Lemma createdAt_insertSorted t (x : A) l :
  StronglySorted notAfter l →
  createdAt t (insertSorted createdBefore x l) = createdAt t (l ++ [x]).
Proof.
  unfold createdAt.
  induction 1 as [|y l Hl IH Hy]; simpl; [done |].
  destruct (createdBefore x y) eqn:Hxy.
  - apply createdBefore_spec in Hxy.
    rewrite !filter_cons, filter_app, filter_cons, filter_nil.
    assert (Hnone : filter (λ a : A, CreationTimestamp a = t) l = []
                    ∨ CreationTimestamp x ≠ t).
    { destruct (decide (CreationTimestamp x = t)) as [Hx|]; [left | by right].
      apply createdAt_none. eapply Forall_impl; [exact Hy |].
      unfold notAfter. intros a Ha; simpl in *. lia. }
    destruct Hnone as [Hn | Hn]; repeat case_decide;
      rewrite ?Hn, ?app_nil_r; simpl; try done; lia.
  - rewrite !filter_cons, IH. by case_decide.
Qed.

Lemma SliceStable_stable t (l : list A) :
  createdAt t (SliceStable createdBefore l) = createdAt t l.
Proof.
  induction l as [|x l IH] using rev_ind; [done |].
  rewrite SliceStable_snoc, createdAt_insertSorted by apply SliceStable_sorted.
  unfold createdAt in *. by rewrite !filter_app, IH.
Qed.

Lemma SliceStable_sortedInPlace (l : list A) :
  sortedInPlace l (SliceStable createdBefore l).
Proof.
  split_and!.
  - apply SliceStable_perm.
  - apply SliceStable_sorted.
  - intros t. apply SliceStable_stable.
  - split; [apply SliceStable_sorted_id |].
    intros Heq. rewrite <-Heq. apply SliceStable_sorted.
Qed.

End Sorting.

(** ** The traffic-split selector *)

Lemma knativeSelectSplit_scan_snoc res rest s :
  knativeSelectSplit_scan res (rest ++ [s]) =
  if (weight s >? weight (knativeSelectSplit_scan res rest))%Z then s
  else knativeSelectSplit_scan res rest.
Proof.
  revert res. induction rest as [|x rest IH]; intros res; simpl; [done |].
  destruct (_ >? _)%Z; apply IH.
Qed.

Lemma knativeSelectSplit_scan_max res rest :
  ∃ before selected after,
    res :: rest = before ++ selected :: after ∧
    knativeSelectSplit_scan res rest = selected ∧
    Forall (λ s, weight s < weight selected) before ∧
    Forall (λ s, weight s ≤ weight selected) after.
Proof.
  induction rest as [|s rest IH] using rev_ind.
  - exists [], res, []. by repeat split.
  - destruct IH as (before & selected & after & Heq & Hsel & Hb & Ha).
    rewrite knativeSelectSplit_scan_snoc, Hsel.
    destruct (weight s >? weight selected)%Z eqn:Hgt.
    + apply Z.gtb_lt in Hgt.
      exists (before ++ selected :: after), s, []. split_and!; [| done | | done].
      * by rewrite app_comm_cons, Heq.
      * apply Forall_app. split; [| constructor].
        -- eapply Forall_impl; [exact Hb |]. intros; simpl in *; lia.
        -- lia.
        -- eapply Forall_impl; [exact Ha |]. intros; simpl in *; lia.
    + assert (weight s ≤ weight selected)
        by (rewrite Z.gtb_ltb in Hgt; apply Z.ltb_ge in Hgt; lia).
      exists before, selected, (after ++ [s]). split_and!; [| done | done |].
      * by rewrite app_comm_cons, Heq, <-app_assoc.
      * apply Forall_app. split; [done |]. by repeat constructor.
Qed.

(** C6. The traffic-split selector returns the empty backend for the empty
    list, the sole candidate of a singleton, and otherwise the leftmost
    candidate whose weight is greater than that of every earlier candidate
    and not less than that of any later one: of weights 20, 70, 10 it
    selects the second candidate, and of the tie 50, 50 the first. *)
Theorem knativeSelectSplit_first_maximum :
  knativeSelectSplit [] = emptySplit ∧
  (∀ only, knativeSelectSplit [only] = only) ∧
  (∀ splits, splits ≠ [] →
     ∃ before selected after,
       splits = before ++ selected :: after ∧
       knativeSelectSplit splits = selected ∧
       Forall (λ s, weight s < weight selected) before ∧
       Forall (λ s, weight s ≤ weight selected) after) ∧
  (∀ a b c, weight a = 20 → weight b = 70 → weight c = 10 →
     knativeSelectSplit [a; b; c] = b) ∧
  (∀ a b, weight a = 50 → weight b = 50 → knativeSelectSplit [a; b] = a).
Proof.
  split_and!; [done | done | | |].
  - intros [|res rest] Hne; [done |]. apply knativeSelectSplit_scan_max.
  - intros a b c Ha Hb Hc. unfold knativeSelectSplit, weight in *; simpl.
    by rewrite Hb, Ha, Hc.
  - intros a b Ha Hb. unfold knativeSelectSplit, weight in *; simpl.
    by rewrite Hb, Ha.
Qed.

Lemma knativeSelectSplit_first_maximum_witness :
  knativeSelectSplit
    [Examples.split "A" 20 []; Examples.split "B" 70 []; Examples.split "C" 10 []]
  = Examples.split "B" 70 [] ∧
  knativeSelectSplit [Examples.split "A" 50 []; Examples.split "B" 50 []]
  = Examples.split "A" 50 [] ∧
  ∃ before selected after,
    [Examples.split "A" 50 []; Examples.split "B" 50 []] = before ++ selected :: after ∧
    knativeSelectSplit [Examples.split "A" 50 []; Examples.split "B" 50 []] = selected ∧
    Forall (λ s, weight s < weight selected) before ∧
    Forall (λ s, weight s ≤ weight selected) after.
Proof.
  destruct knativeSelectSplit_first_maximum as (_ & _ & Hmax & H3 & H2).
  split_and!.
  - apply H3; reflexivity.
  - apply H2; reflexivity.
  - apply Hmax. discriminate.
Defined.

(** ** What a call does to the caller's slice *)

Section CallerSlice.
Context `{Externals}.
Context `{!RouteConfig networkingv1beta1.IngressRule.t}.
Context `{!RouteConfig networkingv1.IngressRule.t}.
Context `{!RouteConfig configurationv1beta1.IngressRule.t}.
Context `{!RouteConfig configurationv1beta1.UDPIngressRule.t}.
Context `{!RouteConfig knative.IngressRule.t}.

Lemma fromIngressV1beta1_slice l hashed :
  (fromIngressV1beta1 l hashed).2 = SliceStable createdBefore l.
Proof. unfold fromIngressV1beta1. by destruct (foldl _ _ _). Qed.

Lemma fromIngressV1_slice l hashed :
  (fromIngressV1 l hashed).2 = SliceStable createdBefore l.
Proof. unfold fromIngressV1. by destruct (foldl _ _ _). Qed.

(** C9, as the code has it. Every normalizer sorts the slice it is given in
    place: when the call returns, the caller's list holds the same resources
    ordered by creation timestamp, oldest first, resources of equal age in
    their original order; it is as it was before the call exactly when it
    was ordered that way already. *)
Theorem normalizers_sort_caller_slice (hashed : bool) (order : MapOrder) :
  (∀ l, sortedInPlace l (fromIngressV1beta1 l hashed).2) ∧
  (∀ l, sortedInPlace l (fromIngressV1 l hashed).2) ∧
  (∀ l, sortedInPlace l (fromTCPIngressV1beta1 l hashed).2) ∧
  (∀ l, sortedInPlace l (fromUDPIngressV1beta1 l hashed).2) ∧
  (∀ l, sortedInPlace l (fromKnativeIngress order l hashed).2).
Proof.
  split_and!; intros l.
  - rewrite fromIngressV1beta1_slice. apply SliceStable_sortedInPlace.
  - rewrite fromIngressV1_slice. apply SliceStable_sortedInPlace.
  - apply SliceStable_sortedInPlace.
  - apply SliceStable_sortedInPlace.
  - apply SliceStable_sortedInPlace.
Qed.

End CallerSlice.

Section CallerSliceExamples.
Import Sample.

(** C9, as stated, fails: a snapshot that lists the newer resource first
    comes back reordered. *)
Lemma caller_slice_reordered :
  (fromIngressV1 Examples.newerFirst false).2 ≠ Examples.newerFirst ∧
  (fromIngressV1 Examples.newerFirst false).2 = reverse Examples.newerFirst.
Proof. split; [| reflexivity]. vm_compute. discriminate. Qed.

Lemma normalizers_sort_caller_slice_witness :
  sortedInPlace Examples.newerFirst (fromIngressV1 Examples.newerFirst true).2.
Proof.
  apply (proj1 (proj2 (normalizers_sort_caller_slice true Sample.ascending))).
Defined.

End CallerSliceExamples.

(** ** Services only gain routes *)

Lemma appendRoutes_nil service : appendRoutes service [] = service.
Proof. destruct service. unfold appendRoutes; simpl. by rewrite app_nil_r. Qed.

Lemma appendRoutes_app service extra extra' :
  appendRoutes (appendRoutes service extra) extra' = appendRoutes service (extra ++ extra').
Proof. unfold appendRoutes; simpl. by rewrite app_assoc. Qed.

Lemma appendToRoutes_appendRoutes service r :
  appendToRoutes service r = appendRoutes service [r].
Proof. done. Qed.

#[export] Instance extends_preorder : PreOrder extends.
Proof.
  split.
  - intros m k s Hk. exists []. by rewrite appendRoutes_nil.
  - intros m1 m2 m3 H12 H23 k s Hk.
    destruct (H12 k s Hk) as [e1 H2]. destruct (H23 _ _ H2) as [e2 H3].
    exists (e1 ++ e2). by rewrite <-appendRoutes_app.
Qed.

Lemma appendRoute_extends k fresh r m : extends m (appendRoute k fresh r m).
Proof.
  intros k' s Hk'. unfold appendRoute.
  destruct (decide (k = k')) as [<- | Hne].
  - rewrite Hk', lookup_insert_eq. by exists [r].
  - rewrite lookup_insert_ne by done. exists []. by rewrite appendRoutes_nil.
Qed.

Lemma appendRoute_existing k fresh r m service :
  m !! k = Some service →
  appendRoute k fresh r m = <[k := appendRoutes service [r]]> m.
Proof. intros Hk. unfold appendRoute. by rewrite Hk. Qed.

Lemma appendRoute_lookup_ne k k' fresh r m :
  k ≠ k' → appendRoute k fresh r m !! k' = m !! k'.
Proof. intros Hne. unfold appendRoute. by rewrite lookup_insert_ne. Qed.

Lemma appendRoute_lookup k fresh r m :
  appendRoute k fresh r m !! k = Some (appendRoutes (default fresh (m !! k)) [r]).
Proof. unfold appendRoute. by rewrite lookup_insert_eq. Qed.

Lemma boundTo_extends m m' k r : boundTo m k r → extends m m' → boundTo m' k r.
Proof.
  intros (s & Hk & Hr) Hext. destruct (Hext k s Hk) as [extra Hk'].
  exists (appendRoutes s extra). split; [done |]. simpl. set_solver.
Qed.

Lemma boundTo_appendRoute k fresh r m : boundTo (appendRoute k fresh r m) k r.
Proof.
  eexists. split; [apply appendRoute_lookup |]. simpl. set_solver.
Qed.

Lemma boundTo_appendRoute_inv k0 fresh r0 m k r :
  fresh.(kongstate.Service.Routes) = [] →
  boundTo (appendRoute k0 fresh r0 m) k r →
  boundTo m k r ∨ (k = k0 ∧ r = r0).
Proof.
  intros Hfresh (s & Hk & Hr).
  destruct (decide (k0 = k)) as [<- | Hne].
  - rewrite appendRoute_lookup in Hk. injection Hk as <-. simpl in Hr.
    apply elem_of_app in Hr as [Hr | Hr]; [| right; set_solver].
    destruct (m !! k0) as [s |] eqn:Hm; simpl in Hr.
    + left. by exists s.
    + rewrite Hfresh in Hr. by apply elem_of_nil in Hr.
  - rewrite appendRoute_lookup_ne in Hk by done. left. by exists s.
Qed.

Lemma keyedByName_appendRoute k fresh r m :
  fresh.(kongstate.Service.Service).(kong.Service.Name) = Some k →
  keyedByName m → keyedByName (appendRoute k fresh r m).
Proof.
  intros Hfresh Hm k' s.
  destruct (decide (k = k')) as [<- | Hne].
  - rewrite appendRoute_lookup. intros [= <-]. simpl.
    destruct (m !! k) as [s |] eqn:Hk; simpl; [by apply Hm | done].
  - rewrite appendRoute_lookup_ne by done. apply Hm.
Qed.

(** ** Generic facts on the loops *)

Section Loops.
Context {X : Type} (body : X → gset string → option Emission * gset string).

Lemma commit_snd m res : (commit m res).2 = res.2.
Proof. by destruct res as [[[[??]?]|] ?]. Qed.

Lemma commit_extends m res : extends m (commit m res).1.
Proof.
  destruct res as [[[[k f] r]|] u]; simpl; [apply appendRoute_extends | done].
Qed.

Lemma runLoop_snoc st items x :
  runLoop body st (items ++ [x]) =
  commit (runLoop body st items).1 (body x (runLoop body st items).2).
Proof. unfold runLoop. by rewrite foldl_app. Qed.

Lemma runLoop_app st items items' :
  runLoop body st (items ++ items') = runLoop body (runLoop body st items) items'.
Proof. unfold runLoop. by rewrite foldl_app. Qed.

Lemma runLoop_cons st x items :
  runLoop body st (x :: items) = runLoop body (commit st.1 (body x st.2)) items.
Proof. done. Qed.

Lemma usedAfter_snoc u items x :
  usedAfter body u (items ++ [x]) = (body x (usedAfter body u items)).2.
Proof. unfold usedAfter. by rewrite foldl_app. Qed.

Lemma runLoop_used m u items :
  (runLoop body (m, u) items).2 = usedAfter body u items.
Proof.
  induction items as [|x items IH] using rev_ind; [done |].
  by rewrite runLoop_snoc, usedAfter_snoc, commit_snd, IH.
Qed.

Lemma runLoop_extends st items : extends st.1 (runLoop body st items).1.
Proof.
  induction items as [|x items IH] using rev_ind; [done |].
  rewrite runLoop_snoc. etrans; [exact IH | apply commit_extends].
Qed.

Lemma runLoop_complete m u pre x post k fresh r u' :
  body x (usedAfter body u pre) = (Some (k, fresh, r), u') →
  boundTo (runLoop body (m, u) (pre ++ x :: post)).1 k r.
Proof.
  intros Hx. rewrite runLoop_app, runLoop_cons, runLoop_used, Hx. simpl.
  eapply boundTo_extends; [apply boundTo_appendRoute |].
  apply (runLoop_extends (_, _)).
Qed.

Lemma runLoop_sound m u items k r :
  (∀ x used k fresh r used',
     body x used = (Some (k, fresh, r), used') → fresh.(kongstate.Service.Routes) = []) →
  boundTo (runLoop body (m, u) items).1 k r →
  boundTo m k r ∨
  ∃ pre x post fresh u',
    items = pre ++ x :: post ∧
    body x (usedAfter body u pre) = (Some (k, fresh, r), u').
Proof.
  intros Hfresh.
  induction items as [|x items IH] using rev_ind; [by left |].
  rewrite runLoop_snoc, runLoop_used.
  destruct (body x (usedAfter body u items)) as [[[[k0 f0] r0]|] u0] eqn:Hx; simpl.
  - intros [Hold | [-> ->]]%boundTo_appendRoute_inv; [| | by eapply Hfresh].
    + destruct (IH Hold) as [? | (pre & y & post & f & u' & -> & Hy)]; [by left |].
      right. exists pre, y, (post ++ [x]), f, u'. by rewrite <-app_assoc.
    + right. by exists items, x, [], f0, u0.
  - intros Hold.
    destruct (IH Hold) as [? | (pre & y & post & f & u' & -> & Hy)]; [by left |].
    right. exists pre, y, (post ++ [x]), f, u'. by rewrite <-app_assoc.
Qed.

Lemma runLoop_keyedByName st items :
  (∀ x used k fresh r used',
     body x used = (Some (k, fresh, r), used') →
     fresh.(kongstate.Service.Service).(kong.Service.Name) = Some k) →
  keyedByName st.1 → keyedByName (runLoop body st items).1.
Proof.
  intros Hname Hst.
  induction items as [|x items IH] using rev_ind; [done |].
  rewrite runLoop_snoc.
  destruct (body x _) as [[[[k0 f0] r0]|] u0] eqn:Hx; simpl; [| done].
  apply keyedByName_appendRoute; [by eapply Hname | done].
Qed.

End Loops.

Lemma runLoop_bind {X Y} (body : X → gset string → option Emission * gset string)
    (g : Y → list X) st (l : list Y) :
  runLoop body st (l ≫= g) = foldl (λ st y, runLoop body st (g y)) st l.
Proof.
  revert st. induction l as [|y l IH]; intros st; [done |].
  rewrite bind_cons, runLoop_app. simpl. apply IH.
Qed.

Lemma runLoop_fmap {X Y} (body : X → gset string → option Emission * gset string)
    (g : Y → X) st (l : list Y) :
  runLoop body st (g <$> l) = runLoop (λ y, body (g y)) st l.
Proof. unfold runLoop. by rewrite foldl_fmap. Qed.

Lemma runLoop_ext {X} (body body' : X → gset string → option Emission * gset string)
    st (l : list X) :
  (∀ x u, body x u = body' x u) → runLoop body st l = runLoop body' st l.
Proof.
  intros Hext. revert st. induction l as [|x l IH]; intros st; [done |].
  rewrite !runLoop_cons, Hext. apply IH.
Qed.

Section Resources.
Context {I X : Type} (items : I → list X).
Context (body : I → X → gset string → option Emission * gset string).

Lemma runResources_snoc m l i :
  runResources items body m (l ++ [i]) =
  (runLoop (body i) (runResources items body m l, ∅) (items i)).1.
Proof. unfold runResources. by rewrite foldl_app. Qed.

Lemma runResources_app m l l' :
  runResources items body m (l ++ l') =
  runResources items body (runResources items body m l) l'.
Proof. unfold runResources. by rewrite foldl_app. Qed.

Lemma runResources_extends m l : extends m (runResources items body m l).
Proof.
  induction l as [|i l IH] using rev_ind; [done |].
  rewrite runResources_snoc. etrans; [exact IH |].
  apply (runLoop_extends _ (_, _)).
Qed.

(** Processing stops nowhere: a route appended by any iteration of any
    resource is in the final services. *)
Lemma runResources_complete m l i pre x k r :
  i ∈ l → iterationEmits items body i pre x k r →
  boundTo (runResources items body m l) k r.
Proof.
  intros (l1 & l2 & ->)%list_elem_of_split (post & fresh & u' & Hitems & Hx).
  rewrite runResources_app. simpl.
  eapply boundTo_extends; [| apply runResources_extends].
  rewrite Hitems. by eapply runLoop_complete.
Qed.

(** Nothing else adds a route. *)
Lemma runResources_sound m l k r :
  (∀ i x used k fresh r used',
     body i x used = (Some (k, fresh, r), used') → fresh.(kongstate.Service.Routes) = []) →
  boundTo (runResources items body m l) k r →
  boundTo m k r ∨ ∃ i pre x, i ∈ l ∧ iterationEmits items body i pre x k r.
Proof.
  intros Hfresh.
  induction l as [|i l IH] using rev_ind; [by left |].
  rewrite runResources_snoc.
  intros [Hold | (pre & x & post & f & u' & Hitems & Hx)]%runLoop_sound;
    [| | by eapply Hfresh].
  - destruct (IH Hold) as [? | (i' & pre & x & Hi' & Hemit)]; [by left |].
    right. exists i', pre, x. split; [set_solver | done].
  - right. exists i, pre, x. split; [set_solver |]. by exists post, f, u'.
Qed.

Lemma runResources_keyedByName m l :
  (∀ i x used k fresh r used',
     body i x used = (Some (k, fresh, r), used') →
     fresh.(kongstate.Service.Service).(kong.Service.Name) = Some k) →
  keyedByName m → keyedByName (runResources items body m l).
Proof.
  intros Hname Hm.
  induction l as [|i l IH] using rev_ind; [done |].
  rewrite runResources_snoc. apply (runLoop_keyedByName _ (_, _)); [| done].
  intros ?. apply Hname.
Qed.

End Resources.

(** ** The normalizers as runs *)

Lemma foldl_ext_eq {S A} (f g : S → A → S) s (l : list A) :
  (∀ s a, f s a = g s a) → foldl f s l = foldl g s l.
Proof.
  intros Hext. revert s. induction l as [|a l IH]; intros s; [done |].
  simpl. rewrite Hext. apply IH.
Qed.

Lemma foldl_project {S A B} (f : S → A → S) (π : S → B) (g : B → A → B) s (l : list A) :
  (∀ s a, π (f s a) = g (π s) a) → π (foldl f s l) = foldl g (π s) l.
Proof.
  intros Hstep. revert s. induction l as [|a l IH]; intros s; [done |].
  simpl. rewrite IH. by rewrite Hstep.
Qed.

Lemma nested_runLoop {R P} (paths : R → option (list P))
    (path : nat → R → nat → P → gset string → option Emission * gset string)
    st (rules : list R) :
  foldl (λ st '(i, rule),
           match paths rule with
           | None => st
           | Some ps =>
               foldl (λ st '(j, rulePath), commit st.1 (path i rule j rulePath st.2))
                     st (enumerate ps)
           end) st (enumerate rules)
  = runLoop (λ '(i, rule, j, rulePath), path i rule j rulePath) st
            (nestedItems paths rules).
Proof.
  unfold nestedItems. rewrite runLoop_bind.
  apply foldl_ext_eq. intros s [i rule].
  destruct (paths rule) as [ps |]; [| done].
  rewrite runLoop_fmap. unfold runLoop.
  apply foldl_ext_eq. by intros ? [??].
Qed.

Lemma enumerate_lookup {A} (l : list A) i x :
  enumerate l !! i = Some x ↔ ∃ a, x = (i, a) ∧ l !! i = Some a.
Proof.
  unfold enumerate. rewrite list_lookup_imap.
  destruct (l !! i) as [a |]; simpl; split.
  - intros [= <-]. by exists a.
  - by intros (a' & -> & [= ->]).
  - done.
  - by intros (? & _ & ?).
Qed.

Lemma enumerate_elem_of {A} (l : list A) i a :
  l !! i = Some a → (i, a) ∈ enumerate l.
Proof.
  intros Hi. apply list_elem_of_lookup. exists i.
  apply enumerate_lookup. by exists a.
Qed.

Lemma elem_of_enumerate {A} (l : list A) i a :
  (i, a) ∈ enumerate l → l !! i = Some a.
Proof.
  intros (n & (a' & [= -> ->] & Hn)%enumerate_lookup)%list_elem_of_lookup. done.
Qed.

(** Every rule path of a resource is an iteration of its nested loops. *)
Lemma nestedItems_elem_of {R P} (paths : R → option (list P)) (rules : list R)
    i rule ps j rulePath :
  rules !! i = Some rule → paths rule = Some ps → ps !! j = Some rulePath →
  (i, rule, j, rulePath) ∈ nestedItems paths rules.
Proof.
  intros Hi Hps Hj. unfold nestedItems. apply list_elem_of_bind.
  exists (i, rule). split; [| by apply enumerate_elem_of].
  rewrite Hps. apply list_elem_of_fmap. exists (j, rulePath).
  split; [done |]. by apply enumerate_elem_of.
Qed.

Lemma elem_of_nestedItems {R P} (paths : R → option (list P)) (rules : list R)
    i rule j rulePath :
  (i, rule, j, rulePath) ∈ nestedItems paths rules →
  ∃ ps, rules !! i = Some rule ∧ paths rule = Some ps ∧ ps !! j = Some rulePath.
Proof.
  unfold nestedItems. intros ([i' rule'] & Hin & Hrule)%list_elem_of_bind.
  apply elem_of_enumerate in Hrule.
  destruct (paths rule') as [ps |] eqn:Hps; [| by apply elem_of_nil in Hin].
  apply list_elem_of_fmap in Hin as ([j' rp'] & [= -> -> -> ->] & Hj).
  apply elem_of_enumerate in Hj. by exists ps.
Qed.

Section Bridge.
Context `{Externals}.
Context `{!RouteConfig networkingv1beta1.IngressRule.t}.
Context `{!RouteConfig networkingv1.IngressRule.t}.
Context `{!RouteConfig configurationv1beta1.IngressRule.t}.
Context `{!RouteConfig configurationv1beta1.UDPIngressRule.t}.
Context `{!RouteConfig knative.IngressRule.t}.

Lemma ingressV1beta1_step hashed st ingress :
  ServiceNameToServices (ingressV1beta1 hashed st ingress).1 =
    (runLoop (bodyV1beta1 hashed ingress) (ServiceNameToServices st.1, ∅)
       (itemsV1beta1 ingress)).1 ∧
  (ingressV1beta1 hashed st ingress).2 = st.2 ++ filter hasDefaultV1beta1 [ingress].
Proof.
  destruct st as [result adb]. unfold ingressV1beta1; simpl. split.
  - unfold ruleV1beta1. by rewrite nested_runLoop.
  - unfold hasDefaultV1beta1. rewrite filter_cons, filter_nil.
    destruct (networkingv1beta1.IngressSpec.Backend _) as [b |]; case_decide as Hd.
    + done.
    + destruct Hd. by eexists.
    + by destruct Hd as [? ?].
    + by rewrite app_nil_r.
Qed.

Lemma foldl_ingressV1beta1 hashed st l :
  ServiceNameToServices (foldl (ingressV1beta1 hashed) st l).1 =
    runResources itemsV1beta1 (bodyV1beta1 hashed) (ServiceNameToServices st.1) l ∧
  (foldl (ingressV1beta1 hashed) st l).2 = st.2 ++ filter hasDefaultV1beta1 l.
Proof.
  induction l as [|ingress l IH] using rev_ind.
  - simpl. by rewrite app_nil_r.
  - rewrite foldl_app, filter_app, runResources_snoc. simpl.
    destruct (ingressV1beta1_step hashed (foldl (ingressV1beta1 hashed) st l) ingress)
      as [-> ->].
    destruct IH as [-> ->]. by rewrite app_assoc.
Qed.

(** An iteration of the v1 loop panics exactly when its rule path passes
    the checks and its backend names no service; otherwise it is the step
    [bodyV1]. *)
Lemma pathV1_returns hashed ingress i rule j rulePath used :
  is_Some (pathV1 hashed ingress (prefixV1 ingress) i rule j rulePath used) ↔
  (passesV1 hashed (i, rule, j, rulePath) →
   is_Some rulePath.(networkingv1.HTTPIngressPath.Backend).(networkingv1.IngressBackend.Service)).
Proof.
  unfold pathV1, passesV1, pathTypeOf, nameable, routeNameFor.
  destruct (Strings.Contains _ _) eqn:Hc.
  { split; [by intros _ [? _] | by eexists]. }
  destruct (networkingv1.HTTPIngressPath.PathType rulePath) as [pathType |]; simpl;
    (destruct (pathsFromK8s _ _) as [paths |] eqn:Hp;
     [| split; [by intros _ (_ & [? ?] & _) | by eexists]]);
    (destruct hashed;
     [destruct (getUniqIDForRouteConfig _) as [id |] eqn:Hid;
      [| split; [intros _ (_ & _ & Hn); by destruct (Hn eq_refl) | by eexists]] |]);
    (destruct (networkingv1.IngressBackend.Service _) as [backend |];
     [split; [by eexists | by eexists] |]);
    (split; [by intros [? ?] | intros Hs; destruct Hs as [? ?]; [split_and!; by eauto | done]]).
Qed.

Lemma pathV1_step hashed ingress i rule j rulePath used res :
  pathV1 hashed ingress (prefixV1 ingress) i rule j rulePath used = Some res →
  bodyV1 hashed ingress (i, rule, j, rulePath) used = res.
Proof. unfold bodyV1. by intros ->. Qed.

(** A loop whose iterations can panic returns when none does, with the
    state that the steps [g] give. *)
Lemma foldl_partial {S A} (f : S → A → option S) (g : S → A → S) (ok : A → Prop)
    s (l : list A) :
  (∀ s a, is_Some (f s a) ↔ ok a) →
  (∀ s a s', f s a = Some s' → s' = g s a) →
  (Forall ok l → foldl (λ s a, s ← s; f s a) (Some s) l = Some (foldl g s l)) ∧
  (∀ s', foldl (λ s a, s ← s; f s a) (Some s) l = Some s' →
     Forall ok l ∧ s' = foldl g s l).
Proof.
  intros Hok Hstep. induction l as [|a l IH] using rev_ind.
  - split; [done |]. by intros s' [= <-].
  - rewrite !foldl_app. simpl. destruct IH as [IH1 IH2]. split.
    + intros [Hl Ha]%Forall_app. rewrite IH1 by done. simpl.
      apply Forall_singleton, (Hok (foldl g s l)) in Ha as [s' Hs'].
      rewrite Hs'. f_equal. by apply Hstep.
    + intros s' Hs'.
      destruct (foldl (λ s a, s ← s; f s a) (Some s) l) as [s0 |] eqn:Hl; [| done].
      destruct (IH2 s0 eq_refl) as [Hall ->]. simpl in Hs'. split.
      * apply Forall_app. split; [done |]. apply Forall_singleton.
        apply (Hok (foldl g s l)). by eexists.
      * by apply Hstep.
Qed.

Lemma servedV1_nested hashed ingress :
  servedV1 hashed ingress ↔
  Forall (λ '(i, rule), ∀ paths, rule.(networkingv1.IngressRule.HTTP) = Some paths →
            Forall (λ '(j, rulePath),
                      passesV1 hashed (i, rule, j, rulePath) →
                      is_Some rulePath.(networkingv1.HTTPIngressPath.Backend).(networkingv1.IngressBackend.Service))
                   (enumerate paths))
         (enumerate ingress.(networkingv1.Ingress.Spec).(networkingv1.IngressSpec.Rules)).
Proof.
  unfold servedV1, itemsV1. rewrite Forall_forall. split.
  - intros Hs [i rule] Hi%elem_of_enumerate paths Hpaths.
    apply Forall_forall. intros [j rulePath] Hj%elem_of_enumerate.
    apply Hs. by eapply nestedItems_elem_of.
  - intros Hs i rule j rulePath (paths & Hi & Hpaths & Hj)%elem_of_nestedItems.
    apply enumerate_elem_of, Hs in Hi. specialize (Hi paths Hpaths).
    rewrite Forall_forall in Hi. by apply (Hi (j, rulePath)), enumerate_elem_of.
Qed.

(** The rule loops of a resource: they return exactly when the resource is
    served, and then they are the run of [bodyV1]. *)
Lemma ingressV1_step hashed st ingress :
  (servedV1 hashed ingress → is_Some (ingressV1 hashed st ingress)) ∧
  (∀ st', ingressV1 hashed st ingress = Some st' →
     servedV1 hashed ingress ∧
     ServiceNameToServices st'.1 =
       (runLoop (bodyV1 hashed ingress) (ServiceNameToServices st.1, ∅)
          (itemsV1 ingress)).1 ∧
     SecretNameToSNIs_ st'.1 =
       addFromIngressV1TLS
         ingress.(networkingv1.Ingress.Spec).(networkingv1.IngressSpec.TLS)
         (Namespace ingress) (SecretNameToSNIs_ st.1) ∧
     st'.2 = st.2 ++ filter hasDefaultV1 [ingress]).
Proof.
  destruct st as [result adb]. unfold ingressV1.
  set (total := λ (st : gmap string kongstate.Service.t * gset string)
                  (x : nat * networkingv1.IngressRule.t),
         match x.2.(networkingv1.IngressRule.HTTP) with
         | None => st
         | Some ps =>
             foldl (λ st '(j, rulePath),
                      commit st.1 (bodyV1 hashed ingress (x.1, x.2, j, rulePath) st.2))
                   st (enumerate ps)
         end).
  pose proof (foldl_partial
    (λ st '(i, rule), ruleV1 hashed ingress (prefixV1 ingress) st i rule) total
    (λ '(i, rule), ∀ paths, rule.(networkingv1.IngressRule.HTTP) = Some paths →
       Forall (λ '(j, rulePath),
                 passesV1 hashed (i, rule, j, rulePath) →
                 is_Some rulePath.(networkingv1.HTTPIngressPath.Backend).(networkingv1.IngressBackend.Service))
              (enumerate paths))
    (ServiceNameToServices result, ∅)
    (enumerate ingress.(networkingv1.Ingress.Spec).(networkingv1.IngressSpec.Rules)))
    as Hfold.
  assert (Hinner : ∀ st0 i rule paths,
    let f := λ (st : gmap string kongstate.Service.t * gset string)
               (x : nat * networkingv1.HTTPIngressPath.t),
               res ← pathV1 hashed ingress (prefixV1 ingress) i rule x.1 x.2 st.2;
               Some (commit st.1 res) in
    let g := λ (st : gmap string kongstate.Service.t * gset string)
               (x : nat * networkingv1.HTTPIngressPath.t),
               commit st.1 (bodyV1 hashed ingress (i, rule, x.1, x.2) st.2) in
    (Forall (λ '(j, rulePath),
               passesV1 hashed (i, rule, j, rulePath) →
               is_Some rulePath.(networkingv1.HTTPIngressPath.Backend).(networkingv1.IngressBackend.Service))
            (enumerate paths) →
     foldl (λ s a, s ← s; f s a) (Some st0) (enumerate paths)
       = Some (foldl g st0 (enumerate paths))) ∧
    (∀ s', foldl (λ s a, s ← s; f s a) (Some st0) (enumerate paths) = Some s' →
       Forall (λ '(j, rulePath),
                 passesV1 hashed (i, rule, j, rulePath) →
                 is_Some rulePath.(networkingv1.HTTPIngressPath.Backend).(networkingv1.IngressBackend.Service))
              (enumerate paths) ∧ s' = foldl g st0 (enumerate paths))).
  { intros st0 i rule paths f g. apply foldl_partial.
    - intros s [j rulePath]. unfold f.
      etrans; [| apply (pathV1_returns hashed ingress i rule j rulePath s.2)]. simpl.
      destruct (pathV1 _ _ _ _ _ _ _ _); simpl; split; by eauto.
    - intros s [j rulePath] s'. unfold f, g. simpl.
      destruct (pathV1 _ _ _ _ _ _ _ _) as [res |] eqn:Hres; [| done].
      cbn [mbind option_bind fst snd]. by intros [= <-]. }
  assert (Hsame : ∀ st0 i rule paths,
    foldl (λ st '(j, rulePath),
             st ← st;
             res ← pathV1 hashed ingress (prefixV1 ingress) i rule j rulePath st.2;
             Some (commit st.1 res)) (Some st0) (enumerate paths)
    = foldl (λ s a, s ← s;
               res ← pathV1 hashed ingress (prefixV1 ingress) i rule a.1 a.2 s.2;
               Some (commit s.1 res)) (Some st0) (enumerate paths)).
  { intros. apply foldl_ext_eq. by intros ? [??]. }
  assert (Hsame' : ∀ st0 i rule paths,
    foldl (λ st '(j, rulePath),
             commit st.1 (bodyV1 hashed ingress (i, rule, j, rulePath) st.2))
          st0 (enumerate paths)
    = foldl (λ st x, commit st.1 (bodyV1 hashed ingress (i, rule, x.1, x.2) st.2))
            st0 (enumerate paths)).
  { intros. apply foldl_ext_eq. by intros ? [??]. }
  destruct Hfold as [Hfold1 Hfold2].
  { intros s [i rule]. unfold ruleV1.
    destruct (networkingv1.IngressRule.HTTP rule) as [paths |] eqn:Hpaths.
    - rewrite Hsame. destruct (Hinner s i rule paths) as [H1 H2]. split.
      + intros [s' Hs'] ? [= <-]. by apply H2 in Hs' as [? _].
      + intros Hok. rewrite H1 by eauto. by eexists.
    - split; [by intros _ ? [=] | by eexists]. }
  { intros s [i rule] s'. unfold ruleV1, total. cbn [fst snd].
    destruct (networkingv1.IngressRule.HTTP rule) as [paths |] eqn:Hpaths.
    - rewrite Hsame, Hsame'. intros Hs'.
      by destruct (Hinner s i rule paths) as [_ [_ ->]%(λ H', H' s' Hs')].
    - by intros [= <-]. }
  assert (Htotal :
    foldl total (ServiceNameToServices result, ∅)
      (enumerate ingress.(networkingv1.Ingress.Spec).(networkingv1.IngressSpec.Rules))
    = runLoop (bodyV1 hashed ingress) (ServiceNameToServices result, ∅)
        (itemsV1 ingress)).
  { unfold itemsV1.
    etrans; [| etrans;
      [apply (nested_runLoop networkingv1.IngressRule.HTTP
                (λ i rule j rulePath, bodyV1 hashed ingress (i, rule, j, rulePath))) |]].
    - apply foldl_ext_eq. by intros ? [??].
    - apply runLoop_ext. by intros [[[??]?]?] ?. }
  assert (Hrules :
    foldl (λ st '(i, rule),
             st ← st; ruleV1 hashed ingress
                        (IngressV1RoutePrefix +:+ "." +:+ Namespace ingress +:+ "." +:+
                         Name ingress +:+ ".") st i rule)
          (Some (ServiceNameToServices result, ∅))
          (enumerate ingress.(networkingv1.Ingress.Spec).(networkingv1.IngressSpec.Rules))
    = foldl (λ s a, s ← s;
               (let '(i, rule) := a in
                ruleV1 hashed ingress (prefixV1 ingress) s i rule))
            (Some (ServiceNameToServices result, ∅))
            (enumerate ingress.(networkingv1.Ingress.Spec).(networkingv1.IngressSpec.Rules))).
  { apply foldl_ext_eq. intros [s |] [??]; done. }
  simpl. rewrite Hrules. split.
  - intros Hserved%servedV1_nested. rewrite Hfold1 by done. by eexists.
  - intros st'.
    destruct (foldl _ _ _) as [s0 |] eqn:Hs0; [| done]. simpl. intros [= <-]. simpl.
    destruct (Hfold2 s0 eq_refl) as [Hok ->]. split_and!.
    + by apply servedV1_nested.
    + by rewrite Htotal.
    + done.
    + unfold hasDefaultV1. rewrite filter_cons, filter_nil.
      destruct (networkingv1.IngressSpec.DefaultBackend _) as [b |]; case_decide as Hd.
      * done.
      * destruct Hd. by eexists.
      * by destruct Hd as [? ?].
      * by rewrite app_nil_r.
Qed.

Lemma foldl_ingressV1 hashed st l :
  (Forall (servedV1 hashed) l →
   is_Some (foldl (λ st ingress, st ← st; ingressV1 hashed st ingress) (Some st) l)) ∧
  (∀ st', foldl (λ st ingress, st ← st; ingressV1 hashed st ingress) (Some st) l
          = Some st' →
     Forall (servedV1 hashed) l ∧
     ServiceNameToServices st'.1 =
       runResources itemsV1 (bodyV1 hashed) (ServiceNameToServices st.1) l ∧
     SecretNameToSNIs_ st'.1 =
       foldl (λ snis ingress,
                addFromIngressV1TLS
                  ingress.(networkingv1.Ingress.Spec).(networkingv1.IngressSpec.TLS)
                  (Namespace ingress) snis) (SecretNameToSNIs_ st.1) l ∧
     st'.2 = st.2 ++ filter hasDefaultV1 l).
Proof.
  induction l as [|ingress l IH] using rev_ind.
  - split; [by eexists |]. intros st' [= <-]. by rewrite app_nil_r.
  - rewrite !foldl_app, filter_app, runResources_snoc. simpl.
    destruct IH as [IH1 IH2]. split.
    + intros [Hl Ha%Forall_inv]%Forall_app.
      destruct (IH1 Hl) as [s0 ->]. simpl. by apply (proj1 (ingressV1_step _ _ _)).
    + intros st'.
      destruct (foldl _ (Some st) l) as [s0 |] eqn:Hs0; [| done]. simpl.
      intros (Ha & Hs & Hn & Hd)%(proj2 (ingressV1_step _ _ _)).
      destruct (IH2 s0 eq_refl) as (Hl & <- & <- & Hd0).
      split_and!; [| done | done |].
      * apply Forall_app. split; [done | by apply Forall_singleton].
      * by rewrite Hd, Hd0, app_assoc.
Qed.

Lemma fromTCPIngressV1beta1_run l hashed :
  ServiceNameToServices (fromTCPIngressV1beta1 l hashed).1 =
  runResources itemsTCP (bodyTCP hashed) ∅ (SliceStable createdBefore l).
Proof.
  unfold fromTCPIngressV1beta1; simpl.
  apply (foldl_project _ ServiceNameToServices).
  intros result ingress. unfold ingressTCP; simpl. f_equal.
  unfold runLoop, itemsTCP. apply foldl_ext_eq. by intros ? [??].
Qed.

Lemma fromUDPIngressV1beta1_run l hashed :
  ServiceNameToServices (fromUDPIngressV1beta1 l hashed).1 =
  runResources itemsUDP (bodyUDP hashed) ∅ (SliceStable createdBefore l).
Proof.
  unfold fromUDPIngressV1beta1; simpl.
  apply (foldl_project _ ServiceNameToServices).
  intros result ingress. unfold ingressUDP; simpl. f_equal.
  unfold runLoop, itemsUDP. apply foldl_ext_eq. by intros ? [??].
Qed.

Lemma fromKnativeIngress_run order l hashed :
  ServiceNameToServices (fromKnativeIngress order l hashed).1 =
  runResources itemsKnative (bodyKnative order hashed) ∅
    (enumerate (SliceStable createdBefore l)).
Proof.
  unfold fromKnativeIngress; simpl.
  apply (foldl_project _ ServiceNameToServices).
  intros result [p ingress]. unfold ingressKnative; simpl.
  unfold ruleKnative. by rewrite nested_runLoop.
Qed.

End Bridge.

(** ** What an iteration emits *)

Section Bodies.
Context `{Externals}.
Context `{!RouteConfig networkingv1beta1.IngressRule.t}.
Context `{!RouteConfig networkingv1.IngressRule.t}.
Context `{!RouteConfig configurationv1beta1.IngressRule.t}.
Context `{!RouteConfig configurationv1beta1.UDPIngressRule.t}.
Context `{!RouteConfig knative.IngressRule.t}.

Lemma bodyV1beta1_fresh hashed ingress x used e used' :
  bodyV1beta1 hashed ingress x used = (Some e, used') → freshService e.
Proof.
  destruct x as [[[i rule] j] rulePath]. unfold bodyV1beta1, pathV1beta1.
  repeat case_match; intros; simplify_eq; by split.
Qed.

Lemma bodyV1_fresh hashed ingress x used e used' :
  bodyV1 hashed ingress x used = (Some e, used') → freshService e.
Proof.
  destruct x as [[[i rule] j] rulePath]. unfold bodyV1, pathV1.
  repeat case_match; simpl; intros; simplify_eq; by split.
Qed.

Lemma bodyTCP_fresh hashed ingress x used e used' :
  bodyTCP hashed ingress x used = (Some e, used') → freshService e.
Proof.
  destruct x as [i rule]. unfold bodyTCP, ruleTCP.
  repeat case_match; intros; simplify_eq; by split.
Qed.

Lemma bodyUDP_fresh hashed ingress x used e used' :
  bodyUDP hashed ingress x used = (Some e, used') → freshService e.
Proof.
  destruct x as [i rule]. unfold bodyUDP, ruleUDP.
  repeat case_match; intros; simplify_eq; by split.
Qed.

Lemma bodyKnative_fresh order hashed pi x used e used' :
  bodyKnative order hashed pi x used = (Some e, used') → freshService e.
Proof.
  destruct x as [[[i rule] j] rulePath]. unfold bodyKnative, pathKnative.
  repeat case_match; intros; simplify_eq; by split.
Qed.

Lemma defaultBackendV1beta1_fresh ingress defaultBackend :
  freshService (defaultBackendV1beta1 ingress defaultBackend).
Proof. by split. Qed.

Lemma defaultBackendV1_fresh ingress defaultBackend e :
  defaultBackendV1 ingress defaultBackend = Some e → freshService e.
Proof. unfold defaultBackendV1. case_match; [| done]. intros [= <-]. by split. Qed.

End Bodies.

(** ** The oldest resource with a property *)

Section Earliest.
Context {A : Type} `{Object A} (P : A → Prop) `{!∀ a, Decision (P a)}.

Lemma StronglySorted_filter (l : list A) :
  StronglySorted notAfter l → StronglySorted notAfter (filter P l).
Proof.
  induction 1 as [|a l Hl IH Ha]; [constructor |].
  rewrite filter_cons. case_decide; [| done].
  constructor; [done |].
  apply Forall_forall. intros b [_ Hb]%list_elem_of_filter.
  by eapply Forall_forall in Ha.
Qed.

Lemma SliceStable_filter_sorted (l : list A) :
  SliceStable createdBefore (filter P (SliceStable createdBefore l)) =
  filter P (SliceStable createdBefore l).
Proof. apply SliceStable_sorted_id, StronglySorted_filter, SliceStable_sorted. Qed.

Lemma filter_sorted_head (l : list A) a rest :
  filter P (SliceStable createdBefore l) = a :: rest → earliestWith P l a.
Proof.
  intros Hf.
  assert (Hsorted : StronglySorted notAfter (a :: rest)).
  { rewrite <-Hf. apply StronglySorted_filter, SliceStable_sorted. }
  assert (Ha : a ∈ filter P (SliceStable createdBefore l)) by (rewrite Hf; left).
  apply list_elem_of_filter in Ha as [HPa Ha]. rewrite SliceStable_perm in Ha.
  split_and!; [done | done |].
  intros b Hb HPb.
  assert (Hb' : b ∈ a :: rest).
  { rewrite <-Hf. apply list_elem_of_filter. by rewrite SliceStable_perm. }
  apply StronglySorted_inv in Hsorted as [_ Hle].
  apply elem_of_cons in Hb' as [-> | Hb'].
  - unfold notAfter. lia.
  - by eapply Forall_forall in Hle.
Qed.

Lemma filter_sorted_nonempty (l : list A) a :
  a ∈ l → P a → filter P (SliceStable createdBefore l) ≠ [].
Proof.
  intros Ha HPa Hnil.
  eapply filter_nil_not_elem_of; [exact Hnil | exact HPa |].
  by rewrite SliceStable_perm.
Qed.

End Earliest.

Lemma insertSorted_fmap {A B} `{Object A, Object B} (f : A → B) x (l : list A) :
  (∀ a, CreationTimestamp (f a) = CreationTimestamp a) →
  insertSorted createdBefore (f x) (f <$> l) = f <$> insertSorted createdBefore x l.
Proof.
  intros Hf. induction l as [|y l IH]; simpl; [done |].
  unfold createdBefore at 1 3. rewrite !Hf.
  destruct (metav1.Before _ _); [done |].
  rewrite fmap_cons. f_equal. exact IH.
Qed.

Lemma SliceStable_fmap {A B} `{Object A, Object B} (f : A → B) (l : list A) :
  (∀ a, CreationTimestamp (f a) = CreationTimestamp a) →
  SliceStable createdBefore (f <$> l) = f <$> SliceStable createdBefore l.
Proof.
  intros Hf. induction l as [|x l IH] using rev_ind; [done |].
  rewrite fmap_app. simpl. rewrite !SliceStable_snoc, IH.
  by apply insertSorted_fmap.
Qed.

Lemma runResources_fmap {I J X} (items : I → list X)
    (body : I → X → gset string → option Emission * gset string)
    (f : J → I) m (l : list J) :
  runResources items body m (f <$> l) =
  runResources (items ∘ f) (λ j, body (f j)) m l.
Proof. unfold runResources. by rewrite foldl_fmap. Qed.

Lemma runResources_ext {I X} (items items' : I → list X)
    (body body' : I → X → gset string → option Emission * gset string) m (l : list I) :
  (∀ i, items i = items' i) → (∀ i x u, body i x u = body' i x u) →
  runResources items body m l = runResources items' body' m l.
Proof.
  intros Hitems Hbody. unfold runResources. apply foldl_ext_eq.
  intros s i. rewrite Hitems. f_equal. by apply runLoop_ext.
Qed.

(** ** The default backend *)

Section DefaultBackend.
Context `{Externals}.
Context `{!RouteConfig networkingv1beta1.IngressRule.t}.
Context `{!RouteConfig networkingv1.IngressRule.t}.

Lemma fromIngressV1beta1_services l hashed :
  ServiceNameToServices (fromIngressV1beta1 l hashed).1 =
  let rules :=
    runResources itemsV1beta1 (bodyV1beta1 hashed) ∅ (SliceStable createdBefore l) in
  match filter hasDefaultV1beta1 (SliceStable createdBefore l) with
  | [] => rules
  | ingress :: _ =>
      match ingress.(networkingv1beta1.Ingress.Spec).(networkingv1beta1.IngressSpec.Backend) with
      | None => rules
      | Some defaultBackend =>
          appendEmission (defaultBackendV1beta1 ingress defaultBackend) rules
      end
  end.
Proof.
  unfold fromIngressV1beta1.
  destruct (foldl_ingressV1beta1 hashed (newIngressRules, [])
              (SliceStable createdBefore l)) as [Hs Ha].
  destruct (foldl _ _ _) as [result adb]. simpl in *. subst adb.
  rewrite SliceStable_filter_sorted.
  destruct (filter _ _) as [|ingress rest]; [done |].
  destruct (networkingv1beta1.IngressSpec.Backend _); simpl; by rewrite Hs.
Qed.

(** A call of [fromIngressV1] returns exactly on the inputs on which it
    reads no nil pointer, and then its services are those of the rule loops
    and of the default-backend block. *)
Lemma fromIngressV1_returns l hashed :
  returnsV1 hashed l → is_Some (fromIngressV1 l hashed).1.
Proof.
  intros [Hserved Hdefault]. unfold fromIngressV1. simpl.
  destruct (foldl_ingressV1 hashed (newIngressRules, [])
              (SliceStable createdBefore l)) as [Hsome Hinv].
  destruct Hsome as [[result adb] Hst].
  { eapply Forall_forall. intros ingress Hin. rewrite SliceStable_perm in Hin.
    by eapply Forall_forall in Hserved. }
  rewrite Hst. simpl.
  apply Hinv in Hst as (_ & _ & _ & Ha). simpl in Ha. subst adb.
  rewrite SliceStable_filter_sorted.
  destruct (filter _ _) as [|ingress rest] eqn:Hf; [by eexists |].
  destruct (networkingv1.IngressSpec.DefaultBackend _) as [db |] eqn:Hdb; [| by eexists].
  destruct (Hdefault ingress db (ex_intro _ rest Hf) Hdb) as [backend Hb].
  unfold defaultBackendV1. rewrite Hb. by eexists.
Qed.

Lemma serviceBackendsOnly_returns l hashed :
  serviceBackendsOnly l = true → returnsV1 hashed l.
Proof.
  unfold serviceBackendsOnly. rewrite forallb_forall. intros Hall. split.
  - apply Forall_forall. intros ingress Hin%list_elem_of_In%Hall.
    apply andb_prop in Hin as [Hitems _]. rewrite forallb_forall in Hitems.
    intros i rule j rulePath Hx%list_elem_of_In%Hitems _.
    by apply bool_decide_eq_true in Hx.
  - intros ingress db [rest Hf] Hdb.
    assert (Hin : ingress ∈ filter hasDefaultV1 (SliceStable createdBefore l))
      by (rewrite Hf; left).
    apply list_elem_of_filter in Hin as [_ Hin]. rewrite SliceStable_perm in Hin.
    apply list_elem_of_In, Hall, andb_prop in Hin as [_ Hd]. rewrite Hdb in Hd.
    by apply bool_decide_eq_true in Hd.
Qed.

Lemma fromIngressV1_services l hashed result :
  (fromIngressV1 l hashed).1 = Some result →
  returnsV1 hashed l ∧
  let rules :=
    runResources itemsV1 (bodyV1 hashed) ∅ (SliceStable createdBefore l) in
  match filter hasDefaultV1 (SliceStable createdBefore l) with
  | [] => ServiceNameToServices result = rules
  | ingress :: _ =>
      ∃ defaultBackend e,
        ingress.(networkingv1.Ingress.Spec).(networkingv1.IngressSpec.DefaultBackend)
          = Some defaultBackend ∧
        defaultBackendV1 ingress defaultBackend = Some e ∧
        ServiceNameToServices result = appendEmission e rules
  end.
Proof.
  unfold fromIngressV1. simpl.
  destruct (foldl_ingressV1 hashed (newIngressRules, [])
              (SliceStable createdBefore l)) as [_ Hinv].
  destruct (foldl _ _ _) as [[result0 adb] |]; [| done]. simpl.
  destruct (Hinv _ eq_refl) as (Hserved & Hs & _ & Ha). simpl in *. subst adb.
  assert (Hserved' : Forall (servedV1 hashed) l).
  { eapply Forall_forall. intros ingress Hin. rewrite <-SliceStable_perm in Hin.
    by eapply Forall_forall in Hserved. }
  rewrite SliceStable_filter_sorted. unfold returnsV1, defaultServedV1, firstDefaultV1.
  destruct (filter _ _) as [|ingress rest] eqn:Hf.
  { intros [= <-]. split; [| done]. split; [done |]. by intros ? ? [? ?]. }
  assert (Hhas : hasDefaultV1 ingress).
  { assert (Hin : ingress ∈ filter hasDefaultV1 (SliceStable createdBefore l))
      by (rewrite Hf; left).
    by apply list_elem_of_filter in Hin as [? _]. }
  destruct Hhas as [db Hdb]. rewrite Hdb.
  destruct (defaultBackendV1 ingress db) as [[[k fresh] r] |] eqn:He; [| done].
  simpl. intros [= <-]. split.
  - split; [done |]. intros ingress' db' [rest' [= <- <-]] Hdb'.
    rewrite Hdb in Hdb'. injection Hdb' as <-.
    unfold defaultBackendV1 in He. by destruct (networkingv1.IngressBackend.Service db).
  - exists db, (k, fresh, r). simpl. by rewrite Hs.
Qed.

(** Without default backends the output is that of the rule loops. *)
Lemma fromIngressV1beta1_withoutDefault l hashed :
  ServiceNameToServices (fromIngressV1beta1 (withoutDefaultV1beta1 <$> l) hashed).1 =
  runResources itemsV1beta1 (bodyV1beta1 hashed) ∅ (SliceStable createdBefore l).
Proof.
  rewrite fromIngressV1beta1_services. simpl.
  rewrite SliceStable_fmap by done.
  assert (Hnone : filter hasDefaultV1beta1
                    (withoutDefaultV1beta1 <$> SliceStable createdBefore l) = []).
  { induction (SliceStable createdBefore l) as [|a s IH]; [done |].
    rewrite fmap_cons, filter_cons_False; [done | by intros [? ?]]. }
  rewrite Hnone, runResources_fmap.
  apply runResources_ext; [done |]. by intros i [[[??]?]?] u.
Qed.

Lemma fromIngressV1_snis l hashed result :
  (fromIngressV1 l hashed).1 = Some result →
  SecretNameToSNIs_ result =
    foldl (λ snis ingress,
             addFromIngressV1TLS
               ingress.(networkingv1.Ingress.Spec).(networkingv1.IngressSpec.TLS)
               (Namespace ingress) snis)
          newSecretNameToSNIs (SliceStable createdBefore l).
Proof.
  unfold fromIngressV1. simpl.
  destruct (foldl_ingressV1 hashed (newIngressRules, [])
              (SliceStable createdBefore l)) as [_ Hinv].
  destruct (foldl _ _ _) as [[result0 adb] |]; [| done]. simpl.
  destruct (Hinv _ eq_refl) as (_ & _ & Hn & _). simpl in Hn.
  destruct (SliceStable createdBefore adb) as [|ingress rest]; [by intros [= <-] |].
  destruct (networkingv1.IngressSpec.DefaultBackend _) as [db |]; [| by intros [= <-]].
  destruct (defaultBackendV1 ingress db) as [[[k fresh] r] |]; [| done].
  simpl. by intros [= <-].
Qed.

Lemma filter_withoutDefaultV1 (l : list networkingv1.Ingress.t) :
  filter hasDefaultV1 (withoutDefaultV1 <$> l) = [].
Proof.
  induction l as [|a l IH]; [done |].
  rewrite fmap_cons, filter_cons_False; [done | by intros [? ?]].
Qed.

Lemma fromIngressV1_withoutDefault l hashed :
  Forall (servedV1 hashed) l →
  ∃ withoutDefaults,
    (fromIngressV1 (withoutDefaultV1 <$> l) hashed).1 = Some withoutDefaults ∧
    ServiceNameToServices withoutDefaults =
      runResources itemsV1 (bodyV1 hashed) ∅ (SliceStable createdBefore l).
Proof.
  intros Hserved.
  destruct (fromIngressV1_returns (withoutDefaultV1 <$> l) hashed) as [result Hresult].
  { split.
    - apply Forall_fmap. eapply Forall_impl; [exact Hserved |]. by intros ingress.
    - intros ingress db [rest Hf]. rewrite SliceStable_fmap in Hf by done.
      by rewrite filter_withoutDefaultV1 in Hf. }
  exists result. split; [done |].
  apply fromIngressV1_services in Hresult as [_ Hresult]. simpl in Hresult.
  rewrite SliceStable_fmap in Hresult by done.
  rewrite filter_withoutDefaultV1 in Hresult. rewrite Hresult, runResources_fmap.
  apply runResources_ext; [done |]. by intros i [[[??]?]?] u.
Qed.

End DefaultBackend.

Lemma addsOneRoute_intro e rulesOnly :
  freshService e → keyedByName rulesOnly →
  addsOneRoute e rulesOnly (appendEmission e rulesOnly).
Proof.
  intros [_ Hname] Hkeyed. unfold appendEmission. split_and!; [done | |].
  - intros k Hk. by apply appendRoute_lookup_ne.
  - eexists. split; [apply appendRoute_lookup |]. split; [| done]. simpl.
    destruct (rulesOnly !! e.1.1) as [s |] eqn:Hs; simpl; [by apply Hkeyed | done].
Qed.

Section DefaultBackendClaims.
Context `{Externals}.
Context `{!RouteConfig networkingv1beta1.IngressRule.t}.
Context `{!RouteConfig networkingv1.IngressRule.t}.

Lemma rulesOnlyV1beta1_keyed l hashed :
  keyedByName (runResources itemsV1beta1 (bodyV1beta1 hashed) ∅ l).
Proof.
  apply runResources_keyedByName; [| done].
  intros i x u k f r u' Hx. by apply bodyV1beta1_fresh in Hx as [_ ?].
Qed.

Lemma rulesOnlyV1_keyed l hashed :
  keyedByName (runResources itemsV1 (bodyV1 hashed) ∅ l).
Proof.
  apply runResources_keyedByName; [| done].
  intros i x u k f r u' Hx. by apply bodyV1_fresh in Hx as [_ ?].
Qed.

(** The resource whose default backend is materialized does not depend on
    the naming flag, and the output is the output without default backends
    plus the emission of the default-backend block. *)
Lemma fromIngressV1beta1_default l :
  (∃ ingress, ingress ∈ l ∧ hasDefaultV1beta1 ingress) →
  ∃ ingress defaultBackend,
    earliestWith hasDefaultV1beta1 l ingress ∧
    ingress.(networkingv1beta1.Ingress.Spec).(networkingv1beta1.IngressSpec.Backend)
      = Some defaultBackend ∧
    ∀ hashed,
      ServiceNameToServices (fromIngressV1beta1 l hashed).1 =
      appendEmission (defaultBackendV1beta1 ingress defaultBackend)
        (ServiceNameToServices
           (fromIngressV1beta1 (withoutDefaultV1beta1 <$> l) hashed).1).
Proof.
  intros (a & Ha & HPa).
  destruct (filter hasDefaultV1beta1 (SliceStable createdBefore l))
    as [|ingress rest] eqn:Hf.
  { exfalso. by eapply filter_sorted_nonempty. }
  pose proof (filter_sorted_head _ _ _ _ Hf) as Hearliest.
  destruct Hearliest as (Hin & [defaultBackend Hdb] & Hmin).
  exists ingress, defaultBackend.
  split; [split; [done | split; [by eexists | done]] |]. split; [done |].
  intros hashed.
  by rewrite fromIngressV1beta1_withoutDefault, fromIngressV1beta1_services, Hf, Hdb.
Qed.

Lemma fromIngressV1_default l :
  (∃ ingress, ingress ∈ l ∧ hasDefaultV1 ingress) →
  ∃ ingress defaultBackend,
    firstDefaultV1 l ingress ∧
    earliestWith hasDefaultV1 l ingress ∧
    ingress.(networkingv1.Ingress.Spec).(networkingv1.IngressSpec.DefaultBackend)
      = Some defaultBackend ∧
    ∀ hashed result, (fromIngressV1 l hashed).1 = Some result →
      ∃ e withoutDefaults,
        defaultBackendV1 ingress defaultBackend = Some e ∧
        (fromIngressV1 (withoutDefaultV1 <$> l) hashed).1 = Some withoutDefaults ∧
        ServiceNameToServices withoutDefaults =
          runResources itemsV1 (bodyV1 hashed) ∅ (SliceStable createdBefore l) ∧
        ServiceNameToServices result =
          appendEmission e (ServiceNameToServices withoutDefaults).
Proof.
  intros (a & Ha & HPa).
  destruct (filter hasDefaultV1 (SliceStable createdBefore l))
    as [|ingress rest] eqn:Hf.
  { exfalso. exact (filter_sorted_nonempty hasDefaultV1 l a Ha HPa Hf). }
  pose proof (filter_sorted_head _ _ _ _ Hf) as Hearliest.
  destruct Hearliest as (Hin & [defaultBackend Hdb] & Hmin).
  exists ingress, defaultBackend.
  split; [by exists rest |].
  split; [split; [done | split; [by eexists | done]] |]. split; [done |].
  intros hashed result Hresult.
  apply fromIngressV1_services in Hresult as [[Hserved _] Hresult].
  simpl in Hresult. rewrite Hf in Hresult.
  destruct Hresult as (db & e & Hdb' & He & Hresult).
  rewrite Hdb in Hdb'. injection Hdb' as <-.
  destruct (fromIngressV1_withoutDefault l hashed Hserved) as (wd & Hwd & Hrules).
  exists e, wd. by rewrite Hrules.
Qed.

(** C2. When at least one resource of an HTTP ingress kind declares a
    default backend, the output is the output for the same resources
    without their default backends, all of whose routes come from rule
    paths, plus exactly one route: a wildcard route (path ["/"], no host),
    appended to the service named after the default backend of an
    earliest-created resource that declares one; no other default backend
    adds anything. The legacy normalizer does so on every list, the current
    one in every call that returns. The current one does not return on
    every list: when the default backend that it reads, that of the first
    resource with one in the sorted list, names no service, the call panics
    and there is no output at all. *)
Theorem default_backend_of_earliest_only (hashed : bool) :
  (∀ l, (∃ ingress, ingress ∈ l ∧ hasDefaultV1beta1 ingress) →
     materializesEarliestV1beta1 hashed l) ∧
  (∀ l result, (fromIngressV1 l hashed).1 = Some result →
     (∃ ingress, ingress ∈ l ∧ hasDefaultV1 ingress) →
     materializesEarliestV1 hashed l result) ∧
  (∀ l ingress defaultBackend,
     firstDefaultV1 l ingress →
     ingress.(networkingv1.Ingress.Spec).(networkingv1.IngressSpec.DefaultBackend)
       = Some defaultBackend →
     defaultBackend.(networkingv1.IngressBackend.Service) = None →
     (fromIngressV1 l hashed).1 = None).
Proof.
  split_and!.
  - intros l Hdefault.
    destruct (fromIngressV1beta1_default l Hdefault)
      as (ingress & db & Hearly & Hdb & Hout).
    exists ingress, db. do 2 (split; [done |]). cbv zeta.
    split; [| split; [done |]].
    + rewrite Hout, fromIngressV1beta1_withoutDefault.
      apply addsOneRoute_intro;
        [apply defaultBackendV1beta1_fresh | apply rulesOnlyV1beta1_keyed].
    + rewrite fromIngressV1beta1_withoutDefault. intros k r Hb.
      apply runResources_sound in Hb as [(s & Hs & _) | (i & pre & x & Hi & Hemit)].
      * by rewrite lookup_empty in Hs.
      * exists i, pre, x. split; [by rewrite SliceStable_perm in Hi | done].
      * intros i x u k' f r' u' Hx. by apply bodyV1beta1_fresh in Hx as [? _].
  - intros l result Hresult Hdefault.
    destruct (fromIngressV1_default l Hdefault)
      as (ingress & db & _ & Hearly & Hdb & Hout).
    destruct (Hout hashed result Hresult) as (e & wd & He & Hwd & Hrules & Hservices).
    exists ingress, db, e, wd. do 4 (split; [done |]). cbv zeta.
    split; [| split].
    + rewrite Hservices, Hrules.
      apply addsOneRoute_intro;
        [by eapply defaultBackendV1_fresh | apply rulesOnlyV1_keyed].
    + unfold defaultBackendV1 in He.
      destruct (networkingv1.IngressBackend.Service db); [| done].
      by injection He as <-.
    + rewrite Hrules. intros k r Hb.
      apply runResources_sound in Hb as [(s & Hs & _) | (i & pre & x & Hi & Hemit)].
      * by rewrite lookup_empty in Hs.
      * exists i, pre, x. split; [by rewrite SliceStable_perm in Hi | done].
      * intros i x u k' f r' u' Hx. by apply bodyV1_fresh in Hx as [? _].
  - intros l ingress db Hfirst Hdb Hnone.
    destruct (fromIngressV1 l hashed).1 as [result |] eqn:Hresult; [| done].
    apply fromIngressV1_services in Hresult as [[_ Hserved] _].
    destruct (Hserved ingress db Hfirst Hdb) as [backend Hb]. by rewrite Hnone in Hb.
Qed.


End DefaultBackendClaims.

Section DefaultBackendExamples.
Import Sample.

Lemma threeDefaultsV1_has_default :
  ∃ ingress, ingress ∈ Examples.threeDefaultsV1 ∧ hasDefaultV1 ingress.
Proof. eexists. split; [left | by eexists]. Defined.

Lemma threeDefaultsV1beta1_has_default :
  ∃ ingress, ingress ∈ Examples.threeDefaultsV1beta1 ∧ hasDefaultV1beta1 ingress.
Proof. eexists. split; [left | by eexists]. Defined.

Lemma threeDefaultsV1_returns (hashed : bool) :
  is_Some (fromIngressV1 Examples.threeDefaultsV1 hashed).1.
Proof. by apply fromIngressV1_returns, serviceBackendsOnly_returns. Defined.

Lemma default_backend_of_earliest_only_witness :
  materializesEarliestV1beta1 false Examples.threeDefaultsV1beta1 ∧
  (∃ result, (fromIngressV1 Examples.threeDefaultsV1 true).1 = Some result ∧
             materializesEarliestV1 true Examples.threeDefaultsV1 result) ∧
  (fromIngressV1 Examples.resourceDefaultV1 true).1 = None.
Proof.
  split_and!.
  - exact (proj1 (default_backend_of_earliest_only false) _
             threeDefaultsV1beta1_has_default).
  - destruct (threeDefaultsV1_returns true) as [result Hresult].
    exists result. split; [exact Hresult |].
    exact (proj1 (proj2 (default_backend_of_earliest_only true)) _ _ Hresult
             threeDefaultsV1_has_default).
  - apply (proj2 (proj2 (default_backend_of_earliest_only true))
             Examples.resourceDefaultV1 Examples.assetsV1 Examples.resourceBackend).
    + eexists. by vm_compute.
    + reflexivity.
    + reflexivity.
Defined.


(** Three resources created at 1 < 2 < 3, each with a default backend: the
    output has one service, that of the backend of the first, with the one
    route named after that resource. *)
Example three_defaults_one_route (hashed : bool) :
  let out := ServiceNameToServices <$> (fromIngressV1 Examples.threeDefaultsV1 hashed).1 in
  size <$> out = Some 1%nat ∧
  (λ services, routeNames <$> services !! "default.svc1.80") <$> out
    = Some (Some [Some "default.first"]).
Proof. destruct hashed; split; by vm_compute. Qed.

End DefaultBackendExamples.

(** ** Map iteration order in the weighted-split normalizer *)

Section MapOrderExamples.
Import Sample.

Lemma ascending_valid : validMapOrder ascending.
Proof. by intros site m. Qed.

Lemma descending_valid : validMapOrder descending.
Proof. intros site m. unfold descending. apply reverse_Permutation. Qed.

(** C4 fails on the code. The header list of the request-transformer plugin
    is filled by [range] over a Go map, so it follows the iteration order of
    the run: the same snapshot and the same flag give two different IR
    values under two orders that a run can meet. *)
Theorem knative_headers_follow_map_order :
  validMapOrder ascending ∧ validMapOrder descending ∧
  pluginHeaders
    <$> ServiceNameToServices (fromKnativeIngress ascending Examples.twoHeaders false).1
          !! "default.svc.80" = Some [["x-a:1"; "x-b:2"]] ∧
  pluginHeaders
    <$> ServiceNameToServices (fromKnativeIngress descending Examples.twoHeaders false).1
          !! "default.svc.80" = Some [["x-b:2"; "x-a:1"]] ∧
  (fromKnativeIngress ascending Examples.twoHeaders false).1 ≠
  (fromKnativeIngress descending Examples.twoHeaders false).1.
Proof.
  split; [apply ascending_valid |]. split; [apply descending_valid |].
  assert (Ha : pluginHeaders
    <$> ServiceNameToServices (fromKnativeIngress ascending Examples.twoHeaders false).1
          !! "default.svc.80" = Some [["x-a:1"; "x-b:2"]]) by by vm_compute.
  assert (Hd : pluginHeaders
    <$> ServiceNameToServices (fromKnativeIngress descending Examples.twoHeaders false).1
          !! "default.svc.80" = Some [["x-b:2"; "x-a:1"]]) by by vm_compute.
  split_and!; [done | done |].
  intros Heq.
  assert (Hc : Some [["x-a:1"; "x-b:2"]] = Some [["x-b:2"; "x-a:1"]] :> option (list (list string))).
  { rewrite <-Ha, <-Hd. by rewrite Heq. }
  discriminate Hc.
Qed.

(** C3, as stated, fails: the weighted-split normalizer has no check of the
    path, so a rule whose path contains ["//"] still gets its route, with the
    path as its pattern, under either value of the naming flag. *)
Lemma knative_rule_with_repeated_separator_gets_route :
  Strings.Contains "/a//b" "//" = true ∧
  routePaths
    <$> ServiceNameToServices
          (fromKnativeIngress ascending Examples.repeatedSeparatorKnative false).1
          !! "default.svc.80" = Some [["/a//b"]] ∧
  routePaths
    <$> ServiceNameToServices
          (fromKnativeIngress ascending Examples.repeatedSeparatorKnative true).1
          !! "default.svc.80" = Some [["/a//b"]].
Proof. split_and!; by vm_compute. Qed.

End MapOrderExamples.

(** ** Which iterations append a route *)

Lemma routesAre_run {I X} (resources sorted : list I) (items : I → list X)
    (body : I → X → gset string → option Emission * gset string) (passes : X → Prop) :
  sorted ≡ₚ resources →
  (∀ i x used e used', body i x used = (Some e, used') → freshService e ∧ passes x) →
  (∀ i x used, i ∈ resources → x ∈ items i → passes x →
     ∃ e used', body i x used = (Some e, used')) →
  routesAre resources items body passes noOtherRoute
    (runResources items body ∅ sorted).
Proof.
  intros Hperm Hsome Hpass. split.
  - intros k r Hb. right.
    apply runResources_sound in Hb as [(s & Hs & _) | (i & pre & x & Hi & Hemit)].
    + by rewrite lookup_empty in Hs.
    + exists i, pre, x. split; [by rewrite <-Hperm |]. split; [done |].
      destruct Hemit as (post & f & u' & _ & Hx). by apply Hsome in Hx as [_ ?].
    + intros i x u k' f r' u' Hx. by apply Hsome in Hx as [[? _] _].
  - intros i x Hi Hin Hx. pose proof Hin as (pre & post & Hitems)%list_elem_of_split.
    destruct (Hpass i x (usedAfter (body i) ∅ pre) Hi Hin Hx) as ([[k f] r] & u' & Hbody).
    exists pre, k, r.
    assert (Hemit : iterationEmits items body i pre x k r) by by exists post, f, u'.
    split; [done |].
    eapply runResources_complete; [| exact Hemit]. by rewrite Hperm.
Qed.

(** The default-backend block adds its route and removes none. *)
Lemma routesAre_appendEmission {I X} (resources : list I) (items : I → list X)
    (body : I → X → gset string → option Emission * gset string) (passes : X → Prop)
    (other : string → kongstate.Route.t → Prop) e rules :
  freshService e → other e.1.1 e.2 →
  routesAre resources items body passes noOtherRoute rules →
  routesAre resources items body passes other (appendEmission e rules).
Proof.
  intros [Hfresh _] Hother [Hsound Hcomplete]. split.
  - intros k r [Hb | [-> ->]]%boundTo_appendRoute_inv; [| by left | done].
    destruct (Hsound k r Hb) as [[] | ?]. by right.
  - intros i x Hi Hx Hp.
    destruct (Hcomplete i x Hi Hx Hp) as (pre & k & r & Hemit & Hb).
    exists pre, k, r. split; [done |].
    eapply boundTo_extends; [exact Hb | apply appendRoute_extends].
Qed.

Lemma routesAre_weaken {I X} (resources : list I) (items : I → list X)
    (body : I → X → gset string → option Emission * gset string) (passes : X → Prop)
    (other : string → kongstate.Route.t → Prop) out :
  routesAre resources items body passes noOtherRoute out →
  routesAre resources items body passes other out.
Proof.
  intros [Hsound Hcomplete]. split; [| done].
  intros k r Hb. destruct (Hsound k r Hb) as [[] | ?]. by right.
Qed.

Section Validation.
Context `{Externals}.
Context `{!RouteConfig networkingv1beta1.IngressRule.t}.
Context `{!RouteConfig networkingv1.IngressRule.t}.
Context `{!RouteConfig configurationv1beta1.IngressRule.t}.
Context `{!RouteConfig configurationv1beta1.UDPIngressRule.t}.
Context `{!RouteConfig knative.IngressRule.t}.

Lemma routeNameFor_is_Some hashed sequential routePrefix uniqID suffix used :
  is_Some (routeNameFor hashed sequential routePrefix uniqID suffix used) ↔
  nameable hashed uniqID.
Proof.
  unfold routeNameFor, nameable. destruct hashed, uniqID as [id |]; split;
    try done; try (by intros _; eexists).
  intros Hn. by destruct (Hn eq_refl).
Qed.

Lemma bodyV1beta1_passes hashed ingress x used e used' :
  bodyV1beta1 hashed ingress x used = (Some e, used') → passesV1beta1 hashed x.
Proof.
  destruct x as [[[i rule] j] rulePath]. unfold bodyV1beta1, pathV1beta1, passesV1beta1.
  destruct (Strings.Contains _ _); [done |].
  destruct (routeNameFor _ _ _ _ _ _) as [[name u] |] eqn:Hname; [| done].
  intros _. split; [done |]. eapply routeNameFor_is_Some. by rewrite Hname.
Qed.

Lemma bodyV1beta1_emits hashed ingress x used :
  passesV1beta1 hashed x → ∃ e used', bodyV1beta1 hashed ingress x used = (Some e, used').
Proof.
  destruct x as [[[i rule] j] rulePath]. unfold bodyV1beta1, pathV1beta1, passesV1beta1.
  intros [-> Hn].
  eapply routeNameFor_is_Some in Hn as [[name u] Hname]. rewrite Hname. by eexists _, _.
Qed.

Lemma bodyV1_passes hashed ingress x used e used' :
  bodyV1 hashed ingress x used = (Some e, used') → passesV1 hashed x.
Proof.
  destruct x as [[[i rule] j] rulePath]. unfold bodyV1, pathV1, passesV1, pathTypeOf.
  destruct (Strings.Contains _ _); [done |].
  destruct (networkingv1.HTTPIngressPath.PathType rulePath) as [pathType |]; simpl;
    (destruct (pathsFromK8s _ _) as [paths |]; [| done]);
    (destruct (routeNameFor _ _ _ _ _ _) as [[name u] |] eqn:Hname; [| done]);
    intros _; (split; [done |]); (split; [by eexists |]);
    eapply routeNameFor_is_Some; by rewrite Hname.
Qed.

Lemma bodyV1_emits hashed ingress i rule j rulePath used :
  passesV1 hashed (i, rule, j, rulePath) →
  is_Some rulePath.(networkingv1.HTTPIngressPath.Backend).(networkingv1.IngressBackend.Service) →
  ∃ e used', bodyV1 hashed ingress (i, rule, j, rulePath) used = (Some e, used').
Proof.
  unfold bodyV1, pathV1, passesV1, pathTypeOf.
  intros (-> & [paths Hpaths] & Hn) [backend ->].
  destruct (networkingv1.HTTPIngressPath.PathType rulePath) as [pathType |];
    simpl in Hpaths; rewrite Hpaths;
    eapply routeNameFor_is_Some in Hn as [[name u] Hname]; rewrite Hname;
    by eexists _, _.
Qed.

Lemma bodyKnative_passes order hashed pi x used e used' :
  bodyKnative order hashed pi x used = (Some e, used') → passesKnative hashed x.
Proof.
  destruct x as [[[i rule] j] rulePath]. unfold bodyKnative, pathKnative, passesKnative.
  destruct (routeNameFor _ _ _ _ _ _) as [[name u] |] eqn:Hname; [| done].
  intros _. eapply routeNameFor_is_Some. by rewrite Hname.
Qed.

Lemma bodyKnative_emits order hashed pi x used :
  passesKnative hashed x →
  ∃ e used', bodyKnative order hashed pi x used = (Some e, used').
Proof.
  destruct x as [[[i rule] j] rulePath]. unfold bodyKnative, pathKnative, passesKnative.
  intros Hn.
  eapply routeNameFor_is_Some in Hn as [[name u] Hname]. rewrite Hname. by eexists _, _.
Qed.

Lemma bodyTCP_passes hashed ingress x used e used' :
  bodyTCP hashed ingress x used = (Some e, used') → passesTCP hashed x.
Proof.
  destruct x as [i rule]. unfold bodyTCP, ruleTCP, passesTCP.
  destruct (IsValidPort (configurationv1beta1.IngressRule.Port rule)); [| done]. simpl.
  destruct (routeNameFor _ _ _ _ _ _) as [[name u] |] eqn:Hname; [| done].
  destruct (isEmpty _) eqn:Hempty; [done |].
  destruct (IsValidPort _); [| done]. simpl. intros _.
  split_and!; [done | by apply isEmpty_false | done |].
  eapply routeNameFor_is_Some. by rewrite Hname.
Qed.

Lemma bodyTCP_emits hashed ingress x used :
  passesTCP hashed x → ∃ e used', bodyTCP hashed ingress x used = (Some e, used').
Proof.
  destruct x as [i rule]. unfold bodyTCP, ruleTCP, passesTCP.
  intros (-> & Hne%isEmpty_false & -> & Hn). simpl.
  eapply routeNameFor_is_Some in Hn as [[name u] Hname]. rewrite Hname, Hne.
  by eexists _, _.
Qed.

Lemma bodyUDP_passes hashed ingress x used e used' :
  bodyUDP hashed ingress x used = (Some e, used') → passesUDP hashed x.
Proof.
  destruct x as [i rule]. unfold bodyUDP, ruleUDP, passesUDP.
  destruct (IsValidPort (configurationv1beta1.UDPIngressRule.Port rule)); [| done]. simpl.
  destruct (isEmpty _) eqn:Hempty; [done |].
  destruct (IsValidPort _); [| done]. simpl.
  destruct (routeNameFor _ _ _ _ _ _) as [[name u] |] eqn:Hname; [| done].
  intros _. split_and!; [done | by apply isEmpty_false | done |].
  eapply routeNameFor_is_Some. by rewrite Hname.
Qed.

Lemma bodyUDP_emits hashed ingress x used :
  passesUDP hashed x → ∃ e used', bodyUDP hashed ingress x used = (Some e, used').
Proof.
  destruct x as [i rule]. unfold bodyUDP, ruleUDP, passesUDP.
  intros (-> & Hne%isEmpty_false & -> & Hn). simpl. rewrite Hne.
  eapply routeNameFor_is_Some in Hn as [[name u] Hname]. rewrite Hname.
  by eexists _, _.
Qed.

End Validation.

(** ** The routes of each normalizer *)

Section RoutesOfNormalizers.
Context `{Externals}.
Context `{!RouteConfig networkingv1beta1.IngressRule.t}.
Context `{!RouteConfig networkingv1.IngressRule.t}.
Context `{!RouteConfig configurationv1beta1.IngressRule.t}.
Context `{!RouteConfig configurationv1beta1.UDPIngressRule.t}.
Context `{!RouteConfig knative.IngressRule.t}.

Lemma runV1beta1_routesAre l hashed :
  routesAre l itemsV1beta1 (bodyV1beta1 hashed) (passesV1beta1 hashed) noOtherRoute
    (runResources itemsV1beta1 (bodyV1beta1 hashed) ∅ (SliceStable createdBefore l)).
Proof.
  apply routesAre_run; [apply SliceStable_perm | |].
  - intros i x u e u' Hx. split; [by eapply bodyV1beta1_fresh | by eapply bodyV1beta1_passes].
  - intros i x u _ _. apply bodyV1beta1_emits.
Qed.

Lemma runV1_routesAre l hashed :
  Forall (servedV1 hashed) l →
  routesAre l itemsV1 (bodyV1 hashed) (passesV1 hashed) noOtherRoute
    (runResources itemsV1 (bodyV1 hashed) ∅ (SliceStable createdBefore l)).
Proof.
  intros Hserved. apply routesAre_run; [apply SliceStable_perm | |].
  - intros i x u e u' Hx. split; [by eapply bodyV1_fresh | by eapply bodyV1_passes].
  - intros i [[[n rule] j] rulePath] u Hi Hx Hp. apply bodyV1_emits; [done |].
    eapply Forall_forall in Hserved; [| exact Hi]. by eapply Hserved.
Qed.

Lemma fromIngressV1beta1_routesAre l hashed :
  routesAre l itemsV1beta1 (bodyV1beta1 hashed) (passesV1beta1 hashed)
    (defaultRouteV1beta1 l) (ServiceNameToServices (fromIngressV1beta1 l hashed).1).
Proof.
  rewrite fromIngressV1beta1_services. cbv zeta.
  destruct (filter _ _) as [|ingress rest] eqn:Hf;
    [apply routesAre_weaken, runV1beta1_routesAre |].
  destruct (networkingv1beta1.IngressSpec.Backend _) as [db |] eqn:Hdb;
    [| apply routesAre_weaken, runV1beta1_routesAre].
  apply routesAre_appendEmission;
    [apply defaultBackendV1beta1_fresh | | apply runV1beta1_routesAre].
  exists ingress, db. split_and!; [| done | done | done].
  apply filter_sorted_head in Hf. apply Hf.
Qed.

Lemma fromIngressV1_routesAre l hashed result :
  (fromIngressV1 l hashed).1 = Some result →
  routesAre l itemsV1 (bodyV1 hashed) (passesV1 hashed)
    (defaultRouteV1 l) (ServiceNameToServices result).
Proof.
  intros [[Hserved _] Hresult]%fromIngressV1_services. cbv zeta in Hresult.
  destruct (filter _ _) as [|ingress rest] eqn:Hf.
  { rewrite Hresult. by apply routesAre_weaken, runV1_routesAre. }
  destruct Hresult as (db & [[k fresh] r] & Hdb & He & ->).
  apply routesAre_appendEmission;
    [by eapply defaultBackendV1_fresh | | by apply runV1_routesAre].
  exists ingress, db, fresh. split_and!; [| done | done].
  apply filter_sorted_head in Hf. apply Hf.
Qed.

Lemma fromKnativeIngress_routesAre order l hashed :
  routesAre (enumerate (SliceStable createdBefore l)) itemsKnative
    (bodyKnative order hashed) (passesKnative hashed) noOtherRoute
    (ServiceNameToServices (fromKnativeIngress order l hashed).1).
Proof.
  rewrite fromKnativeIngress_run.
  apply routesAre_run; [done | |].
  - intros i x u e u' Hx.
    split; [by eapply bodyKnative_fresh | by eapply bodyKnative_passes].
  - intros i x u _ _. apply bodyKnative_emits.
Qed.

Lemma fromTCPIngressV1beta1_routesAre l hashed :
  routesAre l itemsTCP (bodyTCP hashed) (passesTCP hashed) noOtherRoute
    (ServiceNameToServices (fromTCPIngressV1beta1 l hashed).1).
Proof.
  rewrite fromTCPIngressV1beta1_run.
  apply routesAre_run; [apply SliceStable_perm | |].
  - intros i x u e u' Hx. split; [by eapply bodyTCP_fresh | by eapply bodyTCP_passes].
  - intros i x u _ _. apply bodyTCP_emits.
Qed.

Lemma fromUDPIngressV1beta1_routesAre l hashed :
  routesAre l itemsUDP (bodyUDP hashed) (passesUDP hashed) noOtherRoute
    (ServiceNameToServices (fromUDPIngressV1beta1 l hashed).1).
Proof.
  rewrite fromUDPIngressV1beta1_run.
  apply routesAre_run; [apply SliceStable_perm | |].
  - intros i x u e u' Hx. split; [by eapply bodyUDP_fresh | by eapply bodyUDP_passes].
  - intros i x u _ _. apply bodyUDP_emits.
Qed.

(** C3, as the code has it. Each normalizer has its own checks: the two
    HTTP ingress normalizers skip a rule path that contains ["//"] (the v1
    one also a path of unknown type), the TCP and UDP normalizers skip a rule
    with an invalid listen port, an empty backend service name or an invalid
    backend port, the weighted-split normalizer checks nothing, and with
    hashed names every one of them skips a rule that has no unique id. A rule
    that fails these checks appends no route: every route of the output
    comes from an iteration whose rule passes, or from the default-backend
    block. Processing never stops at a skipped rule: every rule that passes,
    of every resource, has its route in the output. The legacy HTTP, TCP,
    UDP and weighted-split normalizers are total functions, with no error
    result; the v1 normalizer returns on every list all of whose backends
    name a service, and what is said of its output is said of the calls
    that return. *)
Theorem rules_failing_checks_are_skipped (hashed : bool) :
  (∀ l, routesAre l itemsV1beta1 (bodyV1beta1 hashed) (passesV1beta1 hashed)
          (defaultRouteV1beta1 l)
          (ServiceNameToServices (fromIngressV1beta1 l hashed).1)) ∧
  (∀ l, serviceBackendsOnly l = true → is_Some (fromIngressV1 l hashed).1) ∧
  (∀ l result, (fromIngressV1 l hashed).1 = Some result →
     routesAre l itemsV1 (bodyV1 hashed) (passesV1 hashed)
       (defaultRouteV1 l) (ServiceNameToServices result)) ∧
  (∀ l, routesAre l itemsTCP (bodyTCP hashed) (passesTCP hashed) noOtherRoute
          (ServiceNameToServices (fromTCPIngressV1beta1 l hashed).1)) ∧
  (∀ l, routesAre l itemsUDP (bodyUDP hashed) (passesUDP hashed) noOtherRoute
          (ServiceNameToServices (fromUDPIngressV1beta1 l hashed).1)) ∧
  (∀ order l,
     routesAre (enumerate (SliceStable createdBefore l)) itemsKnative
       (bodyKnative order hashed) (passesKnative hashed) noOtherRoute
       (ServiceNameToServices (fromKnativeIngress order l hashed).1)).
Proof.
  split_and!.
  - intros l. apply fromIngressV1beta1_routesAre.
  - intros l Hl. by apply fromIngressV1_returns, serviceBackendsOnly_returns.
  - intros l result. apply fromIngressV1_routesAre.
  - intros l. apply fromTCPIngressV1beta1_routesAre.
  - intros l. apply fromUDPIngressV1beta1_routesAre.
  - intros order l. apply fromKnativeIngress_routesAre.
Qed.

(** *** Path translation *)

Lemma bodyV1_shape hashed ingress i rule j rulePath used e used' :
  bodyV1 hashed ingress (i, rule, j, rulePath) used = (Some e, used') →
  pathsFromK8s rulePath.(networkingv1.HTTPIngressPath.Path) (pathTypeOf rulePath)
    = Some e.2.(kongstate.Route.Route).(kong.Route.Paths) ∧
  e.2.(kongstate.Route.Route).(kong.Route.RegexPriority)
    = Some (priorityForPath (pathTypeOf rulePath)).
Proof.
  unfold bodyV1, pathV1, pathTypeOf.
  destruct (Strings.Contains _ _); [done |].
  destruct (networkingv1.HTTPIngressPath.PathType rulePath) as [pathType |]; simpl;
    (destruct (pathsFromK8s _ _) as [paths |]; [| done]);
    (destruct (routeNameFor _ _ _ _ _ _) as [[name u] |]; [| done]);
    (destruct (networkingv1.IngressBackend.Service _) as [backend |]; [| done]);
    simpl; intros [= <- <-]; by destruct (isEmpty _).
Qed.

Lemma bodyV1beta1_shape hashed ingress i rule j rulePath used e used' :
  bodyV1beta1 hashed ingress (i, rule, j, rulePath) used = (Some e, used') →
  e.2.(kongstate.Route.Route).(kong.Route.Paths)
    = [if isEmpty rulePath.(networkingv1beta1.HTTPIngressPath.Path) then "/"
       else rulePath.(networkingv1beta1.HTTPIngressPath.Path)] ∧
  e.2.(kongstate.Route.Route).(kong.Route.RegexPriority) = Some 0.
Proof.
  unfold bodyV1beta1, pathV1beta1.
  destruct (Strings.Contains _ _); [done |].
  destruct (routeNameFor _ _ _ _ _ _) as [[name u] |]; [| done].
  intros [= <- <-]. by destruct (isEmpty (networkingv1beta1.IngressRule.Host rule)).
Qed.

(** C5, as the code has it. Only the current HTTP ingress normalizer
    translates by path type: the route of a rule path that passes its checks
    has the patterns of [pathsFromK8s] for the path and its type
    ([ImplementationSpecific] when unset) and the priority of that type. The
    legacy normalizer does not look at the path type: the route has the
    literal path as its single pattern (["/"] for the empty path) and
    priority 0. *)
Theorem path_type_translation_is_v1_only (hashed : bool) :
  (∀ l result ingress i rule ps j rulePath,
     (fromIngressV1 l hashed).1 = Some result →
     ingress ∈ l →
     ingress.(networkingv1.Ingress.Spec).(networkingv1.IngressSpec.Rules) !! i = Some rule →
     rule.(networkingv1.IngressRule.HTTP) = Some ps →
     ps !! j = Some rulePath →
     passesV1 hashed (i, rule, j, rulePath) →
     ∃ pre serviceName r,
       iterationEmits itemsV1 (bodyV1 hashed) ingress pre (i, rule, j, rulePath)
         serviceName r ∧
       boundTo (ServiceNameToServices result) serviceName r ∧
       pathsFromK8s rulePath.(networkingv1.HTTPIngressPath.Path) (pathTypeOf rulePath)
         = Some r.(kongstate.Route.Route).(kong.Route.Paths) ∧
       r.(kongstate.Route.Route).(kong.Route.RegexPriority)
         = Some (priorityForPath (pathTypeOf rulePath))) ∧
  (∀ l ingress i rule ps j rulePath,
     ingress ∈ l →
     ingress.(networkingv1beta1.Ingress.Spec).(networkingv1beta1.IngressSpec.Rules) !! i
       = Some rule →
     rule.(networkingv1beta1.IngressRule.HTTP) = Some ps →
     ps !! j = Some rulePath →
     passesV1beta1 hashed (i, rule, j, rulePath) →
     ∃ pre serviceName r,
       iterationEmits itemsV1beta1 (bodyV1beta1 hashed) ingress pre (i, rule, j, rulePath)
         serviceName r ∧
       boundTo (ServiceNameToServices (fromIngressV1beta1 l hashed).1) serviceName r ∧
       r.(kongstate.Route.Route).(kong.Route.Paths)
         = [if isEmpty rulePath.(networkingv1beta1.HTTPIngressPath.Path) then "/"
            else rulePath.(networkingv1beta1.HTTPIngressPath.Path)] ∧
       r.(kongstate.Route.Route).(kong.Route.RegexPriority) = Some 0).
Proof.
  split; [intros l result ingress i rule ps j rulePath Hresult Hin Hi Hps Hj Hpass
         | intros l ingress i rule ps j rulePath Hin Hi Hps Hj Hpass].
  - destruct (fromIngressV1_routesAre l hashed result Hresult) as [_ Hcomplete].
    destruct (Hcomplete ingress (i, rule, j, rulePath) Hin) as (pre & k & r & Hemit & Hb);
      [by eapply nestedItems_elem_of | done |].
    exists pre, k, r. split; [done |]. split; [done |].
    destruct Hemit as (post & f & u' & _ & Hx). by apply bodyV1_shape in Hx.
  - destruct (fromIngressV1beta1_routesAre l hashed) as [_ Hcomplete].
    destruct (Hcomplete ingress (i, rule, j, rulePath) Hin) as (pre & k & r & Hemit & Hb);
      [by eapply nestedItems_elem_of | done |].
    exists pre, k, r. split; [done |]. split; [done |].
    destruct Hemit as (post & f & u' & _ & Hx). by apply bodyV1beta1_shape in Hx.
Qed.

End RoutesOfNormalizers.

Section RoutesExamples.
Import Sample.

(** The HTTP ingress normalizers have no check of the backend service name
    either: a rule path whose backend has the empty name gets its route,
    bound to a service with the empty name inside. *)
Example http_rule_with_empty_service_name_gets_route :
  (λ result, routePaths <$> ServiceNameToServices result !! "default..pnum-80")
    <$> (fromIngressV1 Examples.emptyServiceNameV1 false).1 = Some (Some [["/"]]) ∧
  (λ result, routePaths <$> ServiceNameToServices result !! "default..pnum-80")
    <$> (fromIngressV1 Examples.emptyServiceNameV1 true).1 = Some (Some [["/"]]).
Proof. split; by vm_compute. Qed.

(** C5, as stated, fails: for an [Exact] path the legacy normalizer emits
    the literal path with priority 0, not the anchored pattern with priority
    300 of the translator. *)
Lemma legacy_normalizer_ignores_path_type :
  let out :=
    ServiceNameToServices (fromIngressV1beta1 [Examples.exactFooV1beta1] false).1 in
  routePaths <$> out !! "default.svc.80" = Some [["/foo"]] ∧
  routePriorities <$> out !! "default.svc.80" = Some [Some 0] ∧
  pathsFromK8s "/foo" PathTypeExact = Some ["/foo$"] ∧
  priorityForPath PathTypeExact = 300.
Proof. split_and!; by vm_compute. Qed.

Lemma exactFooV1_returns (hashed : bool) :
  is_Some (fromIngressV1 [Examples.exactFooV1] hashed).1.
Proof. by apply fromIngressV1_returns, serviceBackendsOnly_returns. Defined.

Lemma path_type_translation_is_v1_only_witness :
  (∃ result pre serviceName r,
     (fromIngressV1 [Examples.exactFooV1] false).1 = Some result ∧
     iterationEmits itemsV1 (bodyV1 false) Examples.exactFooV1 pre
       (0%nat, Examples.ruleV1 "example.com"
                 [Examples.pathV1 "/foo" (Some PathTypeExact) "svc" 80],
        0%nat, Examples.pathV1 "/foo" (Some PathTypeExact) "svc" 80) serviceName r ∧
     boundTo (ServiceNameToServices result) serviceName r ∧
     pathsFromK8s "/foo" PathTypeExact
       = Some r.(kongstate.Route.Route).(kong.Route.Paths) ∧
     r.(kongstate.Route.Route).(kong.Route.RegexPriority)
       = Some (priorityForPath PathTypeExact)) ∧
  (∃ pre serviceName r,
     iterationEmits itemsV1beta1 (bodyV1beta1 false) Examples.exactFooV1beta1 pre
       (0%nat, Examples.ruleV1beta1 "example.com"
                 [Examples.pathV1beta1 "/foo" (Some PathTypeExact) "svc" 80],
        0%nat, Examples.pathV1beta1 "/foo" (Some PathTypeExact) "svc" 80) serviceName r ∧
     boundTo (ServiceNameToServices (fromIngressV1beta1 [Examples.exactFooV1beta1] false).1)
       serviceName r ∧
     r.(kongstate.Route.Route).(kong.Route.Paths) = ["/foo"] ∧
     r.(kongstate.Route.Route).(kong.Route.RegexPriority) = Some 0).
Proof.
  split.
  - destruct (exactFooV1_returns false) as [result Hresult]. exists result.
    destruct (proj1 (path_type_translation_is_v1_only false)
                [Examples.exactFooV1] result Examples.exactFooV1 0%nat
                (Examples.ruleV1 "example.com"
                   [Examples.pathV1 "/foo" (Some PathTypeExact) "svc" 80])
                [Examples.pathV1 "/foo" (Some PathTypeExact) "svc" 80] 0%nat
                (Examples.pathV1 "/foo" (Some PathTypeExact) "svc" 80))
      as (pre & serviceName & r & Hemit & Hb & Hp);
      [.. | by exists pre, serviceName, r].
    + exact Hresult.
    + apply list_elem_of_here.
    + reflexivity.
    + reflexivity.
    + reflexivity.
    + split; [reflexivity |]. split; [by eexists |]. intros Hh. discriminate Hh.
  - apply (proj2 (path_type_translation_is_v1_only false)
             [Examples.exactFooV1beta1] Examples.exactFooV1beta1 0%nat _
             [Examples.pathV1beta1 "/foo" (Some PathTypeExact) "svc" 80] 0%nat).
    + apply list_elem_of_here.
    + reflexivity.
    + reflexivity.
    + reflexivity.
    + split; [reflexivity |]. intros Hh. discriminate Hh.
Defined.

Lemma rules_failing_checks_are_skipped_witness :
  ∃ result,
    (fromIngressV1 Examples.emptyServiceNameV1 true).1 = Some result ∧
    routesAre Examples.emptyServiceNameV1 itemsV1 (bodyV1 true) (passesV1 true)
      (defaultRouteV1 Examples.emptyServiceNameV1) (ServiceNameToServices result).
Proof.
  destruct (proj1 (proj2 (rules_failing_checks_are_skipped true))
              Examples.emptyServiceNameV1 eq_refl) as [result Hresult].
  exists result. split; [exact Hresult |].
  exact (proj1 (proj2 (proj2 (rules_failing_checks_are_skipped true))) _ _ Hresult).
Defined.

End RoutesExamples.

(** ** One service per name, first writer wins *)

Lemma firstWriterWins_run {I X} (items : I → list X)
    (body : I → X → gset string → option Emission * gset string) (resources : list I) :
  (∀ i x used e used', body i x used = (Some e, used') → freshService e) →
  firstWriterWins items body resources (runResources items body ∅ resources).
Proof.
  intros Hfresh. split_and!; [by left | |].
  - apply runResources_keyedByName; [| done].
    intros i x u k f r u' Hx. by apply Hfresh in Hx as [_ ?].
  - intros processed i rest pre post -> Hitems.
    rewrite runResources_app. simpl. rewrite Hitems, runLoop_app.
    etrans; [| apply runResources_extends].
    apply runLoop_extends.
Qed.

Lemma firstWriterWins_appendEmission {I X} (items : I → list X)
    (body : I → X → gset string → option Emission * gset string) (resources : list I) e :
  freshService e →
  firstWriterWins items body resources (runResources items body ∅ resources) →
  firstWriterWins items body resources
    (appendEmission e (runResources items body ∅ resources)).
Proof.
  intros [_ Hname] (_ & Hkeyed & Hext). split_and!; [right; by exists e | |].
  - by apply keyedByName_appendRoute.
  - intros processed i rest pre post Hres Hitems.
    etrans; [by eapply Hext | apply appendRoute_extends].
Qed.

Section FirstWriter.
Context `{Externals}.
Context `{!RouteConfig networkingv1beta1.IngressRule.t}.
Context `{!RouteConfig networkingv1.IngressRule.t}.
Context `{!RouteConfig configurationv1beta1.IngressRule.t}.
Context `{!RouteConfig configurationv1beta1.UDPIngressRule.t}.
Context `{!RouteConfig knative.IngressRule.t}.

(** The services are a map from names, every service stored under its own
    name. The tail of every loop body, on a name that is present, appends
    the route to the service stored there and changes nothing else; and in
    each of the five normalizers a service, once created, keeps its
    service-level fields (the embedded Kong service with host, port,
    protocol, timeouts and retries, the namespace, the backend and the
    plugins) up to the output: later writers only append routes. *)
Lemma services_keep_first_writer_fields (hashed : bool) (order : MapOrder) :
  (∀ serviceName fresh r services service,
     services !! serviceName = Some service →
     appendRoute serviceName fresh r services =
     <[serviceName := appendRoutes service [r]]> services) ∧
  (∀ l, firstWriterWins itemsV1beta1 (bodyV1beta1 hashed) (SliceStable createdBefore l)
          (ServiceNameToServices (fromIngressV1beta1 l hashed).1)) ∧
  (∀ l result, (fromIngressV1 l hashed).1 = Some result →
     firstWriterWins itemsV1 (bodyV1 hashed) (SliceStable createdBefore l)
       (ServiceNameToServices result)) ∧
  (∀ l, firstWriterWins itemsTCP (bodyTCP hashed) (SliceStable createdBefore l)
          (ServiceNameToServices (fromTCPIngressV1beta1 l hashed).1)) ∧
  (∀ l, firstWriterWins itemsUDP (bodyUDP hashed) (SliceStable createdBefore l)
          (ServiceNameToServices (fromUDPIngressV1beta1 l hashed).1)) ∧
  (∀ l, firstWriterWins itemsKnative (bodyKnative order hashed)
          (enumerate (SliceStable createdBefore l))
          (ServiceNameToServices (fromKnativeIngress order l hashed).1)).
Proof.
  split_and!.
  - intros. by apply appendRoute_existing.
  - intros l. rewrite fromIngressV1beta1_services. cbv zeta.
    assert (Hrun : firstWriterWins itemsV1beta1 (bodyV1beta1 hashed)
              (SliceStable createdBefore l)
              (runResources itemsV1beta1 (bodyV1beta1 hashed) ∅
                 (SliceStable createdBefore l))).
    { apply firstWriterWins_run. intros i x u e u'. apply bodyV1beta1_fresh. }
    destruct (filter _ _) as [|ingress rest]; [done |].
    destruct (networkingv1beta1.IngressSpec.Backend _) as [db |]; [| done].
    apply firstWriterWins_appendEmission; [apply defaultBackendV1beta1_fresh | done].
  - intros l result [_ Hresult]%fromIngressV1_services. cbv zeta in Hresult.
    assert (Hrun : firstWriterWins itemsV1 (bodyV1 hashed)
              (SliceStable createdBefore l)
              (runResources itemsV1 (bodyV1 hashed) ∅ (SliceStable createdBefore l))).
    { apply firstWriterWins_run. intros i x u e u'. apply bodyV1_fresh. }
    destruct (filter _ _) as [|ingress rest]; [by rewrite Hresult |].
    destruct Hresult as (db & e & _ & He & ->).
    apply firstWriterWins_appendEmission; [by eapply defaultBackendV1_fresh | done].
  - intros l. rewrite fromTCPIngressV1beta1_run.
    apply firstWriterWins_run. intros i x u e u'. apply bodyTCP_fresh.
  - intros l. rewrite fromUDPIngressV1beta1_run.
    apply firstWriterWins_run. intros i x u e u'. apply bodyUDP_fresh.
  - intros l. rewrite fromKnativeIngress_run.
    apply firstWriterWins_run. intros i x u e u'. apply bodyKnative_fresh.
Qed.

End FirstWriter.

(** ** Route names *)

Lemma append_cons (c : ascii) (a b : string) : String c a +:+ b = String c (a +:+ b).
Proof. done. Qed.

Lemma append_nil_l (s : string) : "" +:+ s = s.
Proof. done. Qed.

Lemma append_nil_r (s : string) : s +:+ "" = s.
Proof.
  induction s as [|c s IH]; [done |]. by rewrite append_cons, IH.
Qed.

Lemma append_assoc (a b c : string) : (a +:+ b) +:+ c = a +:+ b +:+ c.
Proof.
  induction a as [|x a IH]; [done |]. by rewrite !append_cons, IH.
Qed.

Lemma append_inj_l (a s1 s2 : string) : a +:+ s1 = a +:+ s2 → s1 = s2.
Proof. apply (inj (String.app a)). Qed.

Lemma append_ne_self (a s : string) : s ≠ "" → a +:+ s ≠ a.
Proof.
  intros Hs Heq. rewrite <-(append_nil_r a) in Heq at 2.
  by apply append_inj_l in Heq.
Qed.

Lemma dash_split (a1 a2 b1 b2 : string) :
  dashFree a1 → dashFree a2 →
  a1 +:+ "-" +:+ b1 = a2 +:+ "-" +:+ b2 → a1 = a2 ∧ b1 = b2.
Proof.
  revert a2. induction a1 as [|c a1 IH]; intros [|d a2];
    rewrite ?append_cons, ?append_nil_l; simpl.
  - by intros _ _ [= ->].
  - intros _ [Hd _] [= <-]. done.
  - intros [Hc _] _ [= ->]. done.
  - intros [_ H1] [_ H2] [= -> Heq]. destruct (IH a2 H1 H2 Heq) as [-> ->]. done.
Qed.

Lemma pretty_N_go_dashFree (x : N) (s : string) :
  dashFree s → dashFree (pretty_N_go x s).
Proof.
  revert s. induction (N.lt_wf_0 x) as [x _ IH]. intros s Hs.
  destruct (decide (x = 0)%N) as [-> | Hx]; [by rewrite pretty_N_go_0 |].
  rewrite pretty_N_go_step by lia.
  apply IH; [apply N.div_lt; lia |].
  split; [| done]. unfold pretty_N_char. by repeat case_match.
Qed.

Lemma pretty_nat_dashFree (n : nat) : dashFree (pretty n).
Proof.
  unfold pretty, pretty_nat, pretty, pretty_N.
  case_decide; [by repeat split | by apply pretty_N_go_dashFree].
Qed.

(** The suffix determines the indices. *)
Lemma suffix_inj (i1 j1 i2 j2 : nat) :
  "-" +:+ pretty i1 +:+ "-" +:+ pretty j1 = "-" +:+ pretty i2 +:+ "-" +:+ pretty j2 →
  i1 = i2 ∧ j1 = j2.
Proof.
  rewrite !append_cons, !append_nil_l. intros [= Heq].
  apply dash_split in Heq as [Hi Hj]; [| apply pretty_nat_dashFree ..].
  split; by apply (inj pretty).
Qed.

Lemma NoDup_enumerate {A} (l : list A) : NoDup (enumerate l).
Proof.
  apply NoDup_alt. intros i j x Hi Hj.
  apply enumerate_lookup in Hi as (a & -> & _).
  by apply enumerate_lookup in Hj as (a' & [= ->] & _).
Qed.

Lemma NoDup_nestedItems {R P} (paths : R → option (list P)) (rules : list R) :
  NoDup (nestedItems paths rules).
Proof.
  unfold nestedItems. apply NoDup_bind; [| | apply NoDup_enumerate].
  - intros [i1 r1] [i2 r2] [[[i r] j] p] _ _ H1 H2.
    destruct (paths r1); [| by apply elem_of_nil in H1].
    destruct (paths r2); [| by apply elem_of_nil in H2].
    apply list_elem_of_fmap in H1 as ([??] & [= -> -> -> ->] & _).
    by apply list_elem_of_fmap in H2 as ([??] & [= -> -> -> ->] & _).
  - intros [i r] _. destruct (paths r); [| constructor].
    apply NoDup_fmap_2; [| apply NoDup_enumerate].
    by intros [??] [??] [= -> ->].
Qed.

(** Two iterations of the nested loops have different index pairs. *)
Lemma nestedItems_positions {R P} (paths : R → option (list P)) (rules : list R)
    pre i1 r1 j1 p1 mid i2 r2 j2 p2 post :
  nestedItems paths rules = pre ++ (i1, r1, j1, p1) :: mid ++ (i2, r2, j2, p2) :: post →
  (i1, j1) ≠ (i2, j2).
Proof.
  intros Hitems [= -> ->].
  pose proof (NoDup_nestedItems paths rules) as Hnd. rewrite Hitems in Hnd.
  apply NoDup_app in Hnd as (_ & _ & Hnd). apply NoDup_cons in Hnd as [Hnotin _].
  assert (H1 : (i2, r1, j2, p1) ∈ nestedItems paths rules)
    by (rewrite Hitems; set_solver).
  assert (H2 : (i2, r2, j2, p2) ∈ nestedItems paths rules)
    by (rewrite Hitems; set_solver).
  apply elem_of_nestedItems in H1 as (ps1 & Hr1 & Hps1 & Hp1).
  apply elem_of_nestedItems in H2 as (ps2 & Hr2 & Hps2 & Hp2).
  assert (r1 = r2) as -> by congruence.
  assert (ps1 = ps2) as -> by congruence.
  assert (p1 = p2) as -> by congruence.
  apply Hnotin. set_solver.
Qed.

Lemma usedAfter_mono {X} (body : X → gset string → option Emission * gset string)
    used items :
  (∀ x u, u ⊆ (body x u).2) → used ⊆ usedAfter body used items.
Proof.
  intros Hmono. induction items as [|x items IH] using rev_ind; [done |].
  rewrite usedAfter_snoc. etrans; [exact IH | apply Hmono].
Qed.

Lemma usedAfter_app {X} (body : X → gset string → option Emission * gset string)
    used items items' :
  usedAfter body used (items ++ items') = usedAfter body (usedAfter body used items) items'.
Proof. unfold usedAfter. by rewrite foldl_app. Qed.

(** The second of two iterations with the same unique id finds the name
    used and takes its suffix. *)
Lemma namedBy_collision {X} (body : X → gset string → option Emission * gset string)
    routePrefix uniqID suffix pre x1 mid x2 e1 used1 e2 used2 id :
  namedBy body routePrefix uniqID suffix →
  body x1 (usedAfter body ∅ pre) = (Some e1, used1) →
  body x2 (usedAfter body ∅ (pre ++ x1 :: mid)) = (Some e2, used2) →
  uniqID x1 = Some id → uniqID x2 = Some id →
  routeName e2 = Some ((routePrefix +:+ id) +:+ suffix x2) ∧
  (routeName e1 = Some (routePrefix +:+ id) ∨
   routeName e1 = Some ((routePrefix +:+ id) +:+ suffix x1)).
Proof.
  intros Hnamed H1 H2 Hid1 Hid2.
  destruct (Hnamed x1 (usedAfter body ∅ pre)) as [_ Hn1].
  destruct (Hn1 e1 used1 H1) as (id1 & Hid1' & Hname1 & Hin1).
  assert (id1 = id) as -> by congruence.
  destruct (Hnamed x2 (usedAfter body ∅ (pre ++ x1 :: mid))) as [_ Hn2].
  destruct (Hn2 e2 used2 H2) as (id2 & Hid2' & Hname2 & _).
  assert (id2 = id) as -> by congruence.
  split.
  - rewrite Hname2, decide_True; [done |].
    rewrite usedAfter_app. simpl.
    eapply (usedAfter_mono body); [intros x u; apply Hnamed |].
    change (foldl _ _ [x1]) with (body x1 (usedAfter body ∅ pre)).2.
    by rewrite H1.
  - rewrite Hname1. destruct (decide _); [by right | by left].
Qed.

Lemma routeNameFor_hashed sequential routePrefix id suffix used name used' :
  routeNameFor true sequential routePrefix (Some id) suffix used = Some (name, used') →
  name = (if decide (routePrefix +:+ id ∈ used)
          then (routePrefix +:+ id) +:+ suffix else routePrefix +:+ id) ∧
  used ⊆ used' ∧ routePrefix +:+ id ∈ used'.
Proof.
  unfold routeNameFor. intros [= <- <-]. split; [done |]. split; [set_solver |].
  case_decide; set_solver.
Qed.

Lemma routeNameFor_mono hashed sequential routePrefix uniqID suffix used name used' :
  routeNameFor hashed sequential routePrefix uniqID suffix used = Some (name, used') →
  used ⊆ used'.
Proof.
  unfold routeNameFor. destruct hashed; [| by intros [= _ <-]].
  destruct uniqID; [| done]. intros [= _ <-]. set_solver.
Qed.


Section Collisions.
Context `{Externals}.
Context `{!RouteConfig networkingv1beta1.IngressRule.t}.
Context `{!RouteConfig networkingv1.IngressRule.t}.

Lemma bodyV1_namedBy ingress :
  namedBy (bodyV1 true ingress) (prefixV1 ingress)
    (λ '(_, rule, _, rulePath), getUniqIDForRouteConfig (uniqueRuleV1 rule rulePath))
    (λ '(i, _, j, _), "-" +:+ pretty i +:+ "-" +:+ pretty j).
Proof.
  intros [[[i rule] j] rulePath] used. unfold bodyV1, pathV1.
  destruct (Strings.Contains _ _); [done |].
  destruct (pathsFromK8s _ _) as [paths |]; [| done].
  destruct (getUniqIDForRouteConfig _) as [id |]; [| done].
  destruct (routeNameFor _ _ _ _ _ _) as [[name u] |] eqn:Hname; [| done].
  apply routeNameFor_hashed in Hname as (-> & Hsub & Hin).
  destruct (networkingv1.IngressBackend.Service _) as [backend |]; [| done]. simpl.
  split; [done |]. intros e used' [= <- <-]. exists id.
  split; [done |]. split; [| done].
  by destruct (isEmpty (networkingv1.IngressRule.Host rule)).
Qed.

Lemma bodyV1beta1_namedBy ingress :
  namedBy (bodyV1beta1 true ingress) (prefixV1beta1 ingress)
    (λ '(_, rule, _, rulePath), getUniqIDForRouteConfig (uniqueRuleV1beta1 rule rulePath))
    (λ '(i, _, j, _), "-" +:+ pretty i +:+ "-" +:+ pretty j).
Proof.
  intros [[[i rule] j] rulePath] used. unfold bodyV1beta1, pathV1beta1.
  destruct (Strings.Contains _ _); [done |].
  destruct (getUniqIDForRouteConfig _) as [id |]; [| done].
  destruct (routeNameFor _ _ _ _ _ _) as [[name u] |] eqn:Hname; [| done].
  apply routeNameFor_hashed in Hname as (-> & Hsub & Hin). simpl.
  split; [done |]. intros e used' [= <- <-]. exists id.
  split; [done |]. split; [| done].
  by destruct (isEmpty (networkingv1beta1.IngressRule.Host rule)).
Qed.

















End Collisions.

Section NamingExamples.
Import Sample.

(** The hypothesis on the namespaces is needed: the names in use are not
    kept from one resource to the next, and two resources whose namespace
    and name give the same prefix (with a dot in a namespace, which a
    cluster does not allow) get the same route name for the same rule. *)
Example same_route_name_in_two_resources :
  let out := ServiceNameToServices <$> (fromIngressV1 Examples.samePrefixV1 true).1 in
  (λ out, routeNames <$> out !! "a.svc.pnum-80") <$> out
    = Some (Some [Some "ingress-v1.a.b.c.example.com|/foo>svc:pnum-80|"]) ∧
  (λ out, routeNames <$> out !! "a.b.svc.pnum-80") <$> out
    = Some (Some [Some "ingress-v1.a.b.c.example.com|/foo>svc:pnum-80|"]).
Proof. split; by vm_compute. Qed.




(** C7. A v1 resource whose rule path and whose default backend name the
    same service and port gets two services with one and the same composite
    key (namespace, backend name and port): the rule loop stores the service
    under the port descriptor (["pnum-80"]), the default-backend block under
    the canonical text of the port (["80"]), so the default route is not
    appended to the service that the rule created. The legacy normalizer
    writes the port the same way in both places: one service, with both
    routes. *)
Theorem default_backend_gets_service_of_its_own (hashed : bool) :
  let v1 :=
    ServiceNameToServices <$> (fromIngressV1 [Examples.ruleAndDefaultV1] hashed).1 in
  let legacy :=
    ServiceNameToServices (fromIngressV1beta1 [Examples.ruleAndDefaultV1beta1] hashed).1 in
  let key :=
    ("default",
     {| kongstate.BackendName := "svc";
        kongstate.BackendPort :=
          {| kongstate.Mode := kongstate.PortModeByNumber;
             kongstate.Number := 80;
             kongstate.PortName := "" |} |}) in
  size <$> v1 = Some 2%nat ∧
  (λ out, compositeKey <$> out !! "default.svc.pnum-80") <$> v1 = Some (Some key) ∧
  (λ out, compositeKey <$> out !! "default.svc.80") <$> v1 = Some (Some key) ∧
  (λ out, routePaths <$> out !! "default.svc.pnum-80") <$> v1 = Some (Some [["/foo"]]) ∧
  (λ out, routePaths <$> out !! "default.svc.80") <$> v1 = Some (Some [["/"]]) ∧
  size legacy = 1%nat ∧
  compositeKey <$> legacy !! "default.svc.80" = Some key ∧
  routePaths <$> legacy !! "default.svc.80" = Some [["/foo"]; ["/"]].
Proof.
  destruct hashed; split_and!; by vm_compute.
Qed.

(** The plugins are those of the first writer: the header of the second
    path, which goes to the service created for the first, is not added. *)
Example knative_second_path_headers_dropped :
  let out :=
    ServiceNameToServices
      (fromKnativeIngress ascending Examples.headerOnSecondPath false).1 in
  routePaths <$> out !! "default.svc.80" = Some [["/a"]; ["/b"]] ∧
  pluginHeaders <$> out !! "default.svc.80" = Some [].
Proof. split; by vm_compute. Qed.

End NamingExamples.

(** * Further properties of the code *)

(** ** Port descriptors *)

Lemma pname_ne_pnum (a b : string) : "pname-" +:+ a ≠ "pnum-" +:+ b.
Proof. rewrite !append_cons. discriminate. Qed.

(** X1. The port descriptor inside a v1 service name identifies the port
    definition of the backend: two backend ports have the same descriptor
    exactly when [PortDefFromServiceBackendPort] gives the same definition. *)
Theorem port_descriptor_identifies_port_def (p q : networkingv1.ServiceBackendPort.t) :
  serviceBackendPortToStr p = serviceBackendPortToStr q ↔
  PortDefFromServiceBackendPort p = PortDefFromServiceBackendPort q.
Proof.
  unfold serviceBackendPortToStr, PortDefFromServiceBackendPort.
  destruct (isEmpty (networkingv1.ServiceBackendPort.Name p)) eqn:Hp,
           (isEmpty (networkingv1.ServiceBackendPort.Name q)) eqn:Hq; simpl.
  - split.
    + intros Heq. apply (inj (String.app "pnum-")), (inj pretty) in Heq. by rewrite Heq.
    + destruct (Z.eqb_spec (networkingv1.ServiceBackendPort.Number p) 0) as [Hp0 | Hp0],
               (Z.eqb_spec (networkingv1.ServiceBackendPort.Number q) 0) as [Hq0 | Hq0];
        simpl; intros Heq; try discriminate Heq.
      * by rewrite Hp0, Hq0.
      * injection Heq as ->. done.
  - apply isEmpty_false in Hq. split.
    + intros Heq. symmetry in Heq. by apply pname_ne_pnum in Heq.
    + destruct (_ =? _)%Z; simpl; discriminate.
  - apply isEmpty_false in Hp. split.
    + intros Heq. by apply pname_ne_pnum in Heq.
    + destruct (_ =? _)%Z; simpl; discriminate.
  - split.
    + intros Heq. apply (inj (String.app "pname-")) in Heq. by rewrite Heq.
    + intros [= ->]. done.
Qed.

(** ** The path translator on its own *)

Lemma knownPathType_cases (pathType : PathType) :
  knownPathType pathType ∨
  (String.eqb pathType PathTypePrefix = false ∧
   String.eqb pathType PathTypeExact = false ∧
   String.eqb pathType PathTypeImplementationSpecific = false).
Proof.
  unfold knownPathType.
  destruct (String.eqb_spec pathType PathTypePrefix); [by left; right; left |].
  destruct (String.eqb_spec pathType PathTypeExact); [by left; left |].
  destruct (String.eqb_spec pathType PathTypeImplementationSpecific);
    [by left; right; right | by right].
Qed.

(** X2. [pathsFromK8s] fails for the unknown path types and for nothing else,
    whatever the path; these are the types for which [priorityForPath] has no
    entry and reads 0; and a translation has one or two patterns. *)
Theorem pathsFromK8s_fails_on_unknown_types_only (path : string) (pathType : PathType) :
  (pathsFromK8s path pathType = None ↔ ¬ knownPathType pathType) ∧
  (priorityForPath pathType = 0 ↔ ¬ knownPathType pathType) ∧
  (∀ patterns, pathsFromK8s path pathType = Some patterns →
     length patterns = 1%nat ∨ length patterns = 2%nat).
Proof.
  destruct (knownPathType_cases pathType) as [Hknown | (Hp & He & Hi)].
  - assert (Hsome : is_Some (pathsFromK8s path pathType) ∧ priorityForPath pathType ≠ 0).
    { destruct Hknown as [-> | [-> | ->]]; unfold pathsFromK8s, priorityForPath; simpl;
        repeat case_match; split; (by eexists) || done. }
    destruct Hsome as [[patterns Hsome] Hprio]. split_and!.
    + rewrite Hsome. split; [done | by intros []].
    + split; [done | by intros []].
    + intros ps. rewrite Hsome. intros [= <-].
      destruct Hknown as [-> | [-> | ->]]; unfold pathsFromK8s in Hsome; simpl in Hsome;
        repeat case_match; simplify_eq; auto.
  - assert (Hunknown : ¬ knownPathType pathType).
    { intros [-> | [-> | ->]]; discriminate. }
    unfold pathsFromK8s, priorityForPath. rewrite Hp, He, Hi. by split_and!.
Qed.

Lemma TrimLeft_slash (s : string) : Strings.TrimLeft ("/" +:+ s) "/" = Strings.TrimLeft s "/".
Proof. done. Qed.

Lemma TrimRight_slash (s : string) : Strings.TrimRight (s +:+ "/") "/" = Strings.TrimRight s "/".
Proof.
  induction s as [|c s IH]; [done |].
  rewrite append_cons. simpl. by rewrite IH.
Qed.

Lemma TrimLeft_app (s t : string) :
  Strings.TrimLeft (s +:+ t) "/" =
  if isEmpty (Strings.TrimLeft s "/") then Strings.TrimLeft t "/"
  else Strings.TrimLeft s "/" +:+ t.
Proof.
  induction s as [|c s IH]; [done |].
  rewrite append_cons. simpl. destruct (Ascii.eqb c "/"); [exact IH | done].
Qed.

Lemma pathsFromK8s_Prefix (path : string) :
  pathsFromK8s path PathTypePrefix =
  if isEmpty (Strings.Trim path "/") then Some ["/"]
  else Some ["/" +:+ Strings.Trim path "/" +:+ "$"; "/" +:+ Strings.Trim path "/" +:+ "/"].
Proof. done. Qed.

Lemma pathsFromK8s_Exact (path : string) :
  pathsFromK8s path PathTypeExact = Some ["/" +:+ Strings.TrimLeft path "/" +:+ "$"].
Proof. done. Qed.

Lemma pathsFromK8s_ImplementationSpecific (path : string) :
  pathsFromK8s path PathTypeImplementationSpecific =
  if isEmpty path then Some ["/"] else Some [path].
Proof. done. Qed.

(** X3. A [Prefix] path is translated up to separators at its ends, an [Exact]
    path up to separators at its start: one more separator there does not
    change the patterns. *)
Theorem pathsFromK8s_ignores_outer_separators (path : string) :
  pathsFromK8s ("/" +:+ path) PathTypePrefix = pathsFromK8s path PathTypePrefix ∧
  pathsFromK8s (path +:+ "/") PathTypePrefix = pathsFromK8s path PathTypePrefix ∧
  pathsFromK8s ("/" +:+ path) PathTypeExact = pathsFromK8s path PathTypeExact.
Proof.
  rewrite !pathsFromK8s_Prefix, !pathsFromK8s_Exact. unfold Strings.Trim. split_and!.
  - by rewrite TrimLeft_slash.
  - rewrite TrimLeft_app.
    destruct (isEmpty (Strings.TrimLeft path "/")) eqn:Hempty.
    + apply isEmpty_true in Hempty. by rewrite Hempty.
    + by rewrite TrimRight_slash.
  - by rewrite TrimLeft_slash.
Qed.
(** ** Repeated separators *)

Lemma Contains_cons (c : ascii) (s : string) :
  Strings.Contains (String c s) "//" =
  (Ascii.eqb c "/" && startsWithSlash s) || Strings.Contains s "//".
Proof.
  cbn [Strings.Contains String.prefix]. destruct (ascii_dec "/" c) as [<- | Hc].
  - destruct s as [|d s]; [done |]. cbn [startsWithSlash String.prefix].
    destruct (ascii_dec "/" d) as [<- | Hd]; [by destruct s |].
    by apply Ascii.eqb_neq in Hd; rewrite (Ascii.eqb_sym d), Hd.
  - by apply Ascii.eqb_neq in Hc; rewrite (Ascii.eqb_sym c), Hc.
Qed.

Lemma startsWithSlash_app (s t : string) :
  startsWithSlash (s +:+ t) = if isEmpty s then startsWithSlash t else startsWithSlash s.
Proof. destruct s; [done |]. by rewrite append_cons. Qed.

Lemma Contains_app (s t : string) :
  Strings.Contains (s +:+ t) "//" =
  Strings.Contains s "//" || Strings.Contains t "//" || (endsWithSlash s && startsWithSlash t).
Proof.
  induction s as [|c s IH].
  - rewrite append_nil_l. simpl. by rewrite orb_false_r.
  - rewrite append_cons, !Contains_cons, IH, startsWithSlash_app.
    destruct s as [|d s].
    + simpl. destruct (Ascii.eqb c "/"), (Strings.Contains t "//"), (startsWithSlash t); done.
    + change (endsWithSlash (String c (String d s))) with (endsWithSlash (String d s)).
      change (isEmpty (String d s)) with false. cbv iota.
      destruct (Ascii.eqb c "/" && startsWithSlash (String d s)),
        (Strings.Contains (String d s) "//"), (Strings.Contains t "//"),
        (endsWithSlash (String d s) && startsWithSlash t); done.
Qed.

Lemma TrimLeft_separatorsSingle (s : string) :
  separatorsSingle s → separatorsSingle (Strings.TrimLeft s "/").
Proof.
  unfold separatorsSingle. induction s as [|c s IH]; [done |].
  intros Hs. simpl. destruct (Ascii.eqb c "/"); [| done].
  apply IH. rewrite Contains_cons in Hs. by apply orb_false_elim in Hs as [_ ?].
Qed.

Lemma TrimLeft_start (s : string) : startsWithSlash (Strings.TrimLeft s "/") = false.
Proof.
  induction s as [|c s IH]; [done |].
  simpl. by destruct (Ascii.eqb c "/") eqn:Hc; [| simpl].
Qed.

Lemma TrimRight_start (s : string) :
  startsWithSlash (Strings.TrimRight s "/") = true → startsWithSlash s = true.
Proof.
  destruct s as [|c s]; [done |]. simpl.
  destruct (Strings.TrimRight s "/"); [| done].
  destruct (Ascii.eqb c "/") eqn:Hc; simpl; rewrite ?Hc; done.
Qed.

Lemma TrimRight_end (s : string) : endsWithSlash (Strings.TrimRight s "/") = false.
Proof.
  induction s as [|c s IH]; [done |]. simpl.
  destruct (Strings.TrimRight s "/") as [|d t] eqn:Ht.
  - by destruct (Ascii.eqb c "/") eqn:Hc; [| simpl].
  - exact IH.
Qed.

Lemma TrimRight_separatorsSingle (s : string) :
  separatorsSingle s → separatorsSingle (Strings.TrimRight s "/").
Proof.
  unfold separatorsSingle. induction s as [|c s IH]; [done |].
  rewrite Contains_cons. intros Hs. apply orb_false_elim in Hs as [Hc Hs].
  specialize (IH Hs). simpl.
  destruct (Strings.TrimRight s "/") as [|d t] eqn:Ht.
  - destruct (Ascii.eqb c "/"); [done |].
    rewrite Contains_cons. simpl. by rewrite andb_false_r.
  - rewrite Contains_cons, IH, orb_false_r.
    destruct (Ascii.eqb c "/"); [| done]. simpl in *.
    destruct (startsWithSlash (String d t)) eqn:Hd; [| done].
    rewrite <-Ht in Hd. apply TrimRight_start in Hd. congruence.
Qed.

Lemma pathsFromK8s_separatorsSingle (path : string) (pathType : PathType)
    (patterns : list string) :
  separatorsSingle path →
  pathsFromK8s path pathType = Some patterns →
  Forall separatorsSingle patterns.
Proof.
  intros Hpath Hsome.
  assert (Hknown : knownPathType pathType).
  { destruct (knownPathType_cases pathType) as [? | (Hp & He & Hi)]; [done |].
    unfold pathsFromK8s in Hsome. by rewrite Hp, He, Hi in Hsome. }
  destruct Hknown as [-> | [-> | ->]].
  - rewrite pathsFromK8s_Exact in Hsome. injection Hsome as <-.
    apply Forall_singleton. unfold separatorsSingle.
    rewrite append_cons, append_nil_l, Contains_cons, !Contains_app, !startsWithSlash_app.
    rewrite (TrimLeft_separatorsSingle _ Hpath), TrimLeft_start.
    by destruct (isEmpty _), (endsWithSlash _).
  - rewrite pathsFromK8s_Prefix in Hsome. unfold Strings.Trim in Hsome.
    pose proof (TrimRight_separatorsSingle _ (TrimLeft_separatorsSingle _ Hpath)) as Hbase.
    pose proof (TrimRight_end (Strings.TrimLeft path "/")) as Hend.
    assert (Hstart : startsWithSlash (Strings.TrimRight (Strings.TrimLeft path "/") "/") = false).
    { destruct (startsWithSlash _) eqn:Hs; [| done].
      apply TrimRight_start in Hs. by rewrite TrimLeft_start in Hs. }
    destruct (isEmpty _) eqn:Hempty; injection Hsome as <-.
    + by apply Forall_singleton.
    + unfold separatorsSingle in *. rewrite !Forall_cons. split_and!; [| | by apply Forall_nil].
      all: rewrite append_cons, append_nil_l, Contains_cons, !Contains_app,
             !startsWithSlash_app, Hempty, Hbase, Hstart, Hend; done.
  - rewrite pathsFromK8s_ImplementationSpecific in Hsome.
    destruct (isEmpty path); injection Hsome as <-; by apply Forall_singleton.
Qed.

(** X4. A path without a repeated separator is translated to patterns without
    one, for each path type: the translator adds separators at the ends
    only, after trimming those that are there. *)
Theorem pathsFromK8s_keeps_separators_single (path : string) (pathType : PathType)
    (patterns : list string) :
  separatorsSingle path →
  pathsFromK8s path pathType = Some patterns →
  Forall separatorsSingle patterns.
Proof. apply pathsFromK8s_separatorsSingle. Qed.

Lemma pathsFromK8s_keeps_separators_single_witness :
  separatorsSingle "/foo/" ∧ pathsFromK8s "/foo/" PathTypePrefix = Some ["/foo$"; "/foo/"] ∧
  Forall separatorsSingle ["/foo$"; "/foo/"].
Proof.
  assert (Hp : separatorsSingle "/foo/") by reflexivity.
  assert (Hs : pathsFromK8s "/foo/" PathTypePrefix = Some ["/foo$"; "/foo/"]) by reflexivity.
  exact (conj Hp (conj Hs (pathsFromK8s_keeps_separators_single _ _ _ Hp Hs))).
Defined.
(** ** When the order of a map does not matter *)

Lemma foldl_ext_in {S A} (f g : S → A → S) s (l : list A) :
  (∀ s a, a ∈ l → f s a = g s a) → foldl f s l = foldl g s l.
Proof.
  revert s. induction l as [|a l IH]; intros s Hext; [done |].
  simpl. rewrite Hext by left. apply IH. intros s' b Hb. apply Hext. by right.
Qed.

Lemma validMapOrder_few (order1 order2 : MapOrder) site (m : gmap string string) :
  validMapOrder order1 → validMapOrder order2 → (size m ≤ 1)%nat →
  order1 site m = order2 site m.
Proof.
  intros H1 H2 Hsize. specialize (H1 site m). specialize (H2 site m).
  rewrite <-length_map_to_list in Hsize.
  destruct (map_to_list m) as [|x [|y rest]]; simpl in Hsize; [| | lia].
  - apply Permutation_nil_r in H1, H2. by rewrite H1, H2.
  - apply Permutation_singleton_r in H1, H2. by rewrite H1, H2.
Qed.

Lemma knativeSelectSplit_few splits :
  Forall (λ split, (size split.(knative.IngressBackendSplit.AppendHeaders) ≤ 1)%nat) splits →
  (size (knativeSelectSplit splits).(knative.IngressBackendSplit.AppendHeaders) ≤ 1)%nat.
Proof.
  destruct splits as [|res rest].
  { intros _. change (size (∅ : gmap string string) ≤ 1)%nat.
    rewrite map_size_empty. lia. }
  intros Hall. simpl.
  destruct (knativeSelectSplit_scan_max res rest)
    as (before & selected & after & Heq & -> & _).
  rewrite Forall_forall in Hall. apply Hall. rewrite Heq. set_solver.
Qed.

Section FewHeaders.
Context `{Externals}.
Context `{!RouteConfig knative.IngressRule.t}.

Lemma pathKnative_few order1 order2 hashed p ingress routePrefix i rule j rulePath used :
  validMapOrder order1 → validMapOrder order2 →
  (size rulePath.(knative.HTTPIngressPath.AppendHeaders) ≤ 1)%nat →
  Forall (λ split, (size split.(knative.IngressBackendSplit.AppendHeaders) ≤ 1)%nat)
    rulePath.(knative.HTTPIngressPath.Splits) →
  pathKnative order1 hashed p ingress routePrefix i rule j rulePath used =
  pathKnative order2 hashed p ingress routePrefix i rule j rulePath used.
Proof.
  intros H1 H2 Hpath Hsplits%knativeSelectSplit_few. unfold pathKnative.
  by rewrite (validMapOrder_few order1 order2 (p, i, j, false) _ H1 H2 Hsplits),
    (validMapOrder_few order1 order2 (p, i, j, true) _ H1 H2 Hpath).
Qed.

Lemma ingressKnative_few order1 order2 hashed result p ingress :
  validMapOrder order1 → validMapOrder order2 → fewHeaders ingress →
  ingressKnative order1 hashed result p ingress =
  ingressKnative order2 hashed result p ingress.
Proof.
  intros H1 H2 Hfew. unfold ingressKnative. f_equal. f_equal.
  apply foldl_ext_in. intros st [i rule] Hrule%elem_of_enumerate%list_elem_of_lookup_2.
  unfold fewHeaders in Hfew. rewrite Forall_forall in Hfew. specialize (Hfew _ Hrule).
  unfold ruleKnative. destruct (knative.IngressRule.HTTP rule) as [paths |]; [| done].
  simpl in Hfew. rewrite Forall_forall in Hfew.
  apply foldl_ext_in. intros st' [j rulePath] Hpath%elem_of_enumerate%list_elem_of_lookup_2.
  destruct (Hfew _ Hpath) as [Hsize Hsplits]. f_equal. by apply pathKnative_few.
Qed.

Lemma fromKnativeIngress_few (order1 order2 : MapOrder) (l : list knative.Ingress.t)
    (hashed : bool) :
  validMapOrder order1 → validMapOrder order2 → Forall fewHeaders l →
  fromKnativeIngress order1 l hashed = fromKnativeIngress order2 l hashed.
Proof.
  intros H1 H2 Hfew. unfold fromKnativeIngress. f_equal.
  apply foldl_ext_in. intros result [p ingress] Hin%elem_of_enumerate%list_elem_of_lookup_2.
  apply ingressKnative_few; [done | done |].
  rewrite Forall_forall in Hfew. apply Hfew. by rewrite SliceStable_perm in Hin.
Qed.

(** X15. The order in which a run visits the header maps does not matter when no
    header map has more than one entry: under any two orders that a run can
    meet, [fromKnativeIngress] gives the same IR fragment. *)
Theorem knative_order_is_irrelevant_for_few_headers
    (order1 order2 : MapOrder) (l : list knative.Ingress.t) (hashed : bool) :
  validMapOrder order1 → validMapOrder order2 → Forall fewHeaders l →
  fromKnativeIngress order1 l hashed = fromKnativeIngress order2 l hashed.
Proof. apply fromKnativeIngress_few. Qed.

End FewHeaders.

Section FewHeadersExamples.
Import Sample.

Lemma headerOnSecondPath_fewHeaders : Forall fewHeaders Examples.headerOnSecondPath.
Proof. repeat constructor; by vm_compute. Defined.

Lemma knative_order_is_irrelevant_for_few_headers_witness :
  fromKnativeIngress ascending Examples.headerOnSecondPath true
  = fromKnativeIngress descending Examples.headerOnSecondPath true.
Proof.
  apply knative_order_is_irrelevant_for_few_headers;
    [apply ascending_valid | apply descending_valid | apply headerOnSecondPath_fewHeaders].
Defined.

End FewHeadersExamples.

(** ** The input list only counts through its sorted form *)

Section SortedForm.
Context {A : Type} `{Object A}.

Lemma SliceStable_idemp (l : list A) :
  SliceStable createdBefore (SliceStable createdBefore l) = SliceStable createdBefore l.
Proof. apply SliceStable_sorted_id, SliceStable_sorted. Qed.

Lemma distinctAges_inj (l : list A) (a b : A) :
  distinctAges l → a ∈ l → b ∈ l → CreationTimestamp a = CreationTimestamp b → a = b.
Proof.
  unfold distinctAges. induction l as [|x l IH]; [by intros _ ?%elem_of_nil |].
  rewrite fmap_cons, NoDup_cons, !elem_of_cons, list_elem_of_fmap.
  intros [Hx Hl] [-> | Ha] [-> | Hb] Heq; [done | | | by apply IH].
  - destruct Hx. by exists b.
  - destruct Hx. by exists a.
Qed.

Lemma SliceStable_distinctAges (l1 l2 : list A) :
  l1 ≡ₚ l2 → distinctAges l1 →
  SliceStable createdBefore l1 = SliceStable createdBefore l2.
Proof.
  intros Hperm Hdistinct.
  apply (StronglySorted_unique_strong notAfter); try apply SliceStable_sorted.
  - intros a b Ha Hb Hab Hba.
    rewrite SliceStable_perm in Ha. rewrite SliceStable_perm, <-Hperm in Hb.
    apply (distinctAges_inj l1); [done .. |]. unfold notAfter in *. lia.
  - by rewrite !SliceStable_perm.
Qed.

End SortedForm.

Section SortedFormOfNormalizers.
Context `{Externals}.
Context `{!RouteConfig networkingv1beta1.IngressRule.t}.
Context `{!RouteConfig networkingv1.IngressRule.t}.
Context `{!RouteConfig configurationv1beta1.IngressRule.t}.
Context `{!RouteConfig configurationv1beta1.UDPIngressRule.t}.
Context `{!RouteConfig knative.IngressRule.t}.

Lemma fromIngressV1beta1_sorted_form l1 l2 hashed :
  SliceStable createdBefore l1 = SliceStable createdBefore l2 →
  fromIngressV1beta1 l1 hashed = fromIngressV1beta1 l2 hashed.
Proof. unfold fromIngressV1beta1. by intros ->. Qed.

Lemma fromIngressV1_sorted_form l1 l2 hashed :
  SliceStable createdBefore l1 = SliceStable createdBefore l2 →
  fromIngressV1 l1 hashed = fromIngressV1 l2 hashed.
Proof. unfold fromIngressV1. by intros ->. Qed.

Lemma fromTCPIngressV1beta1_sorted_form l1 l2 hashed :
  SliceStable createdBefore l1 = SliceStable createdBefore l2 →
  fromTCPIngressV1beta1 l1 hashed = fromTCPIngressV1beta1 l2 hashed.
Proof. unfold fromTCPIngressV1beta1. by intros ->. Qed.

Lemma fromUDPIngressV1beta1_sorted_form l1 l2 hashed :
  SliceStable createdBefore l1 = SliceStable createdBefore l2 →
  fromUDPIngressV1beta1 l1 hashed = fromUDPIngressV1beta1 l2 hashed.
Proof. unfold fromUDPIngressV1beta1. by intros ->. Qed.

Lemma fromKnativeIngress_sorted_form order l1 l2 hashed :
  SliceStable createdBefore l1 = SliceStable createdBefore l2 →
  fromKnativeIngress order l1 hashed = fromKnativeIngress order l2 hashed.
Proof. unfold fromKnativeIngress. by intros ->. Qed.

Lemma fromTCPIngressV1beta1_slice l hashed :
  (fromTCPIngressV1beta1 l hashed).2 = SliceStable createdBefore l.
Proof. done. Qed.

Lemma fromUDPIngressV1beta1_slice l hashed :
  (fromUDPIngressV1beta1 l hashed).2 = SliceStable createdBefore l.
Proof. done. Qed.

Lemma fromKnativeIngress_slice order l hashed :
  (fromKnativeIngress order l hashed).2 = SliceStable createdBefore l.
Proof. done. Qed.

(** X5. Running a normalizer again on the slice as its first run left it
    leaves the slice as it is, after the first call the caller's slice is a
    fixed point of the sort, and gives the same outcome: for the two HTTP
    ingress, the TCP and the UDP normalizers always (for the v1 normalizer
    the same IR fragment or the same panic); for the weighted-split
    normalizer, whose header lists follow the map order that the run meets,
    under any two orders when no header map has more than one entry. *)
Theorem normalizers_rerun_on_left_slice (hashed : bool) :
  (∀ l, fromIngressV1beta1 (fromIngressV1beta1 l hashed).2 hashed
        = fromIngressV1beta1 l hashed) ∧
  (∀ l, fromIngressV1 (fromIngressV1 l hashed).2 hashed = fromIngressV1 l hashed) ∧
  (∀ l, fromTCPIngressV1beta1 (fromTCPIngressV1beta1 l hashed).2 hashed
        = fromTCPIngressV1beta1 l hashed) ∧
  (∀ l, fromUDPIngressV1beta1 (fromUDPIngressV1beta1 l hashed).2 hashed
        = fromUDPIngressV1beta1 l hashed) ∧
  (∀ order1 order2 l,
     (fromKnativeIngress order2 (fromKnativeIngress order1 l hashed).2 hashed).2
     = (fromKnativeIngress order1 l hashed).2) ∧
  (∀ order1 order2 l,
     validMapOrder order1 → validMapOrder order2 → Forall fewHeaders l →
     fromKnativeIngress order2 (fromKnativeIngress order1 l hashed).2 hashed
     = fromKnativeIngress order1 l hashed).
Proof.
  split_and!; intros.
  - apply fromIngressV1beta1_sorted_form.
    rewrite fromIngressV1beta1_slice. apply SliceStable_idemp.
  - apply fromIngressV1_sorted_form.
    rewrite fromIngressV1_slice. apply SliceStable_idemp.
  - apply fromTCPIngressV1beta1_sorted_form.
    rewrite fromTCPIngressV1beta1_slice. apply SliceStable_idemp.
  - apply fromUDPIngressV1beta1_sorted_form.
    rewrite fromUDPIngressV1beta1_slice. apply SliceStable_idemp.
  - rewrite !fromKnativeIngress_slice. apply SliceStable_idemp.
  - rewrite (fromKnativeIngress_few order1 order2 l) by done.
    apply fromKnativeIngress_sorted_form.
    rewrite fromKnativeIngress_slice. apply SliceStable_idemp.
Qed.

(** X6. When no two resources of the input were created at the same instant,
    the order in which the caller lists them does not matter: for any two
    arrangements of the same resources a normalizer leaves the same slice
    and gives the same outcome; the two HTTP ingress, the TCP and the UDP
    normalizers always (for the v1 normalizer the same IR fragment or the
    same panic), the weighted-split normalizer under any two map orders
    when no header map has more than one entry. *)
Theorem input_order_is_irrelevant_for_distinct_ages (hashed : bool) :
  (∀ l1 l2, l1 ≡ₚ l2 → distinctAges l1 →
     fromIngressV1beta1 l1 hashed = fromIngressV1beta1 l2 hashed) ∧
  (∀ l1 l2, l1 ≡ₚ l2 → distinctAges l1 →
     fromIngressV1 l1 hashed = fromIngressV1 l2 hashed) ∧
  (∀ l1 l2, l1 ≡ₚ l2 → distinctAges l1 →
     fromTCPIngressV1beta1 l1 hashed = fromTCPIngressV1beta1 l2 hashed) ∧
  (∀ l1 l2, l1 ≡ₚ l2 → distinctAges l1 →
     fromUDPIngressV1beta1 l1 hashed = fromUDPIngressV1beta1 l2 hashed) ∧
  (∀ order1 order2 l1 l2, l1 ≡ₚ l2 → distinctAges l1 →
     (fromKnativeIngress order1 l1 hashed).2 = (fromKnativeIngress order2 l2 hashed).2) ∧
  (∀ order1 order2 l1 l2, l1 ≡ₚ l2 → distinctAges l1 →
     validMapOrder order1 → validMapOrder order2 → Forall fewHeaders l1 →
     fromKnativeIngress order1 l1 hashed = fromKnativeIngress order2 l2 hashed).
Proof.
  split_and!; intros.
  - by apply fromIngressV1beta1_sorted_form, SliceStable_distinctAges.
  - by apply fromIngressV1_sorted_form, SliceStable_distinctAges.
  - by apply fromTCPIngressV1beta1_sorted_form, SliceStable_distinctAges.
  - by apply fromUDPIngressV1beta1_sorted_form, SliceStable_distinctAges.
  - rewrite !fromKnativeIngress_slice. by apply SliceStable_distinctAges.
  - rewrite (fromKnativeIngress_few order1 order2 l1) by done.
    by apply fromKnativeIngress_sorted_form, SliceStable_distinctAges.
Qed.

End SortedFormOfNormalizers.

Section SortedFormExamples.
Import Sample.

Lemma input_order_is_irrelevant_for_distinct_ages_witness :
  fromIngressV1beta1 Examples.threeDefaultsV1beta1 true
    = fromIngressV1beta1 (reverse Examples.threeDefaultsV1beta1) true ∧
  fromIngressV1 Examples.threeDefaultsV1 true
    = fromIngressV1 (reverse Examples.threeDefaultsV1) true ∧
  fromTCPIngressV1beta1 [MoreExamples.newerTCP; MoreExamples.olderTCP] true
    = fromTCPIngressV1beta1 [MoreExamples.olderTCP; MoreExamples.newerTCP] true ∧
  fromUDPIngressV1beta1 [MoreExamples.newerUDP; MoreExamples.olderUDP] true
    = fromUDPIngressV1beta1 [MoreExamples.olderUDP; MoreExamples.newerUDP] true ∧
  fromKnativeIngress ascending (Examples.headerOnSecondPath ++ MoreExamples.laterKnative) true
    = fromKnativeIngress descending
        (MoreExamples.laterKnative ++ Examples.headerOnSecondPath) true.
Proof.
  destruct (input_order_is_irrelevant_for_distinct_ages true)
    as (Hv1beta1 & Hv1 & Htcp & Hudp & _ & Hknative).
  split_and!.
  - apply Hv1beta1; [by rewrite reverse_Permutation | by apply (bool_decide_unpack _)].
  - apply Hv1; [by rewrite reverse_Permutation | by apply (bool_decide_unpack _)].
  - apply Htcp; [apply perm_swap | by apply (bool_decide_unpack _)].
  - apply Hudp; [apply perm_swap | by apply (bool_decide_unpack _)].
  - apply Hknative; [apply Permutation_app_comm | by apply (bool_decide_unpack _)
                     | apply ascending_valid | apply descending_valid |].
    repeat constructor; by vm_compute.
Defined.

Lemma normalizers_rerun_on_left_slice_witness :
  fromKnativeIngress descending
    (fromKnativeIngress ascending Examples.headerOnSecondPath true).2 true
  = fromKnativeIngress ascending Examples.headerOnSecondPath true.
Proof.
  apply (proj2 (proj2 (proj2 (proj2 (proj2 (normalizers_rerun_on_left_slice true)))))).
  - apply ascending_valid.
  - apply descending_valid.
  - apply headerOnSecondPath_fewHeaders.
Defined.

End SortedFormExamples.
(** ** The traffic-split selector by parts *)

Lemma knativeSelectSplit_scan_app res l1 l2 :
  knativeSelectSplit_scan res (l1 ++ l2) =
  knativeSelectSplit_scan (knativeSelectSplit_scan res l1) l2.
Proof.
  revert res. induction l1 as [|x l1 IH]; intros res; simpl; [done |].
  destruct (_ >? _)%Z; apply IH.
Qed.

Lemma knativeSelectSplit_snoc l s :
  l ≠ [] →
  knativeSelectSplit (l ++ [s]) =
  if (weight s >? weight (knativeSelectSplit l))%Z then s else knativeSelectSplit l.
Proof.
  destruct l as [|x rest]; [done |]. intros _. simpl.
  apply knativeSelectSplit_scan_snoc.
Qed.

Lemma knativeSelectSplit_scan_select res l :
  l ≠ [] →
  knativeSelectSplit_scan res l =
  if (weight (knativeSelectSplit l) >? weight res)%Z then knativeSelectSplit l else res.
Proof.
  induction l as [|s l IH] using rev_ind; [done |]. intros _.
  destruct (decide (l = [])) as [-> | Hne]; [done |].
  rewrite knativeSelectSplit_scan_snoc, knativeSelectSplit_snoc, IH by done.
  generalize (knativeSelectSplit l). intros m.
  destruct (Z.gtb_spec (weight m) (weight res)), (Z.gtb_spec (weight s) (weight m));
    try destruct (Z.gtb_spec (weight s) (weight res));
    try destruct (Z.gtb_spec (weight m) (weight res)); try done; lia.
Qed.

(** X7. The selector can work by parts: the selection from two non-empty lists
    of candidates put end to end is the selection between the two selected
    candidates, the one of the first list winning a tie. *)
Theorem knativeSelectSplit_by_parts (splits1 splits2 : list knative.IngressBackendSplit.t) :
  splits1 ≠ [] → splits2 ≠ [] →
  knativeSelectSplit (splits1 ++ splits2) =
  knativeSelectSplit [knativeSelectSplit splits1; knativeSelectSplit splits2].
Proof.
  intros H1 H2. destruct splits1 as [|x rest]; [done |].
  change (knativeSelectSplit ((x :: rest) ++ splits2))
    with (knativeSelectSplit_scan x (rest ++ splits2)).
  rewrite knativeSelectSplit_scan_app.
  change (knativeSelectSplit_scan x rest) with (knativeSelectSplit (x :: rest)).
  by rewrite knativeSelectSplit_scan_select.
Qed.

Lemma knativeSelectSplit_by_parts_witness :
  knativeSelectSplit
    ([Examples.split "a" 20 []; Examples.split "b" 70 []] ++
     [Examples.split "c" 70 []; Examples.split "d" 10 []])
  = knativeSelectSplit
      [knativeSelectSplit [Examples.split "a" 20 []; Examples.split "b" 70 []];
       knativeSelectSplit [Examples.split "c" 70 []; Examples.split "d" 10 []]].
Proof. by apply knativeSelectSplit_by_parts. Defined.
(** ** Where a service comes from *)

Lemma createdAs_refl service : createdAs service service.
Proof. exists []. by rewrite appendRoutes_nil. Qed.

Lemma createdAs_appendRoutes fresh service extra :
  createdAs fresh service → createdAs fresh (appendRoutes service extra).
Proof. intros [routes ->]. exists (routes ++ extra). by rewrite appendRoutes_app. Qed.

Section ServicesOfLoops.
Context {X : Type} (body : X → gset string → option Emission * gset string).

Lemma runLoop_services m u items k service :
  (runLoop body (m, u) items).1 !! k = Some service →
  (∃ service0, m !! k = Some service0 ∧ createdAs service0 service) ∨
  (∃ x used fresh r used',
     x ∈ items ∧ body x used = (Some (k, fresh, r), used') ∧ createdAs fresh service).
Proof.
  revert k service. induction items as [|x items IH] using rev_ind; intros k service.
  - intros Hk. left. exists service. split; [done | apply createdAs_refl].
  - rewrite runLoop_snoc.
    destruct (body x _) as [[[[k0 fresh0] r0]|] u0] eqn:Hx; simpl.
    + destruct (decide (k0 = k)) as [-> | Hne].
      * rewrite appendRoute_lookup. intros [= <-].
        destruct ((runLoop body (m, u) items).1 !! k) as [previous |] eqn:Hprev; simpl.
        -- destruct (IH _ _ Hprev) as [(s0 & Hm & Hc) | (y & uy & f & r & uy' & Hy & Hby & Hc)].
           ++ left. exists s0. split; [done | by apply createdAs_appendRoutes].
           ++ right. exists y, uy, f, r, uy'.
              split_and!; [set_solver | done | by apply createdAs_appendRoutes].
        -- right. exists x, (runLoop body (m, u) items).2, fresh0, r0, u0.
           split_and!; [set_solver | done | by eexists].
      * rewrite appendRoute_lookup_ne by done. intros Hk.
        destruct (IH _ _ Hk) as [? | (y & uy & f & r & uy' & Hy & Hby & Hc)]; [by left |].
        right. exists y, uy, f, r, uy'. split_and!; [set_solver | done | done].
    + intros Hk.
      destruct (IH _ _ Hk) as [? | (y & uy & f & r & uy' & Hy & Hby & Hc)]; [by left |].
      right. exists y, uy, f, r, uy'. split_and!; [set_solver | done | done].
Qed.

End ServicesOfLoops.

Section ServicesOfResources.
Context {I X : Type} (items : I → list X).
Context (body : I → X → gset string → option Emission * gset string).

(** Every service was created by some iteration, and has the service-level
    fields that this iteration gave it. *)
Lemma runResources_services l k service :
  runResources items body ∅ l !! k = Some service →
  ∃ i x used fresh r used',
    i ∈ l ∧ x ∈ items i ∧ body i x used = (Some (k, fresh, r), used') ∧
    createdAs fresh service.
Proof.
  revert k service. induction l as [|i l IH] using rev_ind; intros k service.
  - unfold runResources; simpl. by rewrite lookup_empty.
  - rewrite runResources_snoc.
    intros [(s0 & Hk & Hc) | (x & u & f & r & u' & Hx & Hb & Hc)]%runLoop_services.
    + destruct (IH _ _ Hk) as (i' & x & u & f & r & u' & Hi' & Hx & Hb & [routes ->]).
      exists i', x, u, f, r, u'. split_and!; [set_solver | done | done |].
      destruct Hc as [extra ->]. exists (routes ++ extra). by rewrite appendRoutes_app.
    + exists i, x, u, f, r, u'. split_and!; [set_solver | done | done | done].
Qed.

(** Every route was appended by some iteration. *)
Lemma runResources_routes l k r :
  (∀ i x used e used', body i x used = (Some e, used') → freshService e) →
  boundTo (runResources items body ∅ l) k r →
  ∃ i x used fresh used',
    i ∈ l ∧ x ∈ items i ∧ body i x used = (Some (k, fresh, r), used').
Proof.
  intros Hfresh [[svc [Hk _]] | (i & pre & x & Hi & post & f & u' & Hitems & Hx)]%runResources_sound.
  - by rewrite lookup_empty in Hk.
  - exists i, x, (usedAfter (body i) ∅ pre), f, u'. split_and!; [done | | done].
    rewrite Hitems. set_solver.
  - intros i x u k' f r' u' Hx. by apply Hfresh in Hx as [? _].
Qed.

End ServicesOfResources.

(** ** The output of the stream normalizers *)

Section Streams.
Context `{Externals}.
Context `{!RouteConfig configurationv1beta1.IngressRule.t}.
Context `{!RouteConfig configurationv1beta1.UDPIngressRule.t}.

Lemma streamService_createdAs protocol suffix k fresh service :
  createdAs fresh service → streamService protocol suffix k fresh →
  streamService protocol suffix k service.
Proof. by intros [routes ->]. Qed.

Lemma bodyTCP_shape hashed ingress x used k fresh r used' :
  bodyTCP hashed ingress x used = (Some (k, fresh, r), used') →
  streamService "tcp" "" k fresh ∧ streamRoute ["tcp"; "tls"] r ∧ atMostOneSNI r.
Proof.
  destruct x as [i rule]. unfold bodyTCP, ruleTCP.
  destruct (IsValidPort (configurationv1beta1.IngressRule.Port rule)) eqn:Hport; [| done].
  simpl.
  destruct (routeNameFor _ _ _ _ _ _) as [[name u] |]; [| done].
  destruct (isEmpty (configurationv1beta1.IngressBackend.ServiceName _)) eqn:Hname; [done |].
  destruct (IsValidPort (configurationv1beta1.IngressBackend.ServicePort _)) eqn:Hbackend;
    [| done].
  simpl. intros [= <- <- <- <-]. apply isEmpty_false in Hname. split_and!.
  - eexists _, _. simpl. rewrite append_nil_r. by split_and!.
  - exists (configurationv1beta1.IngressRule.Port rule).
    destruct (isEmpty (configurationv1beta1.IngressRule.Host rule)); simpl;
      split_and!; by eauto.
  - unfold atMostOneSNI.
    destruct (isEmpty (configurationv1beta1.IngressRule.Host rule)) eqn:Hhost; simpl;
      [by left | right].
    apply isEmpty_false in Hhost. by eexists.
Qed.

Lemma bodyUDP_shape hashed ingress x used k fresh r used' :
  bodyUDP hashed ingress x used = (Some (k, fresh, r), used') →
  streamService "udp" ".udp" k fresh ∧ streamRoute ["udp"] r ∧ noSNI r.
Proof.
  destruct x as [i rule]. unfold bodyUDP, ruleUDP.
  destruct (IsValidPort (configurationv1beta1.UDPIngressRule.Port rule)) eqn:Hport; [| done].
  simpl.
  destruct (isEmpty (configurationv1beta1.IngressBackend.ServiceName _)) eqn:Hname; [done |].
  destruct (IsValidPort (configurationv1beta1.IngressBackend.ServicePort _)) eqn:Hbackend;
    [| done].
  simpl.
  destruct (routeNameFor _ _ _ _ _ _) as [[name u] |]; [| done].
  intros [= <- <- <- <-]. apply isEmpty_false in Hname. split_and!; [| | done].
  - eexists _, _. simpl. by split_and!.
  - exists (configurationv1beta1.UDPIngressRule.Port rule). simpl. split_and!; by eauto.
Qed.

Lemma fromUDPIngressV1beta1_snis l hashed :
  SecretNameToSNIs_ (fromUDPIngressV1beta1 l hashed).1 = newSecretNameToSNIs.
Proof.
  unfold fromUDPIngressV1beta1. simpl.
  induction (SliceStable createdBefore l) as [|ingress sorted IH] using rev_ind; [done |].
  by rewrite foldl_app.
Qed.

(** X8. Whatever the TCP resources, the output of [fromTCPIngressV1beta1] is
    well formed: every service is stored under the name made of its
    namespace, backend service and backend port, forwards over TCP to a
    backend with a name and a valid port, and each of its routes is named,
    listens on one valid port for TCP and TLS, matches no path and no host,
    and at most one server name. *)
Theorem tcp_output_is_well_formed l hashed serviceName service :
  ServiceNameToServices (fromTCPIngressV1beta1 l hashed).1 !! serviceName = Some service →
  streamService "tcp" "" serviceName service ∧
  Forall (λ r, streamRoute ["tcp"; "tls"] r ∧ atMostOneSNI r)
    service.(kongstate.Service.Routes).
Proof.
  rewrite fromTCPIngressV1beta1_run. intros Hk. split.
  - apply runResources_services in Hk as (i & x & u & f & r & u' & _ & _ & Hx & Hc).
    apply bodyTCP_shape in Hx as [Hs _]. by eapply streamService_createdAs.
  - apply Forall_forall. intros r Hr.
    assert (Hb : boundTo (runResources itemsTCP (bodyTCP hashed) ∅
                            (SliceStable createdBefore l)) serviceName r)
      by by exists service.
    apply runResources_routes in Hb as (i & x & u & f & u' & _ & _ & Hx);
      [| intros ?????; apply bodyTCP_fresh].
    by apply bodyTCP_shape in Hx as (_ & ? & ?).
Qed.

(** X9. Whatever the UDP resources, the output of [fromUDPIngressV1beta1] is
    well formed: every service is stored under the name made of its
    namespace, backend service and backend port with the suffix [.udp],
    forwards over UDP to a backend with a name and a valid port, and each of
    its routes is named, listens on one valid port for UDP and matches no
    path, host or server name; and the fragment declares no SNI. *)
Theorem udp_output_is_well_formed l hashed serviceName service :
  ServiceNameToServices (fromUDPIngressV1beta1 l hashed).1 !! serviceName = Some service →
  streamService "udp" ".udp" serviceName service ∧
  Forall (λ r, streamRoute ["udp"] r ∧ noSNI r) service.(kongstate.Service.Routes) ∧
  SecretNameToSNIs_ (fromUDPIngressV1beta1 l hashed).1 = newSecretNameToSNIs.
Proof.
  rewrite fromUDPIngressV1beta1_snis.
  rewrite fromUDPIngressV1beta1_run. intros Hk. split_and!; [| | done].
  - apply runResources_services in Hk as (i & x & u & f & r & u' & _ & _ & Hx & Hc).
    apply bodyUDP_shape in Hx as [Hs _]. by eapply streamService_createdAs.
  - apply Forall_forall. intros r Hr.
    assert (Hb : boundTo (runResources itemsUDP (bodyUDP hashed) ∅
                            (SliceStable createdBefore l)) serviceName r)
      by by exists service.
    apply runResources_routes in Hb as (i & x & u & f & u' & _ & _ & Hx);
      [| intros ?????; apply bodyUDP_fresh].
    by apply bodyUDP_shape in Hx as (_ & ? & ?).
Qed.

End Streams.

Section StreamExamples.
Import Sample.

Lemma two_tcp_resources_one_service :
  is_Some (ServiceNameToServices
             (fromTCPIngressV1beta1 [MoreExamples.newerTCP; MoreExamples.olderTCP] true).1
           !! "default.echo.1025").
Proof. vm_compute. by eexists. Defined.

Lemma tcp_output_is_well_formed_witness :
  ∃ service,
    ServiceNameToServices
      (fromTCPIngressV1beta1 [MoreExamples.newerTCP; MoreExamples.olderTCP] true).1
    !! "default.echo.1025" = Some service ∧
    streamService "tcp" "" "default.echo.1025" service ∧
    Forall (λ r, streamRoute ["tcp"; "tls"] r ∧ atMostOneSNI r)
      service.(kongstate.Service.Routes).
Proof.
  destruct two_tcp_resources_one_service as [service Hk]. exists service.
  split; [exact Hk |]. exact (tcp_output_is_well_formed _ _ _ _ Hk).
Defined.

Lemma two_udp_resources_one_service :
  is_Some (ServiceNameToServices
             (fromUDPIngressV1beta1 [MoreExamples.newerUDP; MoreExamples.olderUDP] true).1
           !! "default.dns.53.udp").
Proof. vm_compute. by eexists. Defined.

Lemma udp_output_is_well_formed_witness :
  ∃ service,
    ServiceNameToServices
      (fromUDPIngressV1beta1 [MoreExamples.newerUDP; MoreExamples.olderUDP] true).1
    !! "default.dns.53.udp" = Some service ∧
    streamService "udp" ".udp" "default.dns.53.udp" service ∧
    Forall (λ r, streamRoute ["udp"] r ∧ noSNI r) service.(kongstate.Service.Routes) ∧
    SecretNameToSNIs_
      (fromUDPIngressV1beta1 [MoreExamples.newerUDP; MoreExamples.olderUDP] true).1
    = newSecretNameToSNIs.
Proof.
  destruct two_udp_resources_one_service as [service Hk]. exists service.
  split; [exact Hk |]. exact (udp_output_is_well_formed _ _ _ _ Hk).
Defined.

End StreamExamples.
(** ** Where routes and services come from *)

Lemma appendEmission_services e m k service :
  appendEmission e m !! k = Some service →
  (∃ service0, m !! k = Some service0 ∧ createdAs service0 service) ∨
  (k = e.1.1 ∧ createdAs e.1.2 service).
Proof.
  unfold appendEmission. destruct (decide (e.1.1 = k)) as [<- | Hne].
  - rewrite appendRoute_lookup. intros [= <-].
    destruct (m !! e.1.1) as [previous |]; simpl.
    + left. exists previous. split; [done | by eexists].
    + right. split; [done | by eexists].
  - rewrite appendRoute_lookup_ne by done. intros Hk.
    left. exists service. split; [done | apply createdAs_refl].
Qed.

Lemma enumerate_snd {A} (l : list A) : (enumerate l).*2 = l.
Proof.
  unfold enumerate. rewrite fmap_imap, (imap_ext _ (const id)) by done.
  by rewrite imap_const, list_fmap_id.
Qed.

Section Provenance.
Context `{Externals}.
Context `{!RouteConfig networkingv1beta1.IngressRule.t}.
Context `{!RouteConfig networkingv1.IngressRule.t}.
Context `{!RouteConfig configurationv1beta1.IngressRule.t}.
Context `{!RouteConfig configurationv1beta1.UDPIngressRule.t}.
Context `{!RouteConfig knative.IngressRule.t}.

Lemma bodyV1beta1_origin hashed ingress x used k fresh r used' :
  bodyV1beta1 hashed ingress x used = (Some (k, fresh, r), used') →
  fresh.(kongstate.Service.Namespace) = Namespace ingress ∧
  r.(kongstate.Route.Ingress) = FromK8sObject ingress.
Proof.
  destruct x as [[[i rule] j] rulePath]. unfold bodyV1beta1, pathV1beta1.
  destruct (Strings.Contains _ _); [done |].
  destruct (routeNameFor _ _ _ _ _ _) as [[name u] |]; [| done].
  intros [= <- <- <- <-]. by destruct (isEmpty (networkingv1beta1.IngressRule.Host rule)).
Qed.

Lemma bodyV1_origin hashed ingress x used k fresh r used' :
  bodyV1 hashed ingress x used = (Some (k, fresh, r), used') →
  fresh.(kongstate.Service.Namespace) = Namespace ingress ∧
  r.(kongstate.Route.Ingress) = FromK8sObject ingress.
Proof.
  destruct x as [[[i rule] j] rulePath]. unfold bodyV1, pathV1.
  destruct (Strings.Contains _ _); [done |].
  destruct (pathsFromK8s _ _) as [paths |]; [| done].
  destruct (routeNameFor _ _ _ _ _ _) as [[name u] |]; [| done].
  destruct (networkingv1.IngressBackend.Service _) as [backend |]; [| done]. simpl.
  intros [= <- <- <- <-]. by destruct (isEmpty (networkingv1.IngressRule.Host rule)).
Qed.

Lemma bodyTCP_origin hashed ingress x used k fresh r used' :
  bodyTCP hashed ingress x used = (Some (k, fresh, r), used') →
  fresh.(kongstate.Service.Namespace) = Namespace ingress ∧
  r.(kongstate.Route.Ingress) = FromK8sObject ingress.
Proof.
  destruct x as [i rule]. unfold bodyTCP, ruleTCP.
  destruct (IsValidPort (configurationv1beta1.IngressRule.Port rule)); [| done]. simpl.
  destruct (routeNameFor _ _ _ _ _ _) as [[name u] |]; [| done].
  destruct (isEmpty (configurationv1beta1.IngressBackend.ServiceName _)); [done |].
  destruct (IsValidPort (configurationv1beta1.IngressBackend.ServicePort _)); [| done].
  simpl. intros [= <- <- <- <-].
  by destruct (isEmpty (configurationv1beta1.IngressRule.Host rule)).
Qed.

Lemma bodyUDP_origin hashed ingress x used k fresh r used' :
  bodyUDP hashed ingress x used = (Some (k, fresh, r), used') →
  fresh.(kongstate.Service.Namespace) = Namespace ingress ∧
  r.(kongstate.Route.Ingress) = FromK8sObject ingress.
Proof.
  intros Hx. pose proof Hx as Hshape. destruct x as [i rule].
  unfold bodyUDP, ruleUDP in Hx.
  destruct (IsValidPort (configurationv1beta1.UDPIngressRule.Port rule)); [| done].
  simpl in Hx.
  destruct (isEmpty (configurationv1beta1.IngressBackend.ServiceName _)); [done |].
  destruct (IsValidPort (configurationv1beta1.IngressBackend.ServicePort _)); [| done].
  simpl in Hx.
  destruct (routeNameFor _ _ _ _ _ _) as [[name u] |]; [| done].
  by injection Hx as <- <- <- <-.
Qed.

Lemma bodyKnative_origin order hashed pi x used k fresh r used' :
  bodyKnative order hashed pi x used = (Some (k, fresh, r), used') →
  fresh.(kongstate.Service.Namespace) = Namespace pi.2 ∧
  r.(kongstate.Route.Ingress) = FromK8sObject pi.2.
Proof.
  destruct x as [[[i rule] j] rulePath]. unfold bodyKnative, pathKnative.
  destruct (routeNameFor _ _ _ _ _ _) as [[name u] |]; [| done].
  by intros [= <- <- <- <-].
Qed.

(** The rule loops alone. *)
Lemma runResources_tracedTo {I X A} `{Object A} (resource : I → A)
    (items : I → list X) (body : I → X → gset string → option Emission * gset string)
    (other : I → Emission → Prop) (resources sorted : list I) :
  sorted ≡ₚ resources →
  (∀ i x used e used', body i x used = (Some e, used') → freshService e) →
  (∀ i x used k fresh r used',
     body i x used = (Some (k, fresh, r), used') →
     fresh.(kongstate.Service.Namespace) = Namespace (resource i) ∧
     r.(kongstate.Route.Ingress) = FromK8sObject (resource i)) →
  tracedTo resource resources items body other (runResources items body ∅ sorted).
Proof.
  intros Hperm Hfresh Horigin. split.
  - intros k service
      (i & x & u & f & r & u' & Hi & Hin & Hx & Hc)%runResources_services.
    exists i, f, r. split_and!; [by rewrite <-Hperm | | done | left; by eexists _, _, _].
    destruct Hc as [routes ->]. by apply Horigin in Hx as [? _].
  - intros k r [(s & Hs & _) | (i & pre & x & Hi & Hemit)]%runResources_sound.
    + by rewrite lookup_empty in Hs.
    + exists i. split_and!; [by rewrite <-Hperm | | left; by eexists _, _].
      destruct Hemit as (post & f & u' & _ & Hx). by apply Horigin in Hx as [_ ?].
    + intros i x u k' f r' u' Hx. by apply Hfresh in Hx as [? _].
Qed.

Lemma tracedTo_appendEmission {I X A} `{Object A} (resource : I → A)
    (items : I → list X) (body : I → X → gset string → option Emission * gset string)
    (other : I → Emission → Prop) (resources : list I) e i out :
  freshService e → i ∈ resources → other i e →
  e.1.2.(kongstate.Service.Namespace) = Namespace (resource i) →
  e.2.(kongstate.Route.Ingress) = FromK8sObject (resource i) →
  tracedTo resource resources items body other out →
  tracedTo resource resources items body other (appendEmission e out).
Proof.
  intros [Hfresh _] Hi Hother Hns Hri [Hs Hr]. destruct e as [[k0 fresh0] r0]. split.
  - intros k service [(s0 & Hk & [routes ->]) | [-> Hc]]%appendEmission_services.
    + destruct (Hs _ _ Hk) as (i' & f & r & Hi' & Hns' & Hc & Hby).
      exists i', f, r. split_and!; [done | done | by apply createdAs_appendRoutes | done].
    + exists i, fresh0, r0. split_and!; [done | | done | by right].
      destruct Hc as [routes ->]. done.
  - intros k r [Hb | [-> ->]]%boundTo_appendRoute_inv; [exact (Hr _ _ Hb) | | done].
    exists i. split_and!; [done | done | right; by exists fresh0].
Qed.

(** X10. Every normalizer traces its output to the resources that produced
    it: each service is in the namespace of a resource of the input list one
    of whose rules, or whose default backend, created it, and each route
    carries the back-reference (namespace and name) of the very resource
    whose rule, or whose default backend, produced it. For the v1
    normalizer the output is that of a call that returns. *)
Theorem output_is_traced_to_input (hashed : bool) (order : MapOrder) :
  (∀ l, tracedTo id l itemsV1beta1 (bodyV1beta1 hashed) defaultOfV1beta1
          (ServiceNameToServices (fromIngressV1beta1 l hashed).1)) ∧
  (∀ l result, (fromIngressV1 l hashed).1 = Some result →
     tracedTo id l itemsV1 (bodyV1 hashed) defaultOfV1 (ServiceNameToServices result)) ∧
  (∀ l, tracedTo id l itemsTCP (bodyTCP hashed) noDefault
          (ServiceNameToServices (fromTCPIngressV1beta1 l hashed).1)) ∧
  (∀ l, tracedTo id l itemsUDP (bodyUDP hashed) noDefault
          (ServiceNameToServices (fromUDPIngressV1beta1 l hashed).1)) ∧
  (∀ l, tracedTo snd (enumerate (SliceStable createdBefore l)) itemsKnative
          (bodyKnative order hashed) noDefault
          (ServiceNameToServices (fromKnativeIngress order l hashed).1)).
Proof.
  split_and!.
  - intros l. rewrite fromIngressV1beta1_services. cbv zeta.
    assert (Hrun : tracedTo id l itemsV1beta1 (bodyV1beta1 hashed) defaultOfV1beta1
                     (runResources itemsV1beta1 (bodyV1beta1 hashed) ∅
                        (SliceStable createdBefore l))).
    { apply runResources_tracedTo; [apply SliceStable_perm | |].
      - intros i x u e u'. apply bodyV1beta1_fresh.
      - intros i x u k f r u'. apply bodyV1beta1_origin. }
    destruct (filter _ _) as [|ingress rest] eqn:Hf; [done |].
    destruct (networkingv1beta1.IngressSpec.Backend _) as [db |] eqn:Hdb; [| done].
    apply filter_sorted_head in Hf as [Hin _].
    apply (tracedTo_appendEmission id _ _ _ l _ ingress);
      [apply defaultBackendV1beta1_fresh | done | by exists db | done | done | done].
  - intros l result [_ Hresult]%fromIngressV1_services. cbv zeta in Hresult.
    assert (Hrun : tracedTo id l itemsV1 (bodyV1 hashed) defaultOfV1
                     (runResources itemsV1 (bodyV1 hashed) ∅
                        (SliceStable createdBefore l))).
    { apply runResources_tracedTo; [apply SliceStable_perm | |].
      - intros i x u e u'. apply bodyV1_fresh.
      - intros i x u k f r u'. apply bodyV1_origin. }
    destruct (filter _ _) as [|ingress rest] eqn:Hf; [by rewrite Hresult |].
    destruct Hresult as (db & e & Hdb & He & ->).
    apply filter_sorted_head in Hf as [Hin _].
    apply (tracedTo_appendEmission id _ _ _ l _ ingress);
      [by eapply defaultBackendV1_fresh | done | by exists db | | | done];
      unfold defaultBackendV1 in He;
      (destruct (networkingv1.IngressBackend.Service db); [| done]);
      by injection He as <-.
  - intros l. rewrite fromTCPIngressV1beta1_run.
    apply runResources_tracedTo; [apply SliceStable_perm | |].
    + intros i x u e u'. apply bodyTCP_fresh.
    + intros i x u k f r u'. apply bodyTCP_origin.
  - intros l. rewrite fromUDPIngressV1beta1_run.
    apply runResources_tracedTo; [apply SliceStable_perm | |].
    + intros i x u e u'. apply bodyUDP_fresh.
    + intros i x u k f r u'. apply bodyUDP_origin.
  - intros l. rewrite fromKnativeIngress_run.
    apply runResources_tracedTo; [done | |].
    + intros i x u e u'. apply bodyKnative_fresh.
    + intros i x u k f r u'. apply bodyKnative_origin.
Qed.

End Provenance.

(** ** Patterns and priorities of the HTTP routes *)

Section HTTPRoutes.
Context `{Externals}.
Context `{!RouteConfig networkingv1beta1.IngressRule.t}.
Context `{!RouteConfig networkingv1.IngressRule.t}.
Context `{!RouteConfig configurationv1beta1.IngressRule.t}.
Context `{!RouteConfig configurationv1beta1.UDPIngressRule.t}.

(** X11. No route of the two HTTP ingress normalizers has a pattern with a
    repeated separator: a rule path that has one is skipped, the path
    translator adds none, and the default-backend route matches ["/"]. For
    the v1 normalizer the output is that of a call that returns. *)
Theorem http_routes_have_clean_patterns (hashed : bool) :
  (∀ l, everyRoute (λ _ r, cleanPatterns r)
          (ServiceNameToServices (fromIngressV1beta1 l hashed).1)) ∧
  (∀ l result, (fromIngressV1 l hashed).1 = Some result →
     everyRoute (λ _ r, cleanPatterns r) (ServiceNameToServices result)).
Proof.
  split; [intros l k r Hb | intros l result Hresult k r Hb].
  - destruct (fromIngressV1beta1_routesAre l hashed) as [Hsound _].
    destruct (Hsound _ _ Hb)
      as [(ingress & db & _ & _ & _ & ->) | (i & pre & x & _ & Hemit & Hpass)].
    + by apply Forall_singleton.
    + destruct Hemit as (post & f & u' & _ & Hx). destruct x as [[[n rule] j] rulePath].
      apply bodyV1beta1_shape in Hx as [Hpaths _]. simpl in Hpaths.
      unfold cleanPatterns. rewrite Hpaths. apply Forall_singleton.
      destruct Hpass as [Hclean _]. by destruct (isEmpty _).
  - destruct (fromIngressV1_routesAre l hashed result Hresult) as [Hsound _].
    destruct (Hsound _ _ Hb)
      as [(ingress & db & fresh & _ & _ & He) | (i & pre & x & _ & Hemit & Hpass)].
    + unfold defaultBackendV1 in He.
      destruct (networkingv1.IngressBackend.Service db); [| done].
      injection He as _ _ <-. by apply Forall_singleton.
    + destruct Hemit as (post & f & u' & _ & Hx). destruct x as [[[n rule] j] rulePath].
      apply bodyV1_shape in Hx as [Hpaths _]. simpl in Hpaths.
      destruct Hpass as [Hclean _].
      by eapply pathsFromK8s_separatorsSingle.
Qed.

(** X12. In the output of [fromIngressV1], of a call that returns, the route
    of a rule path has priority 100, 200 or 300; priority 0 is that of an
    unknown path type, which the normalizer skips, so the only route with
    priority 0 is the one of the default backend. The legacy normalizer
    gives every route priority 0. *)
Theorem v1_rule_routes_outrank_the_default (hashed : bool) :
  (∀ l result, (fromIngressV1 l hashed).1 = Some result →
     everyRoute
       (λ serviceName r,
          priorityOf r ∈ [Some 0; Some 100; Some 200; Some 300] ∧
          (priorityOf r = Some 0 → defaultRouteV1 l serviceName r))
       (ServiceNameToServices result)) ∧
  (∀ l, everyRoute (λ _ r, priorityOf r = Some 0)
          (ServiceNameToServices (fromIngressV1beta1 l hashed).1)).
Proof.
  split; [intros l result Hresult k r Hb | intros l k r Hb].
  - destruct (fromIngressV1_routesAre l hashed result Hresult) as [Hsound _].
    destruct (Hsound _ _ Hb)
      as [Hdefault | (i & pre & x & _ & Hemit & Hpass)].
    + split; [| done]. destruct Hdefault as (ingress & db & fresh & _ & _ & He).
      unfold defaultBackendV1 in He.
      destruct (networkingv1.IngressBackend.Service db); [| done].
      injection He as _ _ <-. set_solver.
    + destruct Hemit as (post & f & u' & _ & Hx). destruct x as [[[n rule] j] rulePath].
      apply bodyV1_shape in Hx as [Hpaths Hprio]. simpl in Hpaths, Hprio.
      unfold priorityOf. rewrite Hprio.
      assert (Hknown : knownPathType (pathTypeOf rulePath)).
      { destruct (knownPathType_cases (pathTypeOf rulePath)) as [? | (Hp & He & Hi)];
          [done |].
        unfold pathsFromK8s in Hpaths. by rewrite Hp, He, Hi in Hpaths. }
      destruct Hknown as [-> | [-> | ->]]; (split; [set_solver | done]).
  - destruct (fromIngressV1beta1_routesAre l hashed) as [Hsound _].
    destruct (Hsound _ _ Hb)
      as [(ingress & db & _ & _ & _ & ->) | (i & pre & x & _ & Hemit & Hpass)]; [done |].
    destruct Hemit as (post & f & u' & _ & Hx). destruct x as [[[n rule] j] rulePath].
    by apply bodyV1beta1_shape in Hx as [_ Hprio].
Qed.

End HTTPRoutes.
(** ** A resource that is not older than the others *)

Section Newest.
Context `{Externals}.
Context `{!RouteConfig configurationv1beta1.IngressRule.t}.
Context `{!RouteConfig configurationv1beta1.UDPIngressRule.t}.
Context `{!RouteConfig knative.IngressRule.t}.

Lemma SliceStable_newest {A} `{Object A} (l : list A) (a : A) :
  newest l a → SliceStable createdBefore (l ++ [a]) = SliceStable createdBefore l ++ [a].
Proof.
  intros Hnewest. rewrite SliceStable_snoc. apply insertSorted_behind.
  unfold newest in Hnewest. rewrite Forall_forall in *.
  intros b Hb. apply Hnewest. by rewrite SliceStable_perm in Hb.
Qed.

Lemma enumerate_snoc {A} (l : list A) (a : A) :
  enumerate (l ++ [a]) = enumerate l ++ [(length l, a)].
Proof. unfold enumerate. rewrite imap_app. simpl. by rewrite Nat.add_0_r. Qed.

(** X13. In the TCP, UDP and weighted-split normalizers a resource that is not
    older than any other comes last and only adds: with it the output has
    every service it had without it, with the same service-level fields and
    the same routes in the same order, further routes being appended behind
    them. For the weighted-split normalizer, whose header lists follow the
    map order that the run meets, this holds of two runs under any two
    orders when no header map has more than one entry. *)
Theorem newest_resource_only_appends (hashed : bool) :
  (∀ l a, newest l a →
     extends (ServiceNameToServices (fromTCPIngressV1beta1 l hashed).1)
             (ServiceNameToServices (fromTCPIngressV1beta1 (l ++ [a]) hashed).1)) ∧
  (∀ l a, newest l a →
     extends (ServiceNameToServices (fromUDPIngressV1beta1 l hashed).1)
             (ServiceNameToServices (fromUDPIngressV1beta1 (l ++ [a]) hashed).1)) ∧
  (∀ order1 order2 l a,
     validMapOrder order1 → validMapOrder order2 → Forall fewHeaders (l ++ [a]) →
     newest l a →
     extends (ServiceNameToServices (fromKnativeIngress order1 l hashed).1)
             (ServiceNameToServices (fromKnativeIngress order2 (l ++ [a]) hashed).1)).
Proof.
  split_and!.
  - intros l a Hnewest.
    rewrite !fromTCPIngressV1beta1_run, SliceStable_newest, runResources_snoc by done.
    apply (runLoop_extends _ (_, _)).
  - intros l a Hnewest.
    rewrite !fromUDPIngressV1beta1_run, SliceStable_newest, runResources_snoc by done.
    apply (runLoop_extends _ (_, _)).
  - intros order1 order2 l a H1 H2 [Hfew _]%Forall_app Hnewest.
    rewrite (fromKnativeIngress_few order1 order2 l) by done.
    rewrite !fromKnativeIngress_run, SliceStable_newest, enumerate_snoc,
      runResources_snoc by done.
    apply (runLoop_extends _ (_, _)).
Qed.

End Newest.

Section NewestExamples.
Import Sample.

Lemma newest_resource_only_appends_witness :
  extends
    (ServiceNameToServices (fromTCPIngressV1beta1 [MoreExamples.olderTCP] true).1)
    (ServiceNameToServices
       (fromTCPIngressV1beta1 ([MoreExamples.olderTCP] ++ [MoreExamples.newerTCP]) true).1) ∧
  extends
    (ServiceNameToServices (fromUDPIngressV1beta1 [MoreExamples.olderUDP] true).1)
    (ServiceNameToServices
       (fromUDPIngressV1beta1 ([MoreExamples.olderUDP] ++ [MoreExamples.newerUDP]) true).1) ∧
  extends
    (ServiceNameToServices
       (fromKnativeIngress ascending Examples.headerOnSecondPath true).1)
    (ServiceNameToServices
       (fromKnativeIngress descending
          (Examples.headerOnSecondPath ++ [MoreExamples.laterIngressKnative]) true).1).
Proof.
  destruct (newest_resource_only_appends true) as (Htcp & Hudp & Hknative).
  split_and!.
  - apply Htcp. repeat constructor. by vm_compute.
  - apply Hudp. repeat constructor. by vm_compute.
  - apply Hknative.
    + apply ascending_valid.
    + apply descending_valid.
    + repeat constructor; by vm_compute.
    + repeat constructor. by vm_compute.
Defined.

End NewestExamples.
(** ** The naming flag only changes route names *)

Lemma appendRoute_withoutRouteNames k fresh r m :
  withoutRouteNames <$> appendRoute k fresh r m =
  appendRoute k (withoutRouteNames fresh) (withoutName r) (withoutRouteNames <$> m).
Proof.
  unfold appendRoute. rewrite fmap_insert, lookup_fmap. f_equal.
  destruct (m !! k) as [service |]; simpl;
    unfold withoutRouteNames, appendToRoutes; simpl; by rewrite fmap_app.
Qed.

Lemma foldl_rel {S1 S2 A} (R : S1 → S2 → Prop) (f : S1 → A → S1) (g : S2 → A → S2)
    s1 s2 (l : list A) :
  (∀ s1 s2 a, R s1 s2 → R (f s1 a) (g s2 a)) →
  R s1 s2 → R (foldl f s1 l) (foldl g s2 l).
Proof.
  intros Hstep. revert s1 s2. induction l as [|a l IH]; intros s1 s2 Hs; [done |].
  simpl. by apply IH, Hstep.
Qed.

Section SameButName.
Context {X : Type} (body1 body2 : X → gset string → option Emission * gset string).
Hypothesis Hsame : ∀ x used1 used2, sameButName (body1 x used1).1 (body2 x used2).1.

Lemma runLoop_sameButName m1 m2 u1 u2 items :
  withoutRouteNames <$> m1 = withoutRouteNames <$> m2 →
  withoutRouteNames <$> (runLoop body1 (m1, u1) items).1 =
  withoutRouteNames <$> (runLoop body2 (m2, u2) items).1.
Proof.
  intros Hm. induction items as [|x items IH] using rev_ind; [done |].
  rewrite !runLoop_snoc.
  pose proof (Hsame x (runLoop body1 (m1, u1) items).2 (runLoop body2 (m2, u2) items).2)
    as Hx.
  destruct (body1 x _) as [[[[k1 f1] r1]|] u1'], (body2 x _) as [[[[k2 f2] r2]|] u2'];
    simpl in *; try done.
  destruct Hx as (-> & -> & Hr). by rewrite !appendRoute_withoutRouteNames, IH, Hr.
Qed.

End SameButName.

Section NamingFlag.
Context `{Externals}.
Context `{!RouteConfig networkingv1beta1.IngressRule.t}.
Context `{!RouteConfig networkingv1.IngressRule.t}.
Context `{!RouteConfig configurationv1beta1.IngressRule.t}.
Context `{!RouteConfig configurationv1beta1.UDPIngressRule.t}.
Context `{!RouteConfig knative.IngressRule.t}.

Lemma unnamed_eq (result1 result2 : ingressRules) :
  unnamed result1 = unnamed result2 ↔
  withoutRouteNames <$> ServiceNameToServices result1
    = withoutRouteNames <$> ServiceNameToServices result2 ∧
  SecretNameToSNIs_ result1 = SecretNameToSNIs_ result2.
Proof.
  unfold unnamed. split.
  - intros Heq. split.
    + exact (f_equal ServiceNameToServices Heq).
    + exact (f_equal SecretNameToSNIs_ Heq).
  - by intros [-> ->].
Qed.

Lemma bodyV1beta1_sameButName ingress x used1 used2 :
  alwaysHashes networkingv1beta1.IngressRule.t →
  sameButName (bodyV1beta1 true ingress x used1).1 (bodyV1beta1 false ingress x used2).1.
Proof.
  intros Hhash. destruct x as [[[i rule] j] rulePath]. unfold bodyV1beta1, pathV1beta1.
  destruct (Strings.Contains _ _); [done |].
  destruct (Hhash (uniqueRuleV1beta1 rule rulePath)) as [id Hid].
  unfold routeNameFor. rewrite Hid. simpl.
  by destruct (isEmpty (networkingv1beta1.IngressRule.Host rule)).
Qed.

Lemma bodyV1_sameButName ingress x used1 used2 :
  alwaysHashes networkingv1.IngressRule.t →
  sameButName (bodyV1 true ingress x used1).1 (bodyV1 false ingress x used2).1.
Proof.
  intros Hhash. destruct x as [[[i rule] j] rulePath]. unfold bodyV1, pathV1.
  destruct (Strings.Contains _ _); [done |].
  destruct (pathsFromK8s _ _) as [paths |]; [| done].
  destruct (Hhash (uniqueRuleV1 rule rulePath)) as [id Hid].
  unfold routeNameFor. rewrite Hid.
  destruct (networkingv1.IngressBackend.Service _) as [backend |]; [| done]. simpl.
  by destruct (isEmpty (networkingv1.IngressRule.Host rule)).
Qed.

Lemma bodyTCP_sameButName ingress x used1 used2 :
  alwaysHashes configurationv1beta1.IngressRule.t →
  sameButName (bodyTCP true ingress x used1).1 (bodyTCP false ingress x used2).1.
Proof.
  intros Hhash. destruct x as [i rule]. unfold bodyTCP, ruleTCP.
  destruct (IsValidPort (configurationv1beta1.IngressRule.Port rule)); [| done]. simpl.
  destruct (Hhash rule) as [id Hid].
  unfold routeNameFor. rewrite Hid. simpl.
  destruct (isEmpty (configurationv1beta1.IngressBackend.ServiceName _)); [done |].
  destruct (IsValidPort (configurationv1beta1.IngressBackend.ServicePort _)); [| done].
  simpl. by destruct (isEmpty (configurationv1beta1.IngressRule.Host rule)).
Qed.

Lemma bodyUDP_sameButName ingress x used1 used2 :
  alwaysHashes configurationv1beta1.UDPIngressRule.t →
  sameButName (bodyUDP true ingress x used1).1 (bodyUDP false ingress x used2).1.
Proof.
  intros Hhash. destruct x as [i rule]. unfold bodyUDP, ruleUDP.
  destruct (IsValidPort (configurationv1beta1.UDPIngressRule.Port rule)); [| done]. simpl.
  destruct (isEmpty (configurationv1beta1.IngressBackend.ServiceName _)); [done |].
  destruct (IsValidPort (configurationv1beta1.IngressBackend.ServicePort _)); [| done].
  simpl.
  destruct (Hhash rule) as [id Hid].
  unfold routeNameFor. by rewrite Hid.
Qed.

Lemma bodyKnative_sameButName order pi x used1 used2 :
  alwaysHashes knative.IngressRule.t →
  sameButName (bodyKnative order true pi x used1).1 (bodyKnative order false pi x used2).1.
Proof.
  intros Hhash. destruct x as [[[i rule] j] rulePath]. unfold bodyKnative, pathKnative.
  destruct (Hhash (uniqueRuleKnative rule rulePath)) as [id Hid].
  unfold routeNameFor. by rewrite Hid.
Qed.

Lemma ingressTCP_step hashed result ingress :
  ServiceNameToServices (ingressTCP hashed result ingress) =
    (runLoop (bodyTCP hashed ingress) (ServiceNameToServices result, ∅)
       (itemsTCP ingress)).1 ∧
  SecretNameToSNIs_ (ingressTCP hashed result ingress) =
    addFromIngressV1beta1TLS
      (tcpIngressToNetworkingTLS
         ingress.(configurationv1beta1.TCPIngress.Spec).(configurationv1beta1.TCPIngressSpec.TLS))
      (Namespace ingress) (SecretNameToSNIs_ result).
Proof.
  unfold ingressTCP; simpl. split; [| done]. f_equal.
  unfold runLoop, itemsTCP. apply foldl_ext_eq. by intros ? [??].
Qed.

Lemma ingressUDP_step hashed result ingress :
  ServiceNameToServices (ingressUDP hashed result ingress) =
    (runLoop (bodyUDP hashed ingress) (ServiceNameToServices result, ∅)
       (itemsUDP ingress)).1 ∧
  SecretNameToSNIs_ (ingressUDP hashed result ingress) = SecretNameToSNIs_ result.
Proof.
  unfold ingressUDP; simpl. split; [| done]. f_equal.
  unfold runLoop, itemsUDP. apply foldl_ext_eq. by intros ? [??].
Qed.

Lemma ingressKnative_step order hashed result p ingress :
  ServiceNameToServices (ingressKnative order hashed result p ingress) =
    (runLoop (bodyKnative order hashed (p, ingress)) (ServiceNameToServices result, ∅)
       (itemsKnative (p, ingress))).1 ∧
  SecretNameToSNIs_ (ingressKnative order hashed result p ingress) =
    addFromIngressV1beta1TLS
      (knativeIngressToNetworkingTLS
         ingress.(knative.Ingress.Spec).(knative.IngressSpec.TLS))
      (Namespace ingress) (SecretNameToSNIs_ result).
Proof.
  unfold ingressKnative; simpl. split; [| done].
  unfold ruleKnative. by rewrite nested_runLoop.
Qed.

Lemma ingressV1beta1_snis hashed st ingress :
  SecretNameToSNIs_ (ingressV1beta1 hashed st ingress).1 =
    addFromIngressV1beta1TLS
      ingress.(networkingv1beta1.Ingress.Spec).(networkingv1beta1.IngressSpec.TLS)
      (Namespace ingress) (SecretNameToSNIs_ st.1).
Proof. by destruct st. Qed.

(** X14. When every rule has a unique id, the flag [hashedRouteNames] changes
    the names of the routes and nothing else: with the route names left out,
    each normalizer gives the same IR fragment (the same services under the
    same names with the same routes in the same order, the same SNIs) with
    the flag as without, and leaves the same slice. The v1 normalizer
    panics with the flag exactly when it does without. For the
    weighted-split normalizer, whose header lists follow the map order that
    the run meets, this holds of two runs under any two orders when no
    header map has more than one entry. *)
Theorem naming_flag_changes_route_names_only :
  alwaysHashes networkingv1beta1.IngressRule.t →
  alwaysHashes networkingv1.IngressRule.t →
  alwaysHashes configurationv1beta1.IngressRule.t →
  alwaysHashes configurationv1beta1.UDPIngressRule.t →
  alwaysHashes knative.IngressRule.t →
  (∀ l, unnamed (fromIngressV1beta1 l true).1 = unnamed (fromIngressV1beta1 l false).1 ∧
        (fromIngressV1beta1 l true).2 = (fromIngressV1beta1 l false).2) ∧
  (∀ l, unnamed <$> (fromIngressV1 l true).1 = unnamed <$> (fromIngressV1 l false).1 ∧
        (fromIngressV1 l true).2 = (fromIngressV1 l false).2) ∧
  (∀ l, unnamed (fromTCPIngressV1beta1 l true).1 = unnamed (fromTCPIngressV1beta1 l false).1 ∧
        (fromTCPIngressV1beta1 l true).2 = (fromTCPIngressV1beta1 l false).2) ∧
  (∀ l, unnamed (fromUDPIngressV1beta1 l true).1 = unnamed (fromUDPIngressV1beta1 l false).1 ∧
        (fromUDPIngressV1beta1 l true).2 = (fromUDPIngressV1beta1 l false).2) ∧
  (∀ order1 order2 l,
     validMapOrder order1 → validMapOrder order2 → Forall fewHeaders l →
     unnamed (fromKnativeIngress order1 l true).1
       = unnamed (fromKnativeIngress order2 l false).1 ∧
     (fromKnativeIngress order1 l true).2 = (fromKnativeIngress order2 l false).2).
Proof.
  intros Hv1beta1 Hv1 Htcp Hudp Hknative.
  split_and!; [intros l | intros l | intros l | intros l | intros order1 order l H1 H2 Hfew].
  - split; [| by rewrite !fromIngressV1beta1_slice].
    unfold fromIngressV1beta1.
    pose proof (foldl_rel (λ st1 st2, unnamed st1.1 = unnamed st2.1 ∧ st1.2 = st2.2)
                  (ingressV1beta1 true) (ingressV1beta1 false)
                  (newIngressRules, []) (newIngressRules, [])
                  (SliceStable createdBefore l)) as Hrel.
    destruct Hrel as [Hu Ha]; [| done |].
    { intros st1 st2 ingress [[Hs Hsni]%unnamed_eq Hadb]. split.
      - apply unnamed_eq. split.
        + rewrite !(proj1 (ingressV1beta1_step _ _ _)).
          apply runLoop_sameButName; [| done].
          intros x u1 u2. by apply bodyV1beta1_sameButName.
        + by rewrite !ingressV1beta1_snis, Hsni.
      - by rewrite !(proj2 (ingressV1beta1_step _ _ _)), Hadb. }
    destruct (foldl (ingressV1beta1 true) _ _) as [result1 adb1],
             (foldl (ingressV1beta1 false) _ _) as [result2 adb2].
    simpl in Hu, Ha. subst adb2.
    destruct (SliceStable createdBefore adb1) as [|ingress rest]; [done |].
    destruct (networkingv1beta1.IngressSpec.Backend _) as [db |]; [| done].
    destruct (defaultBackendV1beta1 ingress db) as [[k fresh] r]. simpl.
    apply unnamed_eq in Hu as [Hs Hsni]. apply unnamed_eq. simpl.
    by rewrite !appendRoute_withoutRouteNames, Hs.
  - split; [| by rewrite !fromIngressV1_slice].
    assert (Hpass : ∀ x, passesV1 true x ↔ passesV1 false x).
    { intros [[[i rule] j] rulePath]. unfold passesV1, nameable.
      split; intros (? & ? & ?); by split_and!. }
    assert (Hret : returnsV1 true l ↔ returnsV1 false l).
    { unfold returnsV1, servedV1. split; intros [Hs Hd]; (split; [| done]);
        (eapply Forall_impl; [exact Hs |]);
        intros ingress Hi i rule j rp Hin Hp; apply (Hi i rule j rp Hin); by apply Hpass. }
    destruct (fromIngressV1 l true).1 as [r1 |] eqn:Hr1,
             (fromIngressV1 l false).1 as [r2 |] eqn:Hr2; simpl.
    + f_equal. apply unnamed_eq.
      pose proof (fromIngressV1_snis _ _ _ Hr1) as Hs1.
      pose proof (fromIngressV1_snis _ _ _ Hr2) as Hs2.
      apply fromIngressV1_services in Hr1 as [_ Hr1].
      apply fromIngressV1_services in Hr2 as [_ Hr2]. cbv zeta in Hr1, Hr2.
      split; [| by rewrite Hs1, Hs2].
      assert (Hrules :
        withoutRouteNames <$> runResources itemsV1 (bodyV1 true) ∅
                                (SliceStable createdBefore l) =
        withoutRouteNames <$> runResources itemsV1 (bodyV1 false) ∅
                                (SliceStable createdBefore l)).
      { unfold runResources.
        apply (foldl_rel (λ m1 m2, withoutRouteNames <$> m1 = withoutRouteNames <$> m2));
          [| done].
        intros m1 m2 ingress Hm. apply runLoop_sameButName; [| done].
        intros x u1 u2. by apply bodyV1_sameButName. }
      destruct (filter _ _) as [|ingress rest]; [by rewrite Hr1, Hr2 |].
      destruct Hr1 as (db1 & e1 & Hdb1 & He1 & ->), Hr2 as (db2 & e2 & Hdb2 & He2 & ->).
      assert (db1 = db2) as -> by congruence. assert (e1 = e2) as -> by congruence.
      unfold appendEmission. by rewrite !appendRoute_withoutRouteNames, Hrules.
    + exfalso. destruct (fromIngressV1_returns l false) as [? Hc]; [| congruence].
      apply Hret. by apply fromIngressV1_services in Hr1 as [? _].
    + exfalso. destruct (fromIngressV1_returns l true) as [? Hc]; [| congruence].
      apply Hret. by apply fromIngressV1_services in Hr2 as [? _].
    + done.
  - split; [| done]. unfold fromTCPIngressV1beta1. simpl.
    apply (foldl_rel (λ result1 result2, unnamed result1 = unnamed result2)); [| done].
    intros result1 result2 ingress [Hs Hsni]%unnamed_eq. apply unnamed_eq. split.
    + rewrite !(proj1 (ingressTCP_step _ _ _)).
      apply runLoop_sameButName; [| done].
      intros x u1 u2. by apply bodyTCP_sameButName.
    + by rewrite !(proj2 (ingressTCP_step _ _ _)), Hsni.
  - split; [| done]. unfold fromUDPIngressV1beta1. simpl.
    apply (foldl_rel (λ result1 result2, unnamed result1 = unnamed result2)); [| done].
    intros result1 result2 ingress [Hs Hsni]%unnamed_eq. apply unnamed_eq. split.
    + rewrite !(proj1 (ingressUDP_step _ _ _)).
      apply runLoop_sameButName; [| done].
      intros x u1 u2. by apply bodyUDP_sameButName.
    + by rewrite !(proj2 (ingressUDP_step _ _ _)), Hsni.
  - rewrite (fromKnativeIngress_few order1 order l) by done.
    split; [| done]. unfold fromKnativeIngress. simpl.
    apply (foldl_rel (λ result1 result2, unnamed result1 = unnamed result2)); [| done].
    intros result1 result2 [p ingress] [Hs Hsni]%unnamed_eq. apply unnamed_eq. split.
    + rewrite !(proj1 (ingressKnative_step _ _ _ _ _)).
      apply runLoop_sameButName; [| done].
      intros x u1 u2. by apply bodyKnative_sameButName.
    + by rewrite !(proj2 (ingressKnative_step _ _ _ _ _)), Hsni.
Qed.

End NamingFlag.
(** ** Route names within a resource *)

Lemma append_same_length (a b x y : string) :
  String.length a = String.length b → a +:+ x = b +:+ y → a = b ∧ x = y.
Proof.
  revert b. induction a as [|c a IH]; intros [|d b]; simpl; try done.
  intros [= Hlen]. rewrite !append_cons. intros [= -> Heq].
  by destruct (IH _ Hlen Heq) as [-> ->].
Qed.

Lemma length_append (a b : string) :
  String.length (a +:+ b) = (String.length a + String.length b)%nat.
Proof.
  induction a as [|c a IH]; [done |]. rewrite append_cons. simpl. by rewrite IH.
Qed.

Lemma append_inj_r (a b t : string) : a +:+ t = b +:+ t → a = b.
Proof.
  intros Heq. apply (append_same_length a b t t); [| done].
  apply (f_equal String.length) in Heq. rewrite !length_append in Heq. lia.
Qed.

Lemma pretty_digit (j : nat) : (j < 10)%nat → ∃ c, pretty j = String c "".
Proof.
  intros Hj. do 10 (destruct j as [|j]; [eexists; vm_compute; reflexivity |]). lia.
Qed.

Lemma pretty_pair_inj (i1 j1 i2 j2 : nat) :
  (j1 < 10)%nat → (j2 < 10)%nat →
  pretty i1 +:+ pretty j1 = pretty i2 +:+ pretty j2 → i1 = i2 ∧ j1 = j2.
Proof.
  intros [c1 Hc1]%pretty_digit [c2 Hc2]%pretty_digit Heq.
  assert (Hlen : String.length (pretty i1) = String.length (pretty i2)).
  { apply (f_equal String.length) in Heq.
    rewrite !length_append, Hc1, Hc2 in Heq. simpl in Heq. lia. }
  destruct (append_same_length _ _ _ _ Hlen Heq) as [Hi Hj].
  split; by apply (inj pretty).
Qed.

Lemma enumerate_positions {A} (l : list A) pre i1 a1 mid i2 a2 post :
  enumerate l = pre ++ (i1, a1) :: mid ++ (i2, a2) :: post → i1 ≠ i2.
Proof.
  intros Hitems ->.
  pose proof (NoDup_enumerate l) as Hnd. rewrite Hitems in Hnd.
  apply NoDup_app in Hnd as (_ & _ & Hnd). apply NoDup_cons in Hnd as [Hnotin _].
  assert (H1 : (i2, a1) ∈ enumerate l) by (rewrite Hitems; set_solver).
  assert (H2 : (i2, a2) ∈ enumerate l) by (rewrite Hitems; set_solver).
  apply elem_of_enumerate in H1, H2.
  assert (a1 = a2) as -> by congruence.
  apply Hnotin. set_solver.
Qed.

Lemma sequential_nested_distinct {R P} (paths : R → option (list P)) (rules : list R)
    (body : nat * R * nat * P → gset string → option Emission * gset string)
    (name : string → string) `{!Inj (=) (=) name} :
  (∀ i rule j rulePath used e used',
     body (i, rule, j, rulePath) used = (Some e, used') →
     routeName e = Some (name (pretty i +:+ pretty j))) →
  atMostTenPaths paths rules →
  distinctNames (nestedItems paths rules) body.
Proof.
  intros Hname Hshort pre [[[i1 r1] j1] p1] mid [[[i2 r2] j2] p2] post e1 u1 e2 u2
    Hitems H1 H2.
  rewrite (Hname _ _ _ _ _ _ _ H1), (Hname _ _ _ _ _ _ _ H2). intros [= Heq%(inj name)].
  assert (Hbound : ∀ i r j p, (i, r, j, p) ∈ nestedItems paths rules → (j < 10)%nat).
  { intros i r j p (ps & Hr & Hps & Hp)%elem_of_nestedItems.
    unfold atMostTenPaths in Hshort. rewrite Forall_forall in Hshort.
    apply list_elem_of_lookup_2, Hshort in Hr. rewrite Hps in Hr. simpl in Hr.
    apply lookup_lt_Some in Hp. lia. }
  apply pretty_pair_inj in Heq as [-> ->].
  - by apply nestedItems_positions in Hitems.
  - apply (Hbound i1 r1 j1 p1). rewrite Hitems. set_solver.
  - apply (Hbound i2 r2 j2 p2). rewrite Hitems. set_solver.
Qed.

Lemma sequential_flat_distinct {R} (rules : list R)
    (body : nat * R → gset string → option Emission * gset string)
    (name : string → string) `{!Inj (=) (=) name} :
  (∀ i rule used e used',
     body (i, rule) used = (Some e, used') → routeName e = Some (name (pretty i))) →
  distinctNames (enumerate rules) body.
Proof.
  intros Hname pre [i1 r1] mid [i2 r2] post e1 u1 e2 u2 Hitems H1 H2.
  rewrite (Hname _ _ _ _ _ H1), (Hname _ _ _ _ _ H2).
  intros [= Heq%(inj name)%(inj pretty)]. by apply enumerate_positions in Hitems.
Qed.

Lemma hashed_distinct {X} (body : X → gset string → option Emission * gset string)
    routePrefix uniqID suffix (n : nat) items :
  namedBy body routePrefix uniqID suffix →
  (∀ x id, uniqID x = Some id → String.length id = n) →
  (∀ x, suffix x ≠ "") →
  (∀ pre x1 mid x2 post, items = pre ++ x1 :: mid ++ x2 :: post → suffix x1 ≠ suffix x2) →
  distinctNames items body.
Proof.
  intros Hnamed Hlen Hsuffix Hpos pre x1 mid x2 post e1 u1 e2 u2 Hitems H1 H2.
  destruct (Hnamed x1 (usedAfter body ∅ pre)) as [_ Hn1].
  destruct (Hn1 e1 u1 H1) as (id1 & Hid1 & Hname1 & _).
  destruct (Hnamed x2 (usedAfter body ∅ (pre ++ x1 :: mid))) as [_ Hn2].
  destruct (Hn2 e2 u2 H2) as (id2 & Hid2 & Hname2 & _).
  destruct (decide (id1 = id2)) as [-> | Hne].
  - destruct (namedBy_collision body _ _ _ pre x1 mid x2 e1 u1 e2 u2 id2
                Hnamed H1 H2 Hid1 Hid2) as [-> [-> | ->]]; intros [= Heq].
    + symmetry in Heq. apply append_ne_self in Heq; [done | apply Hsuffix].
    + apply append_inj_l in Heq. by eapply Hpos.
  - assert (Hshape : ∀ id (b : bool) s,
              ∃ t, (if b then (routePrefix +:+ id) +:+ s else routePrefix +:+ id)
                   = routePrefix +:+ id +:+ t).
    { intros id [] s; [exists s; apply append_assoc | exists ""; by rewrite append_nil_r]. }
    rewrite Hname1, Hname2.
    destruct (Hshape id1 (bool_decide (routePrefix +:+ id1 ∈ usedAfter body ∅ pre))
                (suffix x1)) as [t1 Ht1].
    destruct (Hshape id2
                (bool_decide (routePrefix +:+ id2 ∈ usedAfter body ∅ (pre ++ x1 :: mid)))
                (suffix x2)) as [t2 Ht2].
    intros [= Heq]. apply Hne.
    assert (Heq' : routePrefix +:+ id1 +:+ t1 = routePrefix +:+ id2 +:+ t2).
    { rewrite <-Ht1, <-Ht2. by repeat case_bool_decide; repeat case_decide. }
    apply append_inj_l in Heq'.
    apply (append_same_length id1 id2 t1 t2); [| done].
    by rewrite (Hlen _ _ Hid1), (Hlen _ _ Hid2).
Qed.

Section RouteNames.
Context `{Externals}.
Context {uniqIDV1beta1 : RouteConfig networkingv1beta1.IngressRule.t}.
Context {uniqIDV1 : RouteConfig networkingv1.IngressRule.t}.
Context {uniqIDTCP : RouteConfig configurationv1beta1.IngressRule.t}.
Context {uniqIDUDP : RouteConfig configurationv1beta1.UDPIngressRule.t}.
Context {uniqIDKnative : RouteConfig knative.IngressRule.t}.

#[local] Instance dotted_inj (a b : string) :
  Inj (=) (=) (λ s, a +:+ "." +:+ b +:+ "." +:+ s).
Proof. intros s1 s2 Heq. by do 4 apply (inj (String.app _)) in Heq. Qed.

#[local] Instance dotted_udp_inj (a b : string) :
  Inj (=) (=) (λ s, a +:+ "." +:+ b +:+ "." +:+ s +:+ ".udp").
Proof.
  intros s1 s2 Heq. do 4 apply (inj (String.app _)) in Heq. by apply append_inj_r in Heq.
Qed.

Lemma bodyV1beta1_sequential ingress i rule j rulePath used e used' :
  bodyV1beta1 false ingress (i, rule, j, rulePath) used = (Some e, used') →
  routeName e =
  Some (Namespace ingress +:+ "." +:+ Name ingress +:+ "." +:+ pretty i +:+ pretty j).
Proof.
  unfold bodyV1beta1, pathV1beta1, routeName.
  destruct (Strings.Contains _ _); [done |]. simpl.
  intros [= <- <-]. by destruct (isEmpty (networkingv1beta1.IngressRule.Host rule)).
Qed.

Lemma bodyV1_sequential ingress i rule j rulePath used e used' :
  bodyV1 false ingress (i, rule, j, rulePath) used = (Some e, used') →
  routeName e =
  Some (Namespace ingress +:+ "." +:+ Name ingress +:+ "." +:+ pretty i +:+ pretty j).
Proof.
  unfold bodyV1, pathV1, routeName.
  destruct (Strings.Contains _ _); [done |].
  destruct (pathsFromK8s _ _) as [paths |]; [| done]. simpl.
  destruct (networkingv1.IngressBackend.Service _) as [backend |]; [| done]. simpl.
  intros [= <- <-]. by destruct (isEmpty (networkingv1.IngressRule.Host rule)).
Qed.

Lemma bodyKnative_sequential order pi i rule j rulePath used e used' :
  bodyKnative order false pi (i, rule, j, rulePath) used = (Some e, used') →
  routeName e =
  Some (Namespace pi.2 +:+ "." +:+ Name pi.2 +:+ "." +:+ pretty i +:+ pretty j).
Proof. unfold bodyKnative, pathKnative, routeName. simpl. by intros [= <- <-]. Qed.

Lemma bodyTCP_sequential ingress i rule used e used' :
  bodyTCP false ingress (i, rule) used = (Some e, used') →
  routeName e = Some (Namespace ingress +:+ "." +:+ Name ingress +:+ "." +:+ pretty i).
Proof.
  unfold bodyTCP, ruleTCP, routeName.
  destruct (IsValidPort (configurationv1beta1.IngressRule.Port rule)); [| done]. simpl.
  destruct (isEmpty (configurationv1beta1.IngressBackend.ServiceName _)); [done |].
  destruct (IsValidPort (configurationv1beta1.IngressBackend.ServicePort _)); [| done].
  simpl. intros [= <- <-].
  by destruct (isEmpty (configurationv1beta1.IngressRule.Host rule)).
Qed.

Lemma bodyUDP_sequential ingress i rule used e used' :
  bodyUDP false ingress (i, rule) used = (Some e, used') →
  routeName e =
  Some (Namespace ingress +:+ "." +:+ Name ingress +:+ "." +:+ pretty i +:+ ".udp").
Proof.
  unfold bodyUDP, ruleUDP, routeName.
  destruct (IsValidPort (configurationv1beta1.UDPIngressRule.Port rule)); [| done]. simpl.
  destruct (isEmpty (configurationv1beta1.IngressBackend.ServiceName _)); [done |].
  destruct (IsValidPort (configurationv1beta1.IngressBackend.ServicePort _)); [| done].
  simpl. by intros [= <- <-].
Qed.

(** X16. With sequential names, the routes of the rules of one TCP or UDP
    resource are named after the rule index, and no two of them get the same
    name. *)
Theorem sequential_stream_names_are_distinct :
  (∀ ingress, distinctNames (itemsTCP ingress) (bodyTCP false ingress)) ∧
  (∀ ingress, distinctNames (itemsUDP ingress) (bodyUDP false ingress)).
Proof.
  split; intros ingress.
  - apply (sequential_flat_distinct _ _
             (λ s, Namespace ingress +:+ "." +:+ Name ingress +:+ "." +:+ s)).
    intros i rule used e used'. apply bodyTCP_sequential.
  - apply (sequential_flat_distinct _ _
             (λ s, Namespace ingress +:+ "." +:+ Name ingress +:+ "." +:+ s +:+ ".udp")).
    intros i rule used e used'. apply bodyUDP_sequential.
Qed.

(** X17. With sequential names, the route of path [j] of rule [i] is named by
    the two indices written one after the other. As long as no rule of the
    resource has more than ten paths, no two routes of the resource get the
    same name, in both HTTP ingress normalizers and in the weighted-split
    normalizer. *)
Theorem sequential_http_names_are_distinct (order : MapOrder) :
  (∀ ingress,
     atMostTenPaths networkingv1beta1.IngressRule.HTTP
       ingress.(networkingv1beta1.Ingress.Spec).(networkingv1beta1.IngressSpec.Rules) →
     distinctNames (itemsV1beta1 ingress) (bodyV1beta1 false ingress)) ∧
  (∀ ingress,
     atMostTenPaths networkingv1.IngressRule.HTTP
       ingress.(networkingv1.Ingress.Spec).(networkingv1.IngressSpec.Rules) →
     distinctNames (itemsV1 ingress) (bodyV1 false ingress)) ∧
  (∀ pi,
     atMostTenPaths knative.IngressRule.HTTP
       pi.2.(knative.Ingress.Spec).(knative.IngressSpec.Rules) →
     distinctNames (itemsKnative pi) (bodyKnative order false pi)).
Proof.
  split_and!.
  - intros ingress Hshort.
    apply (sequential_nested_distinct _ _ _
             (λ s, Namespace ingress +:+ "." +:+ Name ingress +:+ "." +:+ s)); [| done].
    intros i rule j rulePath used e used'. apply bodyV1beta1_sequential.
  - intros ingress Hshort.
    apply (sequential_nested_distinct _ _ _
             (λ s, Namespace ingress +:+ "." +:+ Name ingress +:+ "." +:+ s)); [| done].
    intros i rule j rulePath used e used'. apply bodyV1_sequential.
  - intros pi Hshort.
    apply (sequential_nested_distinct _ _ _
             (λ s, Namespace pi.2 +:+ "." +:+ Name pi.2 +:+ "." +:+ s)); [| done].
    intros i rule j rulePath used e used'. apply bodyKnative_sequential.
Qed.

(** X18. With hashed names, when the unique ids all have the same length, no
    two routes of one HTTP ingress resource get the same name: a name is the
    prefix and the id, with the suffix of the rule and path index when that
    name is already used. *)
Theorem hashed_http_names_are_distinct (n1 n2 : nat) :
  fixedLengthIDs networkingv1beta1.IngressRule.t n1 →
  fixedLengthIDs networkingv1.IngressRule.t n2 →
  (∀ ingress, distinctNames (itemsV1beta1 ingress) (bodyV1beta1 true ingress)) ∧
  (∀ ingress, distinctNames (itemsV1 ingress) (bodyV1 true ingress)).
Proof.
  intros Hlen1 Hlen2. split; intros ingress.
  - eapply (hashed_distinct _ _ _ _ n1); [apply bodyV1beta1_namedBy | | |].
    + intros [[[i rule] j] rulePath] id. apply Hlen1.
    + intros [[[i rule] j] rulePath]. by rewrite append_cons.
    + intros pre [[[i1 r1] j1] p1] mid [[[i2 r2] j2] p2] post Hitems
        [-> ->]%suffix_inj.
      by apply nestedItems_positions in Hitems.
  - eapply (hashed_distinct _ _ _ _ n2); [apply bodyV1_namedBy | | |].
    + intros [[[i rule] j] rulePath] id. apply Hlen2.
    + intros [[[i rule] j] rulePath]. by rewrite append_cons.
    + intros pre [[[i1 r1] j1] p1] mid [[[i2 r2] j2] p2] post Hitems
        [-> ->]%suffix_inj.
      by apply nestedItems_positions in Hitems.
Qed.

End RouteNames.

Section RouteNamesExamples.
Import Sample.

Lemma sequential_http_names_are_distinct_witness :
  distinctNames (itemsV1beta1 Examples.exactFooV1beta1)
    (bodyV1beta1 false Examples.exactFooV1beta1) ∧
  distinctNames (itemsV1 Examples.samePathTwiceV1) (bodyV1 false Examples.samePathTwiceV1) ∧
  distinctNames (itemsKnative (0%nat, MoreExamples.laterIngressKnative))
    (bodyKnative ascending false (0%nat, MoreExamples.laterIngressKnative)).
Proof.
  destruct (sequential_http_names_are_distinct ascending) as (Hv1beta1 & Hv1 & Hknative).
  split_and!.
  - apply Hv1beta1. repeat constructor.
  - apply Hv1. repeat constructor.
  - apply Hknative. repeat constructor.
Defined.

Lemma hashed_http_names_are_distinct_witness :
  distinctNames (itemsV1beta1 Examples.exactFooV1beta1)
    (@bodyV1beta1 _ Checksums.uniqID_v1beta1 true Examples.exactFooV1beta1) ∧
  distinctNames (itemsV1 Examples.samePathTwiceV1)
    (@bodyV1 _ Checksums.uniqID_v1 true Examples.samePathTwiceV1).
Proof.
  assert (H1 : @fixedLengthIDs networkingv1beta1.IngressRule.t
                 Checksums.uniqID_v1beta1 1) by (by intros rule id [= <-]).
  assert (H2 : @fixedLengthIDs networkingv1.IngressRule.t
                 Checksums.uniqID_v1 1) by (by intros rule id [= <-]).
  destruct (hashed_http_names_are_distinct
              (uniqIDV1beta1 := Checksums.uniqID_v1beta1)
              (uniqIDV1 := Checksums.uniqID_v1) 1 1 H1 H2) as [Hv1beta1 Hv1].
  split; [apply Hv1beta1 | apply Hv1].
Defined.

End RouteNamesExamples.

Section NamingFlagExamples.
Import Sample.

Lemma naming_flag_changes_route_names_only_witness :
  unnamed (fromIngressV1beta1 Examples.threeDefaultsV1beta1 true).1
    = unnamed (fromIngressV1beta1 Examples.threeDefaultsV1beta1 false).1 ∧
  unnamed <$> (fromIngressV1 Examples.samePrefixV1 true).1
    = unnamed <$> (fromIngressV1 Examples.samePrefixV1 false).1 ∧
  unnamed (fromTCPIngressV1beta1 [MoreExamples.newerTCP; MoreExamples.olderTCP] true).1
    = unnamed (fromTCPIngressV1beta1 [MoreExamples.newerTCP; MoreExamples.olderTCP] false).1 ∧
  unnamed (fromUDPIngressV1beta1 [MoreExamples.newerUDP; MoreExamples.olderUDP] true).1
    = unnamed (fromUDPIngressV1beta1 [MoreExamples.newerUDP; MoreExamples.olderUDP] false).1 ∧
  unnamed (fromKnativeIngress ascending Examples.headerOnSecondPath true).1
    = unnamed (fromKnativeIngress descending Examples.headerOnSecondPath false).1.
Proof.
  destruct naming_flag_changes_route_names_only
    as (Hv1beta1 & Hv1 & Htcp & Hudp & Hknative);
    try (intros rule; by eexists).
  split_and!.
  - apply Hv1beta1.
  - apply Hv1.
  - apply Htcp.
  - apply Hudp.
  - apply Hknative;
      [apply ascending_valid | apply descending_valid | apply headerOnSecondPath_fewHeaders].
Defined.

End NamingFlagExamples.

(** ** Skipped rules and the used names *)

Section Skipped.
Context `{Externals}.
Context `{!RouteConfig networkingv1beta1.IngressRule.t}.
Context `{!RouteConfig networkingv1.IngressRule.t}.
Context `{!RouteConfig configurationv1beta1.IngressRule.t}.
Context `{!RouteConfig configurationv1beta1.UDPIngressRule.t}.
Context `{!RouteConfig knative.IngressRule.t}.

(** X19. A rule that is skipped leaves [usedRouteNames] as it was, in every
    normalizer but the TCP one: there the naming block runs before the checks
    of the backend, so with hashed names a rule with a valid port and a
    unique id that is skipped for its backend (no service name, or an invalid
    port) has still entered its name among the used ones. *)
Theorem skipped_rule_reserves_name_in_tcp_only (hashed : bool) (order : MapOrder) :
  (∀ ingress x used,
     (bodyV1beta1 hashed ingress x used).1 = None →
     (bodyV1beta1 hashed ingress x used).2 = used) ∧
  (∀ ingress x used,
     (bodyV1 hashed ingress x used).1 = None → (bodyV1 hashed ingress x used).2 = used) ∧
  (∀ ingress x used,
     (bodyUDP hashed ingress x used).1 = None → (bodyUDP hashed ingress x used).2 = used) ∧
  (∀ pi x used,
     (bodyKnative order hashed pi x used).1 = None →
     (bodyKnative order hashed pi x used).2 = used) ∧
  (∀ ingress i rule used id,
     IsValidPort rule.(configurationv1beta1.IngressRule.Port) = true →
     getUniqIDForRouteConfig rule = Some id →
     rule.(configurationv1beta1.IngressRule.Backend).(configurationv1beta1.IngressBackend.ServiceName)
       = "" ∨
     IsValidPort
       rule.(configurationv1beta1.IngressRule.Backend).(configurationv1beta1.IngressBackend.ServicePort)
       = false →
     bodyTCP true ingress (i, rule) used =
       (None,
        {[if decide (prefixTCP ingress +:+ id ∈ used)
          then (prefixTCP ingress +:+ id) +:+ "-" +:+ pretty i
          else prefixTCP ingress +:+ id]} ∪ used)).
Proof.
  split_and!.
  - intros ingress [[[i rule] j] rulePath] used. unfold bodyV1beta1, pathV1beta1.
    destruct (Strings.Contains _ _); [done |].
    by destruct (routeNameFor _ _ _ _ _ _) as [[name u] |].
  - intros ingress [[[i rule] j] rulePath] used. unfold bodyV1, pathV1.
    destruct (Strings.Contains _ _); [done |].
    destruct (pathsFromK8s _ _) as [paths |]; [| done].
    destruct (routeNameFor _ _ _ _ _ _) as [[name u] |]; [| done].
    by destruct (networkingv1.IngressBackend.Service _).
  - intros ingress [i rule] used. unfold bodyUDP, ruleUDP.
    destruct (IsValidPort (configurationv1beta1.UDPIngressRule.Port rule)); [| done].
    cbn [negb].
    destruct (isEmpty (configurationv1beta1.IngressBackend.ServiceName _)); [done |].
    destruct (IsValidPort (configurationv1beta1.IngressBackend.ServicePort _)); [| done].
    cbn [negb].
    by destruct (routeNameFor _ _ _ _ _ _) as [[name u] |].
  - intros pi [[[i rule] j] rulePath] used. unfold bodyKnative, pathKnative.
    by destruct (routeNameFor _ _ _ _ _ _) as [[name u] |].
  - intros ingress i rule used id Hport Hid Hbackend. unfold bodyTCP, ruleTCP.
    rewrite Hport. cbn [negb]. unfold routeNameFor. rewrite Hid.
    destruct Hbackend as [Hname | Hbackend].
    + rewrite Hname. simpl. by destruct (decide _).
    + rewrite Hbackend. simpl. destruct (isEmpty _); by destruct (decide _).
Qed.

End Skipped.

Section SkippedExamples.
Import Sample.

Lemma skipped_rule_reserves_name_in_tcp_only_witness :
  bodyTCP true MoreExamples.olderTCP (0%nat, MoreExamples.ruleTCP "" 9000 "" 1025) ∅ =
    (None, {["tcpingress-v1beta1.default.older.|9000||1025|"]} ∪ ∅).
Proof.
  destruct (skipped_rule_reserves_name_in_tcp_only true ascending) as (_ & _ & _ & _ & Htcp).
  etrans.
  - apply (Htcp MoreExamples.olderTCP 0%nat (MoreExamples.ruleTCP "" 9000 "" 1025) ∅
             "|9000||1025|"); [done | done | by left].
  - by rewrite decide_False by set_solver.
Defined.

End SkippedExamples.

(** ** Legacy ports *)

(** X20. In the legacy and weighted-split normalizers the port of a backend
    enters the service name by its text, and the service by
    [PortDefFromIntStr]. The port definition identifies the port; the text
    does so up to one confusion, that of a number with the name that spells
    it. *)
Theorem port_text_confuses_numbers_with_their_names (a b : intstr.IntOrString) :
  (PortDefFromIntStr a = PortDefFromIntStr b ↔ a = b) ∧
  (intstr.ToString a = intstr.ToString b ↔
   a = b ∨
   ∃ n, (a = intstr.FromInt n ∧ b = intstr.FromString (pretty n)) ∨
        (a = intstr.FromString (pretty n) ∧ b = intstr.FromInt n)).
Proof.
  split.
  - split; [| by intros ->].
    destruct a as [n | s], b as [m | t]; simpl; intros [= ?]; by subst.
  - split.
    + destruct a as [n | s], b as [m | t]; simpl; intros Heq.
      * left. by apply (inj pretty) in Heq as ->.
      * right. exists n. left. by rewrite Heq.
      * right. exists m. right. by rewrite Heq.
      * left. by rewrite Heq.
    + intros [-> | [n [[-> ->] | [-> ->]]]]; done.
Qed.

(** ** The output of the HTTP normalizers *)

Section HTTPOutput.
Context `{Externals}.
Context `{!RouteConfig networkingv1beta1.IngressRule.t}.
Context `{!RouteConfig networkingv1.IngressRule.t}.
Context `{!RouteConfig configurationv1beta1.IngressRule.t}.
Context `{!RouteConfig configurationv1beta1.UDPIngressRule.t}.
Context `{!RouteConfig knative.IngressRule.t}.

Lemma pathsFromK8s_nonempty path pathType patterns :
  pathsFromK8s path pathType = Some patterns → patterns ≠ [].
Proof. unfold pathsFromK8s. repeat case_match; by intros [= <-]. Qed.

Lemma httpService_createdAs k fresh service :
  createdAs fresh service → httpService k fresh → httpService k service.
Proof. by intros [routes ->]. Qed.

Lemma bodyV1beta1_http hashed ingress x used k fresh r used' :
  bodyV1beta1 hashed ingress x used = (Some (k, fresh, r), used') →
  httpService k fresh ∧ fresh.(kongstate.Service.Plugins) = [] ∧
  httpRoute r ∧ atMostOneHost r.
Proof.
  destruct x as [[[i rule] j] rulePath]. unfold bodyV1beta1, pathV1beta1.
  destruct (Strings.Contains _ _); [done |].
  destruct (routeNameFor _ _ _ _ _ _) as [[name u] |]; [| done].
  intros [= <- <- <- <-]. split_and!; [by repeat split | done | |].
  - by destruct (isEmpty (networkingv1beta1.IngressRule.Host rule)); repeat split.
  - unfold atMostOneHost.
    destruct (isEmpty (networkingv1beta1.IngressRule.Host rule)) eqn:Hhost; simpl;
      [by left | right].
    apply isEmpty_false in Hhost. by eexists.
Qed.

Lemma bodyV1_http hashed ingress x used k fresh r used' :
  bodyV1 hashed ingress x used = (Some (k, fresh, r), used') →
  httpService k fresh ∧ fresh.(kongstate.Service.Plugins) = [] ∧
  httpRoute r ∧ atMostOneHost r.
Proof.
  destruct x as [[[i rule] j] rulePath]. unfold bodyV1, pathV1.
  destruct (Strings.Contains _ _); [done |].
  destruct (pathsFromK8s _ _) as [paths |] eqn:Hpaths; [| done].
  destruct (routeNameFor _ _ _ _ _ _) as [[name u] |]; [| done].
  assert (Hne : paths ≠ []) by by eapply pathsFromK8s_nonempty.
  destruct (networkingv1.IngressBackend.Service _) as [backend |]; [| done]. simpl.
  intros [= <- <- <- <-]. split_and!; [by repeat split | done | |].
  - by destruct (isEmpty (networkingv1.IngressRule.Host rule)); repeat split.
  - unfold atMostOneHost.
    destruct (isEmpty (networkingv1.IngressRule.Host rule)) eqn:Hhost; simpl;
      [by left | right].
    apply isEmpty_false in Hhost. by eexists.
Qed.

Lemma bodyKnative_http order hashed pi x used k fresh r used' :
  bodyKnative order hashed pi x used = (Some (k, fresh, r), used') →
  httpService k fresh ∧ httpRoute r.
Proof.
  destruct x as [[[i rule] j] rulePath]. unfold bodyKnative, pathKnative.
  destruct (routeNameFor _ _ _ _ _ _) as [[name u] |]; [| done].
  intros [= <- <- <- <-]. split; by repeat split.
Qed.

Lemma defaultBackendV1beta1_http ingress db :
  httpService (defaultBackendV1beta1 ingress db).1.1 (defaultBackendV1beta1 ingress db).1.2 ∧
  (defaultBackendV1beta1 ingress db).1.2.(kongstate.Service.Plugins) = [] ∧
  httpRoute (defaultBackendV1beta1 ingress db).2 ∧
  atMostOneHost (defaultBackendV1beta1 ingress db).2.
Proof. split_and!; [by repeat split | done | by repeat split | by left]. Qed.

Lemma defaultBackendV1_http ingress db e :
  defaultBackendV1 ingress db = Some e →
  httpService e.1.1 e.1.2 ∧ e.1.2.(kongstate.Service.Plugins) = [] ∧
  httpRoute e.2 ∧ atMostOneHost e.2.
Proof.
  unfold defaultBackendV1. destruct (networkingv1.IngressBackend.Service db); [| done].
  intros [= <-]. split_and!; [by repeat split | done | by repeat split | by left].
Qed.

(** The rule loops alone, then with the default-backend block. *)
Lemma runResources_everyService {I X} (items : I → list X)
    (body : I → X → gset string → option Emission * gset string)
    (P : string → kongstate.Service.t → Prop) l :
  (∀ k fresh service, createdAs fresh service → P k fresh → P k service) →
  (∀ i x used k fresh r used', body i x used = (Some (k, fresh, r), used') → P k fresh) →
  everyService P (runResources items body ∅ l).
Proof.
  intros Hkeep Hbody k service
    (i & x & u & f & r & u' & _ & _ & Hx & Hc)%runResources_services.
  eapply Hkeep; [done |]. by eapply Hbody.
Qed.

Lemma runResources_everyRoute {I X} (items : I → list X)
    (body : I → X → gset string → option Emission * gset string)
    (P : string → kongstate.Route.t → Prop) l :
  (∀ i x used e used', body i x used = (Some e, used') → freshService e) →
  (∀ i x used k fresh r used', body i x used = (Some (k, fresh, r), used') → P k r) →
  everyRoute P (runResources items body ∅ l).
Proof.
  intros Hfresh Hbody k r (i & x & u & f & u' & _ & _ & Hx)%runResources_routes; [| done].
  by eapply Hbody.
Qed.

Lemma appendEmission_everyService (P : string → kongstate.Service.t → Prop) e out :
  (∀ k fresh service, createdAs fresh service → P k fresh → P k service) →
  P e.1.1 e.1.2 → everyService P out → everyService P (appendEmission e out).
Proof.
  intros Hkeep He Hout k service
    [(s0 & Hk & Hc) | [-> Hc]]%appendEmission_services.
  - eapply Hkeep; [done |]. by eapply Hout.
  - by eapply Hkeep.
Qed.

Lemma appendEmission_everyRoute (P : string → kongstate.Route.t → Prop) e out :
  freshService e → P e.1.1 e.2 → everyRoute P out → everyRoute P (appendEmission e out).
Proof.
  intros [Hfresh _] He Hout k r [Hb | [-> ->]]%boundTo_appendRoute_inv; [| done | done].
  by apply Hout.
Qed.

(** X21. Whatever the resources, the output of the two HTTP ingress normalizers
    (for the v1 one, of a call that returns) and of the weighted-split
    normalizer is well formed: every service is
    stored under the name it carries, has a host, the protocol ["http"] and
    the defaults of the repository for port, timeouts and retries; every
    route is named, has a pattern and a priority, serves HTTP and HTTPS,
    keeps the path and the host header, buffers both ways and matches neither
    server names nor destinations. In the two ingress normalizers no service
    has a plugin and every route matches any host or one host that is not
    empty. *)
Theorem http_output_is_well_formed (hashed : bool) (order : MapOrder) :
  (∀ l, let out := ServiceNameToServices (fromIngressV1beta1 l hashed).1 in
        everyService (λ k service,
          httpService k service ∧ service.(kongstate.Service.Plugins) = []) out ∧
        everyRoute (λ _ r, httpRoute r ∧ atMostOneHost r) out) ∧
  (∀ l result, (fromIngressV1 l hashed).1 = Some result →
        let out := ServiceNameToServices result in
        everyService (λ k service,
          httpService k service ∧ service.(kongstate.Service.Plugins) = []) out ∧
        everyRoute (λ _ r, httpRoute r ∧ atMostOneHost r) out) ∧
  (∀ l, let out := ServiceNameToServices (fromKnativeIngress order l hashed).1 in
        everyService httpService out ∧ everyRoute (λ _ r, httpRoute r) out).
Proof.
  assert (Hkeep : ∀ k fresh service,
            createdAs fresh service →
            httpService k fresh ∧ fresh.(kongstate.Service.Plugins) = [] →
            httpService k service ∧ service.(kongstate.Service.Plugins) = []).
  { by intros k fresh service [routes ->]. }
  split_and!; [intros l | intros l result [_ Hresult]%fromIngressV1_services
               | intros l]; cbv zeta.
  - rewrite fromIngressV1beta1_services. cbv zeta.
    assert (Hs : everyService (λ k service,
                   httpService k service ∧ service.(kongstate.Service.Plugins) = [])
                   (runResources itemsV1beta1 (bodyV1beta1 hashed) ∅
                      (SliceStable createdBefore l))).
    { apply runResources_everyService; [done |].
      intros i x u k f r u' Hx. by apply bodyV1beta1_http in Hx as (? & ? & _). }
    assert (Hr : everyRoute (λ _ r, httpRoute r ∧ atMostOneHost r)
                   (runResources itemsV1beta1 (bodyV1beta1 hashed) ∅
                      (SliceStable createdBefore l))).
    { apply runResources_everyRoute; [intros ?????; apply bodyV1beta1_fresh |].
      intros i x u k f r u' Hx. by apply bodyV1beta1_http in Hx as (_ & _ & ? & ?). }
    destruct (filter _ _) as [|ingress rest]; [done |].
    destruct (networkingv1beta1.IngressSpec.Backend _) as [db |]; [| done].
    destruct (defaultBackendV1beta1_http ingress db) as (? & ? & ? & ?). split.
    + by apply appendEmission_everyService.
    + by apply appendEmission_everyRoute; [apply defaultBackendV1beta1_fresh | ..].
  - cbv zeta in Hresult.
    assert (Hs : everyService (λ k service,
                   httpService k service ∧ service.(kongstate.Service.Plugins) = [])
                   (runResources itemsV1 (bodyV1 hashed) ∅ (SliceStable createdBefore l))).
    { apply runResources_everyService; [done |].
      intros i x u k f r u' Hx. by apply bodyV1_http in Hx as (? & ? & _). }
    assert (Hr : everyRoute (λ _ r, httpRoute r ∧ atMostOneHost r)
                   (runResources itemsV1 (bodyV1 hashed) ∅ (SliceStable createdBefore l))).
    { apply runResources_everyRoute; [intros ?????; apply bodyV1_fresh |].
      intros i x u k f r u' Hx. by apply bodyV1_http in Hx as (_ & _ & ? & ?). }
    destruct (filter _ _) as [|ingress rest]; [by rewrite Hresult |].
    destruct Hresult as (db & e & _ & He & ->).
    destruct (defaultBackendV1_http ingress db e He) as (? & ? & ? & ?). split.
    + by apply appendEmission_everyService.
    + by apply appendEmission_everyRoute; [eapply defaultBackendV1_fresh | ..].
  - rewrite fromKnativeIngress_run. split.
    + apply runResources_everyService; [apply httpService_createdAs |].
      intros i x u k f r u' Hx. by apply bodyKnative_http in Hx as [? _].
    + apply runResources_everyRoute; [intros ?????; apply bodyKnative_fresh |].
      intros i x u k f r u' Hx. by apply bodyKnative_http in Hx as [_ ?].
Qed.

End HTTPOutput.

(** ** The plugin of a weighted-split service *)

Section KnativePlugins.
Context `{Externals}.
Context `{!RouteConfig knative.IngressRule.t}.

Lemma rangeHeaders_perm (entries entries' : list (string * string)) :
  entries ≡ₚ entries' → rangeHeaders entries ≡ₚ rangeHeaders entries'.
Proof. intros Hperm. unfold rangeHeaders. by rewrite Hperm. Qed.

Lemma bodyKnative_plugins order hashed pi i rule j rulePath used k fresh r used' :
  validMapOrder order →
  bodyKnative order hashed pi (i, rule, j, rulePath) used = (Some (k, fresh, r), used') →
  k = serviceNameKnative rulePath ∧
  pluginsFor rulePath fresh.(kongstate.Service.Plugins).
Proof.
  intros Hvalid. unfold bodyKnative, pathKnative.
  destruct (routeNameFor _ _ _ _ _ _) as [[name u] |]; [| done].
  intros [= <- <- <- <-]. split; [done |]. unfold pluginsFor. simpl.
  set (backend := knativeSelectSplit (knative.HTTPIngressPath.Splits rulePath)).
  assert (Hperm :
    rangeHeaders (order (pi.1, i, j, false) (knative.IngressBackendSplit.AppendHeaders backend))
    ++ rangeHeaders (order (pi.1, i, j, true) (knative.HTTPIngressPath.AppendHeaders rulePath))
    ≡ₚ rangeHeaders (map_to_list (knative.IngressBackendSplit.AppendHeaders backend))
       ++ rangeHeaders (map_to_list (knative.HTTPIngressPath.AppendHeaders rulePath))).
  { by rewrite !(rangeHeaders_perm _ _ (Hvalid _ _)). }
  destruct (rangeHeaders (order _ _) ++ rangeHeaders (order _ _)) as [|h headers] eqn:Hh.
  - left. split; [| done]. by apply Permutation_nil_l in Hperm.
  - right. by exists (h :: headers).
Qed.

(** X22. Under any order that a run can meet, every service of the weighted-split
    output was created for a rule path of the input whose selected split
    gives the name of the service, and its plugins are those of that rule
    path: none when neither the selected split nor the path appends a header,
    and else the one request transformer that adds exactly these headers. *)
Theorem knative_plugin_adds_headers_of_a_rule_path
    (order : MapOrder) (l : list knative.Ingress.t) (hashed : bool) :
  validMapOrder order →
  everyService
    (λ serviceName service,
       ∃ rulePath,
         rulePathOf l rulePath ∧
         serviceName = serviceNameKnative rulePath ∧
         pluginsFor rulePath service.(kongstate.Service.Plugins))
    (ServiceNameToServices (fromKnativeIngress order l hashed).1).
Proof.
  intros Hvalid k service. rewrite fromKnativeIngress_run.
  intros ([p ingress] & [[[i rule] j] rulePath] & u & f & r & u' & Hin & Hx & Hb &
          [routes ->])%runResources_services.
  apply elem_of_enumerate, list_elem_of_lookup_2 in Hin. rewrite SliceStable_perm in Hin.
  apply elem_of_nestedItems in Hx as (paths & Hrule & Hpaths & Hpath).
  apply list_elem_of_lookup_2 in Hrule, Hpath.
  apply bodyKnative_plugins in Hb as [-> Hplugins]; [| done].
  exists rulePath. split; [by exists ingress, rule, paths | done].
Qed.

End KnativePlugins.

Section KnativePluginsExamples.
Import Sample.

Lemma knative_plugin_adds_headers_of_a_rule_path_witness :
  validMapOrder descending ∧
  everyService
    (λ serviceName service,
       ∃ rulePath,
         rulePathOf Examples.twoHeaders rulePath ∧
         serviceName = serviceNameKnative rulePath ∧
         pluginsFor rulePath service.(kongstate.Service.Plugins))
    (ServiceNameToServices (fromKnativeIngress descending Examples.twoHeaders true).1).
Proof.
  split; [apply descending_valid |].
  apply knative_plugin_adds_headers_of_a_rule_path, descending_valid.
Defined.

End KnativePluginsExamples.

(** ** Ports that fit *)

Lemma int32_fits (n : Z) : -2147483648 ≤ n < 2147483648 → int32 n = n.
Proof. intros Hn. unfold int32. rewrite Z.mod_small by lia. lia. Qed.

Section PortsFit.
Context `{Externals}.
Context `{!RouteConfig configurationv1beta1.IngressRule.t}.
Context `{!RouteConfig configurationv1beta1.UDPIngressRule.t}.

Lemma streamService_fits protocol suffix k service :
  validPortsFit → streamService protocol suffix k service →
  ∃ port,
    IsValidPort port = true ∧
    service.(kongstate.Service.Backend).(kongstate.BackendPort) =
      {| kongstate.Mode := kongstate.PortModeByNumber;
         kongstate.Number := port;
         kongstate.PortName := "" |} ∧
    k = service.(kongstate.Service.Namespace) +:+ "." +:+
        service.(kongstate.Service.Backend).(kongstate.BackendName) +:+ "." +:+
        pretty port +:+ suffix.
Proof.
  intros Hfit (name & port & _ & Hport & -> & _ & _ & _ & -> & _).
  exists port. simpl. rewrite int32_fits by by apply Hfit. done.
Qed.

(** X23. When the ports that [IsValidPort] accepts fit in 32 bits, the
    conversion to [int32] loses nothing: in the TCP and UDP output the port
    number of the backend of a service is the port written in its name. *)
Theorem stream_backend_port_is_not_truncated (hashed : bool) :
  validPortsFit →
  (∀ l, everyService
          (λ serviceName service,
             ∃ port,
               IsValidPort port = true ∧
               service.(kongstate.Service.Backend).(kongstate.BackendPort) =
                 {| kongstate.Mode := kongstate.PortModeByNumber;
                    kongstate.Number := port;
                    kongstate.PortName := "" |} ∧
               serviceName =
                 service.(kongstate.Service.Namespace) +:+ "." +:+
                 service.(kongstate.Service.Backend).(kongstate.BackendName) +:+ "." +:+
                 pretty port)
          (ServiceNameToServices (fromTCPIngressV1beta1 l hashed).1)) ∧
  (∀ l, everyService
          (λ serviceName service,
             ∃ port,
               IsValidPort port = true ∧
               service.(kongstate.Service.Backend).(kongstate.BackendPort) =
                 {| kongstate.Mode := kongstate.PortModeByNumber;
                    kongstate.Number := port;
                    kongstate.PortName := "" |} ∧
               serviceName =
                 service.(kongstate.Service.Namespace) +:+ "." +:+
                 service.(kongstate.Service.Backend).(kongstate.BackendName) +:+ "." +:+
                 pretty port +:+ ".udp")
          (ServiceNameToServices (fromUDPIngressV1beta1 l hashed).1)).
Proof.
  intros Hfit. split; intros l k service Hk.
  - rewrite fromTCPIngressV1beta1_run in Hk.
    apply runResources_services in Hk as (i & x & u & f & r & u' & _ & _ & Hx & Hc).
    apply bodyTCP_shape in Hx as [Hs _].
    destruct (streamService_fits "tcp" "" k service Hfit) as (port & Hvalid & Hport & Hname);
      [by eapply streamService_createdAs |].
    exists port. by rewrite append_nil_r in Hname.
  - apply (streamService_fits "udp"); [done |].
    rewrite fromUDPIngressV1beta1_run in Hk.
    apply runResources_services in Hk as (i & x & u & f & r & u' & _ & _ & Hx & Hc).
    apply bodyUDP_shape in Hx as [Hs _]. by eapply streamService_createdAs.
Qed.

End PortsFit.

Section PortsFitExamples.
Import Sample.

Lemma sample_validPortsFit : validPortsFit.
Proof.
  intros port Hport. simpl in Hport.
  apply andb_true_iff in Hport as [H0%Z.ltb_lt H1%Z.ltb_lt]. lia.
Defined.

Lemma stream_backend_port_is_not_truncated_witness :
  everyService
    (λ serviceName service,
       ∃ port,
         IsValidPort port = true ∧
         service.(kongstate.Service.Backend).(kongstate.BackendPort) =
           {| kongstate.Mode := kongstate.PortModeByNumber;
              kongstate.Number := port;
              kongstate.PortName := "" |} ∧
         serviceName =
           service.(kongstate.Service.Namespace) +:+ "." +:+
           service.(kongstate.Service.Backend).(kongstate.BackendName) +:+ "." +:+
           pretty port)
    (ServiceNameToServices
       (fromTCPIngressV1beta1 [MoreExamples.newerTCP; MoreExamples.olderTCP] true).1).
Proof.
  apply (proj1 (stream_backend_port_is_not_truncated true sample_validPortsFit)).
Defined.

End PortsFitExamples.

(** * The generated reconcilers *)

Section Reconcilers.
Import configuration.
Context `{Ctrlutils}.

(** The runs of [Reconcile], case by case. *)
Ltac reconcile_cases :=
  unfold Reconcile, beingDeleted, call, pastDeletion, failure in *; cbn in *;
  repeat (case_match; cbn in *; simplify_eq);
  repeat match goal with
         | Hin : _ ∈ _ :: _ |- _ => apply elem_of_cons in Hin as [Hin | Hin]; simplify_eq
         | Hin : _ ∈ [] |- _ => by apply elem_of_nil in Hin
         | Hb : negb _ = false |- _ => apply negb_false_iff in Hb
         | Hb : negb _ = true |- _ => apply negb_true_iff in Hb
         | Hlt : (_ <? _) = true |- _ => apply Z.ltb_lt in Hlt
         | Hlt : (_ <? _) = false |- _ => apply Z.ltb_ge in Hlt
         end.

(** X24. When [Get] fails, a reconciler calls nothing else: it is done, without
    an error when the object was not found and with the error of [Get]
    otherwise. *)
Theorem unreadable_object_ends_reconcile (w : World) kind req err :
  w (Get kind req) = inl err →
  run w (Reconcile kind req) =
    ((emptyResult, if IsNotFound err then None else Some err), [Get kind req]).
Proof. intros Hget. unfold Reconcile, call; cbn. by rewrite Hget. Qed.

(** X25. An object enters a cache store only by the reconciler of its kind, into
    the store of that kind, as [Get] returned it, when it carries the
    finalizer and is not past its deletion; and a run that adds to a store
    neither deletes from one nor updates the object. *)
Theorem cache_add_is_guarded (w : World) kind req store obj :
  CacheAdd store obj ∈ (run w (Reconcile kind req)).2 →
  w (Get kind req) = inr obj ∧ store = storeOf kind ∧
  HasFinalizer obj KongIngressFinalizer = true ∧
  ¬ pastDeletion w obj ∧
  (∀ store' obj', CacheDelete store' obj' ∉ (run w (Reconcile kind req)).2) ∧
  (∀ obj', ClientUpdate obj' ∉ (run w (Reconcile kind req)).2).
Proof.
  intros Hin. reconcile_cases; split_and!; try done;
    try (intros (t & ? & ?); simplify_eq; lia);
    intros; intros Hin; reconcile_cases.
Qed.

(** X26. The Kong admin API is updated only after a change of the cache that
    succeeded: the object that [Get] returned was added to, or deleted from,
    the store of the kind. *)
Theorem admin_update_follows_cache_change (w : World) kind req :
  UpdateKongAdmin ∈ (run w (Reconcile kind req)).2 →
  ∃ obj,
    w (Get kind req) = inr obj ∧
    ((CacheAdd (storeOf kind) obj ∈ (run w (Reconcile kind req)).2 ∧
      w (CacheAdd (storeOf kind) obj) = None) ∨
     (CacheDelete (storeOf kind) obj ∈ (run w (Reconcile kind req)).2 ∧
      w (CacheDelete (storeOf kind) obj) = None)).
Proof.
  intros Hin. reconcile_cases; eexists; (split; [done |]);
    first [left; split; [set_solver | done] | right; split; [set_solver | done]].
Qed.

(** X27. The finalizer is cleaned up last, for the object of the request once it
    is past its deletion, after it was deleted from the store and the Kong
    admin API was updated, both without an error; the reconciler then
    returns what [CleanupFinalizer] returns. *)
Theorem finalizer_cleanup_comes_last (w : World) kind req name obj :
  CleanupFinalizer name obj ∈ (run w (Reconcile kind req)).2 →
  name = req ∧ w (Get kind req) = inr obj ∧ pastDeletion w obj ∧
  w (CacheDelete (storeOf kind) obj) = None ∧ w UpdateKongAdmin = None ∧
  run w (Reconcile kind req) =
    (w (CleanupFinalizer req obj),
     [Get kind req; Now; CacheDelete (storeOf kind) obj; UpdateKongAdmin;
      CleanupFinalizer req obj]).
Proof.
  intros Hin. reconcile_cases; split_and!; try done; by eexists.
Qed.

(** X28. A reconciler stops at the first call that fails and returns its error:
    every call before the last one succeeded, and the error returned is that
    of the last call, except that a not-found error of [Get] is dropped. *)
Theorem first_failure_ends_reconcile (w : World) kind req :
  ∃ earlier final,
    (run w (Reconcile kind req)).2 = earlier ++ [final] ∧
    Forall (λ c, failure w c = None) earlier ∧
    (run w (Reconcile kind req)).1.2 =
      match final with
      | Get _ _ => failure w final ≫= IgnoreNotFound
      | _ => failure w final
      end.
Proof.
  unfold failure.
  destruct (w (Get kind req)) as [err | obj] eqn:Hget.
  { exists [], (Get kind req). unfold Reconcile, call; cbn. by rewrite !Hget. }
  reconcile_cases;
    first
      [ eexists [_], _; split; [reflexivity |]
      | eexists [_; _], _; split; [reflexivity |]
      | eexists [_; _; _], _; split; [reflexivity |]
      | eexists [_; _; _; _], _; split; [reflexivity |] ];
    cbn; (split; [repeat constructor; cbn; by rewrite ?Hget, ?H1, ?H2, ?H3, ?H4, ?H5, ?H6 |]);
    try done.
Qed.

(** X29. An object that is not being deleted and lacks the finalizer is not
    cached yet: the reconciler reads it (and the clock, when its deletion
    timestamp is set), appends the finalizer to those the object has and
    updates the object, and calls nothing else, neither a store nor the
    Kong admin API; it returns the error of the update, or asks to be run
    again when the update succeeded. *)
Theorem missing_finalizer_is_set_first (w : World) kind req obj :
  w (Get kind req) = inr obj →
  ¬ pastDeletion w obj →
  HasFinalizer obj KongIngressFinalizer = false →
  let obj' := SetFinalizers obj (obj.(Finalizers) ++ [KongIngressFinalizer]) in
  run w (Reconcile kind req) =
    (match w (ClientUpdate obj') with
     | Some err => (emptyResult, Some err)
     | None => ({| Requeue := true; RequeueAfter := 0 |}, None)
     end,
     Get kind req
       :: match obj.(DeletionTimestamp) with Some _ => [Now] | None => [] end
       ++ [ClientUpdate obj']).
Proof.
  intros Hget Hnot Hfin obj'. subst obj'.
  unfold Reconcile, beingDeleted, call, pastDeletion in *. cbn. rewrite Hget. cbn.
  destruct (DeletionTimestamp obj) as [t |] eqn:Ht; cbn.
  - destruct (t <? w Now) eqn:Hlt.
    { exfalso. apply Hnot. exists t. split; [done |]. by apply Z.ltb_lt. }
    rewrite Hfin. cbn. by destruct (w (ClientUpdate _)).
  - rewrite Hfin. cbn. by destruct (w (ClientUpdate _)).
Qed.

(** X30. A reconciler makes at most five calls in a run, and no call twice:
    one answer per call is all that a run can see of the world. The two
    reconcilers of legacy ingresses, of the groups [networking] and
    [extensions], use the same store, and any other two reconcilers use
    different stores. *)
Theorem reconcile_makes_each_call_once (w : World) kind req :
  NoDup (run w (Reconcile kind req)).2 ∧
  (length (run w (Reconcile kind req)).2 ≤ 5)%nat ∧
  ∀ kind', storeOf kind = storeOf kind' ↔
           kind = kind' ∨
           (kind = NetV1Beta1Ingress ∧ kind' = ExtV1Beta1Ingress) ∨
           (kind = ExtV1Beta1Ingress ∧ kind' = NetV1Beta1Ingress).
Proof.
  split_and!.
  - reconcile_cases;
      repeat (apply NoDup_cons; split; [set_solver |]); apply NoDup_nil_2.
  - reconcile_cases; simpl; lia.
  - intros kind'. split.
    + destruct kind, kind'; simpl; intros Heq; try discriminate Heq; auto.
    + intros [-> | [[-> ->] | [-> ->]]]; done.
Qed.

End Reconcilers.

Section ReconcilersExamples.
Import configuration configuration.Worlds.

Lemma unreadable_object_ends_reconcile_witness :
  run lost (Reconcile KongV1KongPlugin request) =
    ((emptyResult, None), [Get KongV1KongPlugin request]).
Proof.
  exact (unreadable_object_ends_reconcile lost KongV1KongPlugin request "not found" eq_refl).
Defined.

Lemma settled_object_is_added :
  CacheAdd IngressV1 settled ∈ (run (calm settled 0) (Reconcile NetV1Ingress request)).2.
Proof. vm_compute. set_solver. Defined.

Lemma cache_add_is_guarded_witness :
  calm settled 0 (Get NetV1Ingress request) = inr settled ∧
  IngressV1 = storeOf NetV1Ingress ∧
  HasFinalizer settled KongIngressFinalizer = true ∧
  ¬ pastDeletion (calm settled 0) settled ∧
  (∀ store' obj',
     CacheDelete store' obj' ∉ (run (calm settled 0) (Reconcile NetV1Ingress request)).2) ∧
  (∀ obj',
     ClientUpdate obj' ∉ (run (calm settled 0) (Reconcile NetV1Ingress request)).2).
Proof. exact (cache_add_is_guarded _ _ _ _ _ settled_object_is_added). Defined.

Lemma settled_object_updates_admin :
  UpdateKongAdmin ∈ (run (calm settled 0) (Reconcile NetV1Ingress request)).2.
Proof. vm_compute. set_solver. Defined.

Lemma admin_update_follows_cache_change_witness :
  ∃ obj,
    calm settled 0 (Get NetV1Ingress request) = inr obj ∧
    ((CacheAdd (storeOf NetV1Ingress) obj
        ∈ (run (calm settled 0) (Reconcile NetV1Ingress request)).2 ∧
      calm settled 0 (CacheAdd (storeOf NetV1Ingress) obj) = None) ∨
     (CacheDelete (storeOf NetV1Ingress) obj
        ∈ (run (calm settled 0) (Reconcile NetV1Ingress request)).2 ∧
      calm settled 0 (CacheDelete (storeOf NetV1Ingress) obj) = None)).
Proof. exact (admin_update_follows_cache_change _ _ _ settled_object_updates_admin). Defined.

Lemma leaving_object_is_cleaned_up :
  CleanupFinalizer request leaving
    ∈ (run (calm leaving 11) (Reconcile KongV1Beta1TCPIngress request)).2.
Proof. vm_compute. set_solver. Defined.

Lemma finalizer_cleanup_comes_last_witness :
  request = request ∧
  calm leaving 11 (Get KongV1Beta1TCPIngress request) = inr leaving ∧
  pastDeletion (calm leaving 11) leaving ∧
  calm leaving 11 (CacheDelete (storeOf KongV1Beta1TCPIngress) leaving) = None ∧
  calm leaving 11 UpdateKongAdmin = None ∧
  run (calm leaving 11) (Reconcile KongV1Beta1TCPIngress request) =
    (calm leaving 11 (CleanupFinalizer request leaving),
     [Get KongV1Beta1TCPIngress request; Now;
      CacheDelete (storeOf KongV1Beta1TCPIngress) leaving; UpdateKongAdmin;
      CleanupFinalizer request leaving]).
Proof. exact (finalizer_cleanup_comes_last _ _ _ _ _ leaving_object_is_cleaned_up). Defined.

Lemma missing_finalizer_is_set_first_witness :
  calm fresh 0 (Get KongV1KongConsumer request) = inr fresh ∧
  ¬ pastDeletion (calm fresh 0) fresh ∧
  HasFinalizer fresh KongIngressFinalizer = false ∧
  run (calm fresh 0) (Reconcile KongV1KongConsumer request) =
    (({| Requeue := true; RequeueAfter := 0 |}, None),
     [Get KongV1KongConsumer request;
      ClientUpdate (SetFinalizers fresh [KongIngressFinalizer])]).
Proof.
  assert (Hnot : ¬ pastDeletion (calm fresh 0) fresh) by (by intros (t & ? & ?)).
  split_and!; [reflexivity | exact Hnot | reflexivity |].
  exact (missing_finalizer_is_set_first (calm fresh 0) KongV1KongConsumer request fresh
           eq_refl Hnot eq_refl).
Defined.

End ReconcilersExamples.
